(** * Modkey: a shallow embedding of the shortcut engine

  The development follows the TypeScript sources [src/utils.ts],
  [src/emitter.ts] and [src/manager.ts].  Every definition keeps the name
  of the function it embeds.

  Conventions of the embedding.
  - A JavaScript string is a [string]: a sequence of code units, read as
    Latin-1 (code units 0..255).  On that range [toLowerCase], [trim] and
    the regular-expression classes below are the ECMAScript ones.
  - A [Set<string>] is a duplicate-free list in insertion order; a
    [Map<string, V>] that is iterated is an association list in insertion
    order with unique keys; a [Map] that is only read and written by key
    is a [gmap].
  - Callbacks and listeners are opaque: they are named by a number and
    every invocation is recorded, with its argument, in an effect trace. *)

From Stdlib Require Import Ascii NArith DecimalString.
From stdpp Require Import gmap strings list.

(** ** JavaScript strings *)

Module JsString.

Definition code (c : ascii) : N := N_of_ascii c.

Definition between (lo hi : N) (n : N) : bool :=
  (lo <=? n)%N && (n <=? hi)%N.

(** [Unicode simple lower-casing], restricted to Latin-1: [A-Z] and
  U+00C0..U+00DE without U+00D7 move up by 32. *)
Definition lowerChar (c : ascii) : ascii :=
  let n := code c in
  if between 65 90 n || (between 192 222 n && negb (n =? 215)%N)
  then ascii_of_N (n + 32)
  else c.

(** [String.prototype.toLowerCase] *)
Fixpoint toLowerCase (s : string) : string :=
  match s with
  | EmptyString => EmptyString
  | String c r => String (lowerChar c) (toLowerCase r)
  end.

(** ECMAScript [WhiteSpace] and [LineTerminator] code points below 256:
  TAB, LF, VT, FF, CR, SP and NBSP. *)
Definition isWhiteSpace (c : ascii) : bool :=
  let n := code c in
  between 9 13 n || (n =? 32)%N || (n =? 160)%N.

(** The class [\w] of a regular expression without flags:
  [[A-Za-z0-9_]]. *)
Definition isWordChar (c : ascii) : bool :=
  let n := code c in
  between 97 122 n || between 65 90 n || between 48 57 n || (n =? 95)%N.

Fixpoint trimStart (s : string) : string :=
  match s with
  | EmptyString => EmptyString
  | String c r => if isWhiteSpace c then trimStart r else s
  end.

Fixpoint trimEnd (s : string) : string :=
  match s with
  | EmptyString => EmptyString
  | String c r =>
    match trimEnd r with
    | EmptyString => if isWhiteSpace c then EmptyString else String c EmptyString
    | r' => String c r'
    end
  end.

(** [String.prototype.trim] *)
Definition trim (s : string) : string := trimEnd (trimStart s).

(** [s.split(sep)] for a separator of one code unit: the result always
  has at least one element, and [''.split(sep)] is [['']]. *)
Fixpoint split (sep : ascii) (s : string) : list string :=
  match s with
  | EmptyString => [EmptyString]
  | String c r =>
    if Ascii.eqb c sep then EmptyString :: split sep r
    else match split sep r with
         | t :: ts => String c t :: ts
         | [] => [String c EmptyString]
         end
  end.

Fixpoint startsWith (p s : string) : bool :=
  match p, s with
  | EmptyString, _ => true
  | String a p', String b s' => Ascii.eqb a b && startsWith p' s'
  | String _ _, EmptyString => false
  end.

(** [String.prototype.includes] *)
Fixpoint includes (s needle : string) : bool :=
  startsWith needle s ||
  match s with
  | EmptyString => false
  | String _ r => includes r needle
  end.

(** JavaScript truthiness of a string: only [''] is falsy. *)
Definition truthy (s : string) : bool :=
  match s with
  | EmptyString => false
  | String _ _ => true
  end.

End JsString.

(** ** JavaScript collections *)

(** [Set<A>]: insertion-ordered, without duplicates. *)
Module JsSet.
Section Ops.
Context {A : Type} `{EqDecision A}.

Definition has (s : list A) (x : A) : bool := bool_decide (x ∈ s).

Definition add (x : A) (s : list A) : list A :=
  if has s x then s else s ++ [x].

Definition delete (x : A) (s : list A) : list A :=
  filter (λ y, y ≠ x) s.

(** [new Set(xs)] adds the elements of [xs] one by one. *)
Definition from (xs : list A) : list A :=
  foldl (λ s x, add x s) [] xs.
End Ops.
End JsSet.

(** [Map<string, V>] where the code iterates over it: insertion-ordered
  entries.  [set] on a key already present keeps the entry's position. *)
Module JsMap.
Section Ops.
Context {V : Type}.

Fixpoint get (k : string) (m : list (string * V)) : option V :=
  match m with
  | [] => None
  | (k', v) :: r => if String.eqb k' k then Some v else get k r
  end.

Fixpoint set (k : string) (v : V) (m : list (string * V))
  : list (string * V) :=
  match m with
  | [] => [(k, v)]
  | (k', v') :: r =>
      if String.eqb k' k then (k', v) :: r else (k', v') :: set k v r
  end.

Fixpoint delete (k : string) (m : list (string * V)) : list (string * V) :=
  match m with
  | [] => []
  | (k', v') :: r =>
      if String.eqb k' k then r else (k', v') :: delete k r
  end.

(** [new Map(entries)] *)
Definition from (entries : list (string * V)) : list (string * V) :=
  foldl (λ m e, set e.1 e.2 m) [] entries.

Definition keys (m : list (string * V)) : list string := map fst m.
Definition values (m : list (string * V)) : list V := map snd m.
End Ops.
End JsMap.

(** ** [src/types.ts] *)

Record ShortcutConfig := mkShortcutConfig {
  id : string;
  name : string;
  description : string;
  keys : string;
  preventDefault : option bool;
  enabled : option bool;
  scope : option string
}.

(** The fields of a [KeyboardEvent] that the library reads. *)
Record KeyboardEvent := mkKeyboardEvent {
  key : string;
  ctrlKey : bool;
  shiftKey : bool;
  altKey : bool;
  metaKey : bool
}.

Record ShortcutEvent := mkShortcutEvent {
  ev_id : string;
  timestamp : Z;
  originalEvent : KeyboardEvent
}.

Record Conflict := mkConflict {
  id1 : string;
  id2 : string;
  conflict_keys : string
}.

(** ** [src/utils.ts] *)

Inductive Platform := mac | windows | linux.

Module Utils.
Import JsString.

Definition normalizeKey (k : string) : string := toLowerCase k.

(** The host is [navigator : option string]: [None] when [navigator] is
  undefined, otherwise the value of [navigator.platform]. *)
Definition getPlatform (navigator : option string) : Platform :=
  match navigator with
  | None => linux
  | Some p =>
    let platform := toLowerCase p in
    if includes platform "mac" then mac
    else if includes platform "win" then windows
    else linux
  end.

Definition isMac (navigator : option string) : bool :=
  match getPlatform navigator with
  | mac => true
  | _ => false
  end.

(** [keys.replace(/\bmod\b/g, modifier)].  The scan goes left to right;
  [prev] tells whether the code unit before the current position is a
  word character.  At a position where [\bmod\b] matches, the
  replacement is emitted and the scan resumes after the match;
  elsewhere one code unit is copied. *)
Definition boundaryAfter (s : string) : bool :=
  match s with
  | EmptyString => true
  | String c _ => negb (isWordChar c)
  end.

Fixpoint replaceMod (modifier : string) (prev : bool) (s : string) : string :=
  match s with
  | EmptyString => EmptyString
  | String c r =>
    let copy := String c (replaceMod modifier (isWordChar c) r) in
    match r with
    | String c2 (String c3 r3) =>
        if negb prev && Ascii.eqb c "m" && Ascii.eqb c2 "o"
           && Ascii.eqb c3 "d" && boundaryAfter r3
        then modifier +:+ replaceMod modifier true r3
        else copy
    | _ => copy
    end
  end.

Definition platformModifier (navigator : option string) : string :=
  if isMac navigator then "meta" else "ctrl".

Definition resolvePlatformModifier (navigator : option string) (keys : string)
  : string :=
  replaceMod (platformModifier navigator) false keys.

Record Parsed := mkParsed {
  modifiers : list string;
  parsed_key : string
}.

Definition parseKeyCombination (navigator : option string) (keys : string)
  : Parsed :=
  let parts :=
  map trim (split "+" (toLowerCase (resolvePlatformModifier navigator keys))) in
  {| parsed_key := List.last parts EmptyString;
   modifiers := JsSet.from (removelast parts) |}.

Definition matchesKeyCombination (navigator : option string)
  (event : KeyboardEvent) (keys : string) : bool :=
  let p := parseKeyCombination navigator keys in
  let eventKey := normalizeKey (key event) in
  if negb (String.eqb eventKey (parsed_key p)) then false
  else
  let hasCtrl := Bool.eqb (JsSet.has (modifiers p) "ctrl") (ctrlKey event) in
  let hasShift := Bool.eqb (JsSet.has (modifiers p) "shift") (shiftKey event) in
  let hasAlt := Bool.eqb (JsSet.has (modifiers p) "alt") (altKey event) in
  let hasMeta := Bool.eqb (JsSet.has (modifiers p) "meta") (metaKey event) in
  hasCtrl && hasShift && hasAlt && hasMeta.

(** The loop of [detectConflicts].  [seenKeys] is the [Map] from normalized
    combination to shortcut id; the test [if (existing)] is JavaScript
    truthiness of [string | undefined]: it fails on [undefined] and on the
    empty string. *)
Definition isTruthy (existing : option string) : bool :=
  match existing with
  | Some e => truthy e
  | None => false
  end.

Definition normalizedKeys (navigator : option string) (shortcut : ShortcutConfig)
  : string :=
  toLowerCase (resolvePlatformModifier navigator (keys shortcut)).

Fixpoint detectLoop (navigator : option string) (seenKeys : gmap string string)
    (conflicts : list Conflict) (shortcuts : list ShortcutConfig)
  : list Conflict :=
  match shortcuts with
  | [] => conflicts
  | shortcut :: rest =>
      let nk := normalizedKeys navigator shortcut in
      let existing := seenKeys !! nk in
      if isTruthy existing
      then detectLoop navigator seenKeys
             (conflicts ++ [mkConflict (default EmptyString existing) (id shortcut) nk])
             rest
      else detectLoop navigator (<[nk := id shortcut]> seenKeys) conflicts rest
  end.

Definition detectConflicts (navigator : option string)
    (shortcuts : list ShortcutConfig) : list Conflict :=
  detectLoop navigator ∅ [] shortcuts.

End Utils.

(** ** [src/emitter.ts] *)

(** A listener is a function object; it is named by a number, and Set
    membership compares these names as JavaScript compares references. *)
Definition Listener := nat.

Module EventEmitter.
Section Ops.
Context {T : Type}.

Record t := mk { listeners : list Listener }.

Definition create : t := {| listeners := [] |}.

(** [subscribe] returns the new emitter and the unsubscribe closure. *)
Definition unsubscribe (listener : Listener) (e : t) : t :=
  {| listeners := JsSet.delete listener (listeners e) |}.

Definition subscribe (listener : Listener) (e : t) : t * (t → t) :=
  ({| listeners := JsSet.add listener (listeners e) |}, unsubscribe listener).

(** [emit] returns the calls it makes, in order. *)
Definition emit (value : T) (e : t) : list (Listener * T) :=
  map (λ l, (l, value)) (listeners e).

Definition size (e : t) : nat := length (listeners e).

Definition clear (e : t) : t := {| listeners := [] |}.
End Ops.
Arguments t : clear implicits.
End EventEmitter.

Module Store.
Section Ops.
Context {T : Type}.

Record t := mk { value : T; listeners : list Listener }.

Definition createStore (initialValue : T) : t :=
  {| value := initialValue; listeners := [] |}.

Definition get (s : t) : T := value s.

Definition notify (s : t) : list (Listener * T) :=
  map (λ l, (l, value s)) (listeners s).

Definition set (newValue : T) (s : t) : t * list (Listener * T) :=
  let s' := {| value := newValue; listeners := listeners s |} in
  (s', notify s').

Definition update (updater : T → T) (s : t) : t * list (Listener * T) :=
  let s' := {| value := updater (value s); listeners := listeners s |} in
  (s', notify s').

(** The closure returned by [subscribe]. *)
Definition unsubscribe (listener : Listener) (s : t) : t :=
  {| value := value s; listeners := JsSet.delete listener (listeners s) |}.

(** [subscribe] returns the new store, the calls made before it returns,
    and the unsubscribe closure.  [immediate] defaults to [true]. *)
Definition subscribe (listener : Listener) (immediate : bool) (s : t)
  : t * list (Listener * T) * (t → t) :=
  let s' := {| value := value s;
               listeners := JsSet.add listener (listeners s) |} in
  (s', if immediate then [(listener, value s')] else [], unsubscribe listener).

Definition subscriberCount (s : t) : nat := length (listeners s).
End Ops.
Arguments t : clear implicits.
End Store.

(** ** [src/manager.ts] *)

Definition Callback := nat.

(** The value of the [shortcuts] store: a [Map<string, ShortcutConfig>]. *)
Definition Table := list (string * ShortcutConfig).

(** What a manager operation does to the outside world, in order: calls of
    store listeners, of trigger listeners and of per-id subscribers, the two
    calls on the keyboard event, and console output. *)
Inductive Effect :=
| ShortcutsListener (call : Listener * Table)
| LastTriggeredListener (call : Listener * option ShortcutEvent)
| PressedKeysListener (call : Listener * list string)
| PreventDefault (event : KeyboardEvent)
| StopPropagation (event : KeyboardEvent)
| TriggerListener (call : Listener * ShortcutEvent)
| SubscriberCalled (callback : Callback) (event : ShortcutEvent)
| ConsoleLog (message : string)
| ConsoleWarn (message : string) (conflicts : list Conflict).

Record ShortcutManagerOptions := mkOptions {
  opt_shortcuts : option (list ShortcutConfig);
  opt_scope : option string;
  opt_debug : option bool
}.

Record ShortcutManager := mkManager {
  shortcuts : Store.t Table;
  lastTriggeredShortcut : Store.t (option ShortcutEvent);
  pressedKeys : Store.t (list string);
  triggerEmitter : EventEmitter.t;
  subscribers : gmap string (list Callback);
  isInitialized : bool;
  currentScope : string;
  debug : bool
}.

(** Modifier keys that should not be auto-cleared *)
Definition MODIFIER_KEYS : list string :=
  JsSet.from ["meta"; "control"; "alt"; "shift"].

Module Manager.
Import JsString Utils.

(** A method of the manager: it changes the manager and emits effects. *)
Definition Action := ShortcutManager → ShortcutManager * list Effect.

Definition skip : Action := λ m, (m, []).

Definition andThen (a b : Action) : Action :=
  λ m, let '(m1, t1) := a m in
       let '(m2, t2) := b m1 in
       (m2, t1 ++ t2).

Declare Scope action_scope.
Notation "a ;; b" := (andThen a b)
  (at level 100, b at level 200, right associativity) : action_scope.
Local Open Scope action_scope.

Definition modify (f : ShortcutManager → ShortcutManager) : Action :=
  λ m, (f m, []).

Definition perform (t : list Effect) : Action := λ m, (m, t).

Definition when (b : bool) (a : Action) : Action := if b then a else skip.

Definition with_shortcuts (s : Store.t Table) (m : ShortcutManager) :=
  mkManager s (lastTriggeredShortcut m) (pressedKeys m) (triggerEmitter m)
    (subscribers m) (isInitialized m) (currentScope m) (debug m).

Definition with_lastTriggeredShortcut (s : Store.t (option ShortcutEvent))
    (m : ShortcutManager) :=
  mkManager (shortcuts m) s (pressedKeys m) (triggerEmitter m)
    (subscribers m) (isInitialized m) (currentScope m) (debug m).

Definition with_pressedKeys (s : Store.t (list string)) (m : ShortcutManager) :=
  mkManager (shortcuts m) (lastTriggeredShortcut m) s (triggerEmitter m)
    (subscribers m) (isInitialized m) (currentScope m) (debug m).

Definition with_triggerEmitter (e : EventEmitter.t) (m : ShortcutManager) :=
  mkManager (shortcuts m) (lastTriggeredShortcut m) (pressedKeys m) e
    (subscribers m) (isInitialized m) (currentScope m) (debug m).

Definition with_subscribers (s : gmap string (list Callback))
    (m : ShortcutManager) :=
  mkManager (shortcuts m) (lastTriggeredShortcut m) (pressedKeys m)
    (triggerEmitter m) s (isInitialized m) (currentScope m) (debug m).

Definition with_isInitialized (b : bool) (m : ShortcutManager) :=
  mkManager (shortcuts m) (lastTriggeredShortcut m) (pressedKeys m)
    (triggerEmitter m) (subscribers m) b (currentScope m) (debug m).

Definition with_currentScope (s : string) (m : ShortcutManager) :=
  mkManager (shortcuts m) (lastTriggeredShortcut m) (pressedKeys m)
    (triggerEmitter m) (subscribers m) (isInitialized m) s (debug m).

(** [this.shortcuts.update(f)], [this.pressedKeys.update(f)] and the like. *)
Definition shortcuts_update (f : Table → Table) : Action :=
  λ m, let '(s, calls) := Store.update f (shortcuts m) in
       (with_shortcuts s m, map ShortcutsListener calls).

Definition shortcuts_set (v : Table) : Action :=
  λ m, let '(s, calls) := Store.set v (shortcuts m) in
       (with_shortcuts s m, map ShortcutsListener calls).

Definition pressedKeys_update (f : list string → list string) : Action :=
  λ m, let '(s, calls) := Store.update f (pressedKeys m) in
       (with_pressedKeys s m, map PressedKeysListener calls).

Definition pressedKeys_set (v : list string) : Action :=
  λ m, let '(s, calls) := Store.set v (pressedKeys m) in
       (with_pressedKeys s m, map PressedKeysListener calls).

Definition lastTriggeredShortcut_set (v : option ShortcutEvent) : Action :=
  λ m, let '(s, calls) := Store.set v (lastTriggeredShortcut m) in
       (with_lastTriggeredShortcut s m, map LastTriggeredListener calls).

Definition triggerEmitter_emit (v : ShortcutEvent) : Action :=
  λ m, (m, map TriggerListener (EventEmitter.emit v (triggerEmitter m))).

Definition log (message : string) : Action :=
  λ m, (m, if debug m then [ConsoleLog ("[Modkey] " +:+ message)] else []).

Section Host.
(** The host environment: [navigator.platform] when [navigator] exists,
    and whether [window] exists. *)
Variable navigator : option string.
Variable hasWindow : bool.

Definition checkConflicts : Action :=
  λ m, let currentShortcuts := JsMap.values (Store.get (shortcuts m)) in
       let conflicts := detectConflicts navigator currentShortcuts in
       (m, if (0 <? length conflicts)%nat
           then [ConsoleWarn "[Modkey] Detected shortcut conflicts:" conflicts]
           else []).

Definition loadShortcuts (configs : list ShortcutConfig) : Action :=
  let shortcutMap := JsMap.from (map (λ c, (id c, c)) configs) in
  shortcuts_set shortcutMap ;; checkConflicts.

(** [new ShortcutManager(options)] *)
Definition create (options : ShortcutManagerOptions)
  : ShortcutManager * list Effect :=
  let initialShortcuts := default [] (opt_shortcuts options) in
  let m := {| shortcuts := Store.createStore [];
              lastTriggeredShortcut := Store.createStore None;
              pressedKeys := Store.createStore [];
              triggerEmitter := EventEmitter.create;
              subscribers := ∅;
              isInitialized := false;
              currentScope := default "global" (opt_scope options);
              debug := default false (opt_debug options) |} in
  if (0 <? length initialShortcuts)%nat then loadShortcuts initialShortcuts m
  else (m, []).

Definition init : Action :=
  λ m, if isInitialized m then (m, [])
       else if negb hasWindow then (m, [])
       else (modify (with_isInitialized true) ;; log "Modkey initialized") m.
Definition destroy : Action :=
  λ m, if negb (isInitialized m) then (m, [])
       else if negb hasWindow then (m, [])
       else (modify (with_isInitialized false) ;; log "Modkey destroyed") m.

(** Clear all non-modifier keys from pressedKeys *)
Definition clearNonModifierKeys : Action :=
  pressedKeys_update (λ keys,
    foldl (λ newKeys key,
             if JsSet.has MODIFIER_KEYS key then JsSet.add key newKeys
             else newKeys)
          [] keys).

Definition notifySubscribers (id : string) (event : ShortcutEvent) : Action :=
  λ m, match subscribers m !! id with
       | Some callbacks => (m, map (λ cb, SubscriberCalled cb event) callbacks)
       | None => (m, [])
       end.

(** [config.enabled === false] *)
Definition isDisabled (config : ShortcutConfig) : bool :=
  match enabled config with
  | Some false => true
  | _ => false
  end.

(** [config.scope && config.scope !== this.currentScope &&
    config.scope !== 'global'] *)
Definition scopeExcludes (config : ShortcutConfig) (current : string) : bool :=
  match scope config with
  | Some s => truthy s && negb (String.eqb s current)
              && negb (String.eqb s "global")
  | None => false
  end.

(** [config.preventDefault !== false] *)
Definition preventsDefault (config : ShortcutConfig) : bool :=
  match preventDefault config with
  | Some false => false
  | _ => true
  end.

(** The body of the [if (matchesKeyCombination(...))] branch, up to the
    [break].  [now] is the value of [Date.now()]. *)
Definition trigger (now : Z) (event : KeyboardEvent) (id : string)
    (config : ShortcutConfig) : Action :=
  let shortcutEvent :=
    {| ev_id := id; timestamp := now; originalEvent := event |} in
  when (preventsDefault config)
       (perform [PreventDefault event; StopPropagation event]) ;;
  lastTriggeredShortcut_set (Some shortcutEvent) ;;
  triggerEmitter_emit shortcutEvent ;;
  notifySubscribers id shortcutEvent ;;
  clearNonModifierKeys ;;
  log ("Shortcut triggered: " +:+ id).

(** The [for (const [id, config] of currentShortcuts)] loop: [continue]
    goes on with the remaining entries, [break] returns. *)
Fixpoint scanShortcuts (now : Z) (event : KeyboardEvent) (entries : Table)
  : Action :=
  match entries with
  | [] => skip
  | (id, config) :: rest =>
      λ m,
        if isDisabled config then scanShortcuts now event rest m
        else if scopeExcludes config (currentScope m)
        then scanShortcuts now event rest m
        else if matchesKeyCombination navigator event (keys config)
        then trigger now event id config m
        else scanShortcuts now event rest m
  end.

Definition handleKeyDown (now : Z) (event : KeyboardEvent) : Action :=
  pressedKeys_update (λ keys, JsSet.add (toLowerCase (key event)) keys) ;;
  (λ m, let currentShortcuts := Store.get (shortcuts m) in
        scanShortcuts now event currentShortcuts m).

Definition handleKeyUp (event : KeyboardEvent) : Action :=
  pressedKeys_update (λ keys, JsSet.delete (toLowerCase (key event)) keys).

Definition handleBlur : Action := pressedKeys_set [].

(** The window's dispatch: the handlers are bound between [init] and
    [destroy]. *)
Definition keydown (now : Z) (event : KeyboardEvent) : Action :=
  λ m, if isInitialized m then handleKeyDown now event m else (m, []).

Definition keyup (event : KeyboardEvent) : Action :=
  λ m, if isInitialized m then handleKeyUp event m else (m, []).

Definition blur : Action :=
  λ m, if isInitialized m then handleBlur m else (m, []).

Definition subscribe (id : string) (callback : Callback) : Action :=
  modify (λ m,
    let subs := if bool_decide (is_Some (subscribers m !! id))
                then subscribers m
                else <[id := []]> (subscribers m) in
    with_subscribers (alter (JsSet.add callback) id subs) m).

Definition unsubscribe (id : string) (callback : Callback) : Action :=
  modify (λ m,
    match subscribers m !! id with
    | Some callbacks =>
        let callbacks' := JsSet.delete callback callbacks in
        if (length callbacks' =? 0)%nat
        then with_subscribers (delete id (subscribers m)) m
        else with_subscribers (<[id := callbacks']> (subscribers m)) m
    | None => m
    end).

Definition onTrigger (callback : Listener) : Action :=
  modify (λ m,
    with_triggerEmitter (EventEmitter.subscribe callback (triggerEmitter m)).1 m).

Definition registerShortcut (config : ShortcutConfig) : Action :=
  shortcuts_update (λ map, JsMap.set (id config) config map) ;;
  checkConflicts ;;
  log ("Shortcut registered: " +:+ id config).

Definition registerShortcuts (configs : list ShortcutConfig) : Action :=
  shortcuts_update (λ map,
    foldl (λ newMap config, JsMap.set (id config) config newMap) map configs) ;;
  checkConflicts ;;
  log (NilEmpty.string_of_uint (Nat.to_uint (length configs))
       +:+ " shortcuts registered").

Definition unregisterShortcut (id : string) : Action :=
  shortcuts_update (λ map, JsMap.delete id map) ;;
  log ("Shortcut unregistered: " +:+ id).

Definition with_enabled (b : bool) (c : ShortcutConfig) : ShortcutConfig :=
  mkShortcutConfig (id c) (name c) (description c) (keys c)
    (preventDefault c) (Some b) (scope c).

Definition enableShortcut (id : string) : Action :=
  shortcuts_update (λ map,
    match JsMap.get id map with
    | Some shortcut => JsMap.set id (with_enabled true shortcut) map
    | None => map
    end).

Definition disableShortcut (id : string) : Action :=
  shortcuts_update (λ map,
    match JsMap.get id map with
    | Some shortcut => JsMap.set id (with_enabled false shortcut) map
    | None => map
    end).

Definition getShortcut (id : string) (m : ShortcutManager)
  : option ShortcutConfig :=
  JsMap.get id (Store.get (shortcuts m)).

Definition getAllShortcuts (m : ShortcutManager) : list ShortcutConfig :=
  JsMap.values (Store.get (shortcuts m)).

Definition getActiveShortcuts (m : ShortcutManager) : list ShortcutConfig :=
  filter (λ s, isDisabled s = false) (getAllShortcuts m).

Definition setScope (scope : string) : Action :=
  modify (with_currentScope scope) ;; log ("Scope changed to: " +:+ scope).

Definition getScope (m : ShortcutManager) : string := currentScope m.
End Host.
End Manager.

(** * Properties *)

Import JsString Utils Manager.
Local Open Scope action_scope.

(** ** Specification-side definitions

    These follow the specification's wording; the theorems below compare
    them with the definitions taken from the code. *)

(** A definition that the key-down scan accepts: enabled, scope-eligible
    and matched. *)
Definition scopeEligible (config : ShortcutConfig) (current : string) : bool :=
  negb (scopeExcludes config current).

Definition accepts (navigator : option string) (current : string)
    (event : KeyboardEvent) (entry : string * ShortcutConfig) : bool :=
  negb (isDisabled entry.2) && scopeEligible entry.2 current
  && matchesKeyCombination navigator event (keys entry.2).

(** The per-id subscriber calls and the trigger-listener calls of a trace. *)
Definition subscriberCalls (t : list Effect) : list (Callback * ShortcutEvent) :=
  omap (λ e, match e with SubscriberCalled cb ev => Some (cb, ev) | _ => None end) t.

Definition triggerCalls (t : list Effect) : list (Listener * ShortcutEvent) :=
  omap (λ e, match e with TriggerListener c => Some c | _ => None end) t.

(** Step 1 of the key-down algorithm: the event's key joins the pressed
    keys. *)
Definition keyAdded (event : KeyboardEvent) : Action :=
  pressedKeys_update (λ keys, JsSet.add (toLowerCase (key event)) keys).

(** The conflict detector in the specification's words: each definition
    whose normalized combination already occurs among the earlier ones
    yields one conflict, against the first earlier definition with that
    combination. *)
Fixpoint firstSeenConflicts (navigator : option string)
    (earlier shortcuts : list ShortcutConfig) : list Conflict :=
  match shortcuts with
  | [] => []
  | s :: rest =>
      match find (λ e, String.eqb (normalizedKeys navigator e)
                         (normalizedKeys navigator s)) earlier with
      | Some first =>
          [mkConflict (id first) (id s) (normalizedKeys navigator s)]
      | None => []
      end ++ firstSeenConflicts navigator (earlier ++ [s]) rest
  end.

(** Platform resolution as C6 words it: the ['+']-separated tokens equal
    to [mod] become the modifier, every other token stays. *)
Definition substituteTokens (modifier : string) (tokens : list string)
  : list string :=
  map (λ t, if String.eqb t "mod" then modifier else t) tokens.

(** [\bmod\b] matches at the start of [s], where [prev] tells whether the
    code unit before [s] is a word character. *)
Definition afterMod (s : string) : string :=
  match s with
  | String _ (String _ (String _ r)) => r
  | _ => EmptyString
  end.

Definition modAt (prev : bool) (s : string) : bool :=
  negb prev && startsWith "mod" s && boundaryAfter (afterMod s).

(** [s] contains [mod] as a whole word: delimited on both sides by an end
    of the string or by a code unit outside [[A-Za-z0-9_]]. *)
Fixpoint hasModWord (prev : bool) (s : string) : bool :=
  match s with
  | EmptyString => false
  | String c r => modAt prev s || hasModWord (isWordChar c) r
  end.

(** Platform resolution in the words of the amended C6: the string is
    read from left to right; [word] collects the current maximal run of
    word characters ([[A-Za-z0-9_]]); when the run ends, it is emitted,
    as the modifier if it is exactly [mod] and unchanged otherwise; every
    other code unit is copied. *)
Definition substituteWord (modifier word : string) : string :=
  if String.eqb word "mod" then modifier else word.

Fixpoint resolveWords (modifier word s : string) : string :=
  match s with
  | EmptyString => substituteWord modifier word
  | String c r =>
      if isWordChar c
      then resolveWords modifier (word +:+ String c EmptyString) r
      else substituteWord modifier word
           +:+ String c (resolveWords modifier EmptyString r)
  end.

(** [s] consists of word characters only. *)
Fixpoint wordOnly (s : string) : bool :=
  match s with
  | EmptyString => true
  | String c r => isWordChar c && wordOnly r
  end.

(** The last code unit of [s] is a word character. *)
Fixpoint endsInWord (s : string) : bool :=
  match s with
  | EmptyString => false
  | String c r =>
      match r with
      | EmptyString => isWordChar c
      | String _ _ => endsInWord r
      end
  end.

(** A definition with default options, for the examples. *)
Definition shortcut (i ks : string) : ShortcutConfig :=
  mkShortcutConfig i i "" ks None None None.

(** The closure returned by [onTrigger]: it removes the listener from the
    trigger emitter. *)
Definition offTrigger (callback : Listener) : Action :=
  modify (λ m,
    with_triggerEmitter (EventEmitter.unsubscribe callback (triggerEmitter m)) m).

(** The public methods of a manager and the three window events, as data. *)
Inductive Call :=
| CallInit
| CallDestroy
| CallKeydown (now : Z) (event : KeyboardEvent)
| CallKeyup (event : KeyboardEvent)
| CallBlur
| CallSubscribe (i : string) (callback : Callback)
| CallUnsubscribe (i : string) (callback : Callback)
| CallOnTrigger (callback : Listener)
| CallOffTrigger (callback : Listener)
| CallRegisterShortcut (config : ShortcutConfig)
| CallRegisterShortcuts (configs : list ShortcutConfig)
| CallUnregisterShortcut (i : string)
| CallEnableShortcut (i : string)
| CallDisableShortcut (i : string)
| CallSetScope (scope : string).

Definition run (navigator : option string) (hasWindow : bool) (c : Call)
  : Action :=
  match c with
  | CallInit => init hasWindow
  | CallDestroy => destroy hasWindow
  | CallKeydown now event => keydown navigator now event
  | CallKeyup event => keyup event
  | CallBlur => blur
  | CallSubscribe i callback => subscribe i callback
  | CallUnsubscribe i callback => unsubscribe i callback
  | CallOnTrigger callback => onTrigger callback
  | CallOffTrigger callback => offTrigger callback
  | CallRegisterShortcut config => registerShortcut navigator config
  | CallRegisterShortcuts configs => registerShortcuts navigator configs
  | CallUnregisterShortcut i => unregisterShortcut i
  | CallEnableShortcut i => enableShortcut i
  | CallDisableShortcut i => disableShortcut i
  | CallSetScope scope => setScope scope
  end.

(** The manager after a sequence of calls, and everything the calls did. *)
Definition runAll (navigator : option string) (hasWindow : bool)
    (calls : list Call) : Action :=
  foldr (λ c rest, run navigator hasWindow c ;; rest) skip calls.

(** What the collections of a manager look like when they are only
    touched through its methods: the table has one entry per id, stored
    under the definition's own id; the pressed keys, the trigger listeners
    and each set of subscribers are sets; no empty set of subscribers is
    kept. *)
Definition consistent (m : ShortcutManager) : Prop :=
  NoDup (JsMap.keys (Store.get (shortcuts m)))
  ∧ Forall (λ e : string * ShortcutConfig, id e.2 = e.1) (Store.get (shortcuts m))
  ∧ NoDup (Store.get (pressedKeys m))
  ∧ NoDup (EventEmitter.listeners (triggerEmitter m))
  ∧ ∀ i callbacks, subscribers m !! i = Some callbacks →
      callbacks ≠ [] ∧ NoDup callbacks.

(** An action that, on a manager whose [debug] option is off, leaves the
    option off and prints no [console.log] line. *)
Definition silent (a : Action) : Prop :=
  ∀ m, debug m = false →
       debug (a m).1 = false ∧ ∀ message, ConsoleLog message ∉ (a m).2.

(** A keyboard event with another key. *)
Definition with_key (k : string) (event : KeyboardEvent) : KeyboardEvent :=
  mkKeyboardEvent k (ctrlKey event) (shiftKey event) (altKey event)
    (metaKey event).

(** The tokens that [parseKeyCombination] works on. *)
Definition tokens (navigator : option string) (ks : string) : list string :=
  map trim (split "+" (toLowerCase (resolvePlatformModifier navigator ks))).

(** ** The matcher *)

Lemma matchesKeyCombination_iff navigator event ks :
  matchesKeyCombination navigator event ks = true ↔
    normalizeKey (key event) = parsed_key (parseKeyCombination navigator ks)
    ∧ JsSet.has (modifiers (parseKeyCombination navigator ks)) "ctrl" = ctrlKey event
    ∧ JsSet.has (modifiers (parseKeyCombination navigator ks)) "shift" = shiftKey event
    ∧ JsSet.has (modifiers (parseKeyCombination navigator ks)) "alt" = altKey event
    ∧ JsSet.has (modifiers (parseKeyCombination navigator ks)) "meta" = metaKey event.
Proof.
  unfold matchesKeyCombination.
  destruct (String.eqb_spec (normalizeKey (key event))
              (parsed_key (parseKeyCombination navigator ks))) as [Hk|Hk]; simpl.
  - rewrite !andb_true_iff, !Bool.eqb_true_iff. tauto.
  - split; [discriminate | tauto].
Qed.

(** C1.  The matcher answers [true] exactly when the event's lower-cased
    key is the parsed literal key and, for each of ctrl, shift, alt and
    meta, membership in the parsed modifier set equals the event's flag.
    Hence an event asserting a modifier that the combination omits, or
    lacking one that it names, is never matched. *)
Theorem matchesKeyCombination_exact_modifiers navigator event ks :
  let p := parseKeyCombination navigator ks in
  (matchesKeyCombination navigator event ks = true ↔
     normalizeKey (key event) = parsed_key p
     ∧ JsSet.has (modifiers p) "ctrl" = ctrlKey event
     ∧ JsSet.has (modifiers p) "shift" = shiftKey event
     ∧ JsSet.has (modifiers p) "alt" = altKey event
     ∧ JsSet.has (modifiers p) "meta" = metaKey event)
  ∧ (JsSet.has (modifiers p) "ctrl" ≠ ctrlKey event
     ∨ JsSet.has (modifiers p) "shift" ≠ shiftKey event
     ∨ JsSet.has (modifiers p) "alt" ≠ altKey event
     ∨ JsSet.has (modifiers p) "meta" ≠ metaKey event →
     matchesKeyCombination navigator event ks = false).
Proof.
  intros p. split; [apply matchesKeyCombination_iff |].
  intros Hdiff. apply not_true_is_false. intros Hm.
  apply matchesKeyCombination_iff in Hm. fold p in Hm. tauto.
Qed.

(** The specification's example: [ctrl+s] does not match an event with
    ctrl and shift held, on any platform. *)
Lemma matchesKeyCombination_exact_modifiers_witness :
  let event := mkKeyboardEvent "s" true true false false in
  JsSet.has (modifiers (parseKeyCombination None "ctrl+s")) "shift"
    ≠ shiftKey event
  ∧ matchesKeyCombination None event "ctrl+s" = false.
Proof.
  intros event.
  assert (Hshift : JsSet.has (modifiers (parseKeyCombination None "ctrl+s"))
                     "shift" ≠ shiftKey event) by (vm_compute; discriminate).
  split; [exact Hshift |].
  apply (matchesKeyCombination_exact_modifiers None event "ctrl+s").
  right; left; exact Hshift.
Defined.

(** ** Scope eligibility *)

Lemma scopeExcludes_false_iff config current :
  scopeExcludes config current = false ↔
    match scope config with
    | None => True
    | Some s => s = "" ∨ s = "global" ∨ s = current
    end.
Proof.
  unfold scopeExcludes. destruct (scope config) as [s|]; [|tauto].
  destruct (String.eqb_spec s current) as [Hc|Hc];
    destruct (String.eqb_spec s "global") as [Hg|Hg];
    destruct s as [|a s']; simpl; split; try tauto; try discriminate;
    intros [H|[H|H]]; congruence.
Qed.

(** C5, as stated, fails: a definition whose scope is the empty string is
    neither unset nor ['global'], yet the guard [config.scope && ...] lets
    it through in every current scope. *)
Lemma scope_eligibility_counterexample :
  ¬ (∀ (config : ShortcutConfig) (current : string),
       match scope config with
       | None => scopeEligible config current = true
       | Some s =>
           if String.eqb s "global" then scopeEligible config current = true
           else scopeEligible config current = true ↔ s = current
       end).
Proof.
  intros H.
  specialize (H (mkShortcutConfig "a" "A" "" "ctrl+s" None None (Some ""))
                "editor").
  simpl in H. destruct H as [H _]. specialize (H eq_refl). discriminate.
Qed.

(** C5, amended.  A definition whose scope is unset, empty or ['global']
    is eligible in every current scope; a definition with any other scope
    is eligible if and only if its scope equals the current scope. *)
Theorem scope_eligibility config current :
  match scope config with
  | None => scopeEligible config current = true
  | Some s =>
      if String.eqb s "" || String.eqb s "global"
      then scopeEligible config current = true
      else scopeEligible config current = true ↔ s = current
  end.
Proof.
  unfold scopeEligible.
  pose proof (scopeExcludes_false_iff config current) as H.
  destruct (scope config) as [s|].
  - destruct (String.eqb_spec s "") as [He|He];
      destruct (String.eqb_spec s "global") as [Hg|Hg]; simpl;
      rewrite ?negb_true_iff, ?H; tauto.
  - rewrite negb_true_iff. tauto.
Qed.

(** ** Collections *)

Section JsSetFacts.
Context {A : Type} `{EqDecision A}.

Lemma JsSet_has_true (s : list A) x : JsSet.has s x = true ↔ x ∈ s.
Proof. unfold JsSet.has. apply bool_decide_eq_true. Qed.

Lemma JsSet_elem_of_add (s : list A) x y : y ∈ JsSet.add x s ↔ y = x ∨ y ∈ s.
Proof.
  unfold JsSet.add, JsSet.has. case_bool_decide as Hx.
  - split; [tauto | intros [->|]; assumption].
  - rewrite elem_of_app, list_elem_of_singleton. tauto.
Qed.

Lemma JsSet_elem_of_delete (s : list A) x y :
  y ∈ JsSet.delete x s ↔ y ≠ x ∧ y ∈ s.
Proof. unfold JsSet.delete. rewrite list_elem_of_filter. tauto. Qed.

Lemma JsSet_delete_idemp (s : list A) x :
  JsSet.delete x (JsSet.delete x s) = JsSet.delete x s.
Proof.
  unfold JsSet.delete. induction s as [|a s IH]; [reflexivity|].
  rewrite (filter_cons _ a s). case_decide as Ha.
  - rewrite filter_cons. rewrite decide_True by assumption. by rewrite IH.
  - exact IH.
Qed.

Lemma JsSet_add_NoDup (s : list A) x : NoDup s → NoDup (JsSet.add x s).
Proof.
  intros Hs. unfold JsSet.add, JsSet.has. case_bool_decide as Hx; [assumption|].
  apply NoDup_app. split_and!; [assumption | | apply NoDup_singleton].
  intros y Hy Hy'. apply list_elem_of_singleton in Hy'. congruence.
Qed.
End JsSetFacts.

Section JsMapFacts.
Context {V : Type}.
Implicit Types (m : list (string * V)) (k : string) (v : V).

Lemma JsMap_get_set_eq m k v : JsMap.get k (JsMap.set k v m) = Some v.
Proof.
  induction m as [|[k' v'] m IH]; simpl.
  - by rewrite String.eqb_refl.
  - destruct (String.eqb k' k) eqn:E; simpl; rewrite E; [reflexivity | exact IH].
Qed.

Lemma JsMap_get_set_ne m k k' v :
  k ≠ k' → JsMap.get k' (JsMap.set k v m) = JsMap.get k' m.
Proof.
  intros Hne. induction m as [|[k0 v0] m IH]; simpl.
  - destruct (String.eqb_spec k k'); [contradiction | reflexivity].
  - destruct (String.eqb_spec k0 k) as [->|Hk]; simpl.
    + destruct (String.eqb_spec k k'); [contradiction | reflexivity].
    + by rewrite IH.
Qed.

Lemma JsMap_get_None m k : JsMap.get k m = None ↔ k ∉ JsMap.keys m.
Proof.
  unfold JsMap.keys. induction m as [|[k0 v0] m IH]; simpl.
  - split; [intros _; apply not_elem_of_nil | reflexivity].
  - rewrite not_elem_of_cons.
    destruct (String.eqb_spec k0 k) as [->|Hk].
    + split; [discriminate | tauto].
    + rewrite IH. split; [intros; split; congruence | tauto].
Qed.

Lemma JsMap_keys_set m k v :
  JsMap.keys (JsMap.set k v m)
  = if decide (k ∈ JsMap.keys m) then JsMap.keys m else JsMap.keys m ++ [k].
Proof.
  unfold JsMap.keys. induction m as [|[k0 v0] m IH].
  - destruct (decide (k ∈ map fst [])) as [Hin|Hin]; [|reflexivity].
    by apply elem_of_nil in Hin.
  - cbn [JsMap.set].
    destruct (String.eqb_spec k0 k) as [->|Hk]; cbn [map fst].
    + destruct (decide (k ∈ k :: map fst m)) as [Hin|Hin]; [reflexivity|].
      exfalso. apply Hin, list_elem_of_here.
    + rewrite IH.
      destruct (decide (k ∈ map fst m)) as [Hin|Hin];
        destruct (decide (k ∈ k0 :: map fst m)) as [Hin'|Hin'];
        try reflexivity; exfalso.
      * apply Hin'. by apply list_elem_of_further.
      * apply elem_of_cons in Hin' as [?|?]; congruence.
Qed.

Lemma JsMap_set_NoDup m k v :
  NoDup (JsMap.keys m) → NoDup (JsMap.keys (JsMap.set k v m)).
Proof.
  intros Hm. rewrite JsMap_keys_set. case_decide as Hk; [assumption|].
  apply NoDup_app. split_and!; [assumption | | apply NoDup_singleton].
  intros y Hy Hy'. apply list_elem_of_singleton in Hy'. congruence.
Qed.

Lemma JsMap_delete_absent m k : JsMap.get k m = None → JsMap.delete k m = m.
Proof.
  induction m as [|[k0 v0] m IH]; simpl; [reflexivity|].
  destruct (String.eqb k0 k); [discriminate|].
  intros H. by rewrite IH.
Qed.
End JsMapFacts.

(** ** Sequencing of manager actions *)

Lemma andThen_state (a b : Action) m : ((a ;; b) m).1 = (b (a m).1).1.
Proof. unfold andThen. destruct (a m) as [m1 t1]. simpl. by destruct (b m1). Qed.

Lemma andThen_trace (a b : Action) m :
  ((a ;; b) m).2 = (a m).2 ++ (b (a m).1).2.
Proof. unfold andThen. destruct (a m) as [m1 t1]. simpl. by destruct (b m1). Qed.

Lemma log_state message m : (log message m).1 = m.
Proof. reflexivity. Qed.

Lemma checkConflicts_state navigator m : (checkConflicts navigator m).1 = m.
Proof. reflexivity. Qed.

Lemma shortcuts_update_value f m :
  Store.get (shortcuts (shortcuts_update f m).1) = f (Store.get (shortcuts m)).
Proof. reflexivity. Qed.

Lemma shortcuts_set_value v m :
  Store.get (shortcuts (shortcuts_set v m).1) = v.
Proof. reflexivity. Qed.

(** ** The reactive container *)

(** C8.  [subscribe(listener, true)] calls the listener exactly once, with
    the current value, before it returns; the listener is then registered.
    The returned handle, applied to any later state of the store, removes
    the listener and nothing else, and applying it again changes nothing. *)
Theorem Store_subscribe_immediate {T : Type} (s : Store.t T) (listener : Listener) :
  let '(s', calls, unsubscribe) := Store.subscribe listener true s in
  calls = [(listener, Store.get s)]
  ∧ Store.get s' = Store.get s
  ∧ listener ∈ Store.listeners s'
  ∧ ∀ later : Store.t T,
      (listener ∉ Store.listeners (unsubscribe later))
      ∧ (∀ l, l ≠ listener →
           (l ∈ Store.listeners (unsubscribe later) ↔ l ∈ Store.listeners later))
      ∧ Store.get (unsubscribe later) = Store.get later
      ∧ unsubscribe (unsubscribe later) = unsubscribe later.
Proof.
  simpl. split_and!; try reflexivity.
  - apply JsSet_elem_of_add. by left.
  - intros later. unfold Store.unsubscribe; simpl. split_and!.
    + rewrite JsSet_elem_of_delete. tauto.
    + intros l Hl. rewrite JsSet_elem_of_delete. tauto.
    + reflexivity.
    + by rewrite JsSet_delete_idemp.
Qed.

(** ** The shortcut table *)

(** C7.  When a definition with the given id is present, [enableShortcut]
    and [disableShortcut] store it again with its [enabled] field equal to
    [true], respectively [false], and every other field as it was, at the
    same place, and touch no other entry.
    When none is present, the table after [enableShortcut],
    [disableShortcut] and [unregisterShortcut] is the table before, and
    [getShortcut] answers [undefined]. *)
Theorem enable_disable_unregister_by_id m i :
  let table := Store.get (shortcuts m) in
  let enabled' := Store.get (shortcuts (enableShortcut i m).1) in
  let disabled' := Store.get (shortcuts (disableShortcut i m).1) in
  let removed' := Store.get (shortcuts (unregisterShortcut i m).1) in
  match getShortcut i m with
  | Some config =>
      let flagged b :=
        {| id := id config; name := name config;
           description := description config; keys := keys config;
           preventDefault := preventDefault config; enabled := Some b;
           scope := scope config |} in
      JsMap.get i enabled' = Some (flagged true)
      ∧ JsMap.get i disabled' = Some (flagged false)
      ∧ getShortcut i (enableShortcut i m).1 = Some (flagged true)
      ∧ getShortcut i (disableShortcut i m).1 = Some (flagged false)
      ∧ JsMap.keys enabled' = JsMap.keys table
      ∧ JsMap.keys disabled' = JsMap.keys table
      ∧ ∀ other, other ≠ i →
          JsMap.get other enabled' = JsMap.get other table
          ∧ JsMap.get other disabled' = JsMap.get other table
  | None =>
      enabled' = table ∧ disabled' = table ∧ removed' = table
      ∧ getShortcut i (enableShortcut i m).1 = None
      ∧ getShortcut i (disableShortcut i m).1 = None
      ∧ getShortcut i (unregisterShortcut i m).1 = None
  end.
Proof.
  intros table enabled' disabled' removed'.
  unfold getShortcut. fold table.
  subst enabled' disabled' removed'.
  unfold enableShortcut, disableShortcut, unregisterShortcut.
  rewrite andThen_state, log_state, !shortcuts_update_value. fold table.
  destruct (JsMap.get i table) as [config|] eqn:Hget.
  - assert (Hin : i ∈ JsMap.keys table).
    { destruct (decide (i ∈ JsMap.keys table)) as [?|Hn]; [assumption|].
      apply JsMap_get_None in Hn. congruence. }
    cbn zeta.
    rewrite !JsMap_get_set_eq, !JsMap_keys_set, !decide_True by assumption.
    split_and!; try reflexivity.
    intros other Hne. by rewrite !JsMap_get_set_ne.
  - assert (Hdel : JsMap.delete i table = table) by (by apply JsMap_delete_absent).
    unfold getShortcut.
    rewrite ?andThen_state, ?log_state, ?shortcuts_update_value. fold table.
    rewrite Hget, Hdel. by split_and!.
Qed.

Lemma find_app {A : Type} (f : A → bool) (l1 l2 : list A) :
  find f (l1 ++ l2)
  = match find f l1 with Some x => Some x | None => find f l2 end.
Proof.
  induction l1 as [|a l1 IH]; [reflexivity|].
  simpl. destruct (f a); [reflexivity | exact IH].
Qed.

Lemma foldl_set_get (configs : list ShortcutConfig) (table : Table) i :
  JsMap.get i (foldl (λ newMap config, JsMap.set (id config) config newMap)
                 table configs)
  = match find (λ c, String.eqb (id c) i) (reverse configs) with
    | Some c => Some c
    | None => JsMap.get i table
    end.
Proof.
  revert table. induction configs as [|c configs IH]; intros table.
  - reflexivity.
  - cbn [foldl]. rewrite IH, reverse_cons, find_app.
    destruct (find _ (reverse configs)) as [c'|]; [reflexivity|].
    cbn [find]. destruct (String.eqb_spec (id c) i) as [<-|Hne].
    + apply JsMap_get_set_eq.
    + by apply JsMap_get_set_ne.
Qed.

Lemma foldl_set_NoDup (configs : list ShortcutConfig) (table : Table) :
  NoDup (JsMap.keys table) →
  NoDup (JsMap.keys (foldl (λ newMap config, JsMap.set (id config) config newMap)
                       table configs)).
Proof.
  revert table. induction configs as [|c configs IH]; intros table Ht.
  - assumption.
  - cbn [foldl]. apply IH. by apply JsMap_set_NoDup.
Qed.

Lemma JsMap_from_configs (configs : list ShortcutConfig) :
  JsMap.from (map (λ c, (id c, c)) configs)
  = foldl (λ newMap config, JsMap.set (id config) config newMap) [] configs.
Proof.
  unfold JsMap.from. generalize (@nil (string * ShortcutConfig)).
  induction configs as [|c configs IH]; intros acc; [reflexivity|].
  cbn [map foldl]. apply IH.
Qed.

Lemma create_table navigator configs sc dbg :
  Store.get (shortcuts (create navigator (mkOptions (Some configs) sc dbg)).1)
  = JsMap.from (map (λ c, (id c, c)) configs).
Proof. destruct configs; reflexivity. Qed.

(** C10.  After [registerShortcuts(configs)] the entry stored under an id
    that occurs in [configs] is the last definition of [configs] with that
    id; ids that do not occur keep their entry; a table with one entry per
    id stays so.  The table built from the [shortcuts] option of the
    constructor ([loadShortcuts]) holds, for every id, the last definition
    with that id and nothing else, one entry per id. *)
Theorem registerShortcuts_last_definition_wins navigator m configs :
  let table := Store.get (shortcuts m) in
  let registered :=
    Store.get (shortcuts (registerShortcuts navigator configs m).1) in
  let loaded := Store.get (shortcuts (loadShortcuts navigator configs m).1) in
  let lastWith i := find (λ c, String.eqb (id c) i) (reverse configs) in
  (∀ i, JsMap.get i registered
        = match lastWith i with Some c => Some c | None => JsMap.get i table end)
  ∧ (NoDup (JsMap.keys table) → NoDup (JsMap.keys registered))
  ∧ (∀ i, JsMap.get i loaded = lastWith i)
  ∧ NoDup (JsMap.keys loaded)
  ∧ ∀ scope dbg,
      let constructed :=
        Store.get (shortcuts
          (create navigator (mkOptions (Some configs) scope dbg)).1) in
      (∀ i, JsMap.get i constructed = lastWith i)
      ∧ NoDup (JsMap.keys constructed).
Proof.
  intros table registered loaded lastWith.
  assert (Hreg : registered
    = foldl (λ newMap config, JsMap.set (id config) config newMap) table configs).
  { subst registered. unfold registerShortcuts.
    by rewrite !andThen_state, log_state, checkConflicts_state,
         shortcuts_update_value. }
  assert (Hload : loaded
    = foldl (λ newMap config, JsMap.set (id config) config newMap) [] configs).
  { subst loaded. unfold loadShortcuts.
    by rewrite andThen_state, checkConflicts_state, shortcuts_set_value,
         JsMap_from_configs. }
  assert (Hl1 : ∀ i, JsMap.get i loaded = lastWith i).
  { intros i. rewrite Hload, foldl_set_get. subst lastWith. simpl.
    by destruct (find _ (reverse configs)). }
  assert (Hl2 : NoDup (JsMap.keys loaded)).
  { rewrite Hload. apply foldl_set_NoDup. constructor. }
  split_and!; try assumption.
  - intros i. rewrite Hreg. apply foldl_set_get.
  - rewrite Hreg. apply foldl_set_NoDup.
  - intros sc dbg constructed. subst constructed.
    rewrite create_table, JsMap_from_configs, <- Hload. split; assumption.
Qed.

Lemma registerShortcuts_last_definition_wins_witness :
  let m := (create None (mkOptions (Some [shortcut "a" "mod+s"]) None None)).1 in
  let configs :=
    [shortcut "a" "ctrl+x"; shortcut "b" "ctrl+y"; shortcut "a" "ctrl+z"] in
  let registered := Store.get (shortcuts (registerShortcuts None configs m).1) in
  NoDup (JsMap.keys (Store.get (shortcuts m)))
  ∧ JsMap.get "a" registered = Some (shortcut "a" "ctrl+z")
  ∧ NoDup (JsMap.keys registered).
Proof.
  intros m configs registered.
  assert (Hm : NoDup (JsMap.keys (Store.get (shortcuts m)))).
  { apply (bool_decide_unpack _). vm_compute. exact I. }
  pose proof (registerShortcuts_last_definition_wins None m configs)
    as (Hget & Hnodup & _).
  split_and!; [exact Hm | exact (Hget "a") | exact (Hnodup Hm)].
Defined.

(** ** Key-down dispatch *)

Lemma find_Some_split {A : Type} (f : A → bool) (l : list A) x :
  find f l = Some x →
  ∃ l1 l2, l = l1 ++ x :: l2 ∧ Forall (λ y, f y = false) l1 ∧ f x = true.
Proof.
  induction l as [|a l IH]; [discriminate|].
  simpl. destruct (f a) eqn:Ha.
  - intros [= ->]. exists [], l. by split_and!.
  - intros Hf. destruct (IH Hf) as (l1 & l2 & -> & Hl1 & Hx).
    exists (a :: l1), l2. split_and!; [reflexivity | by constructor | assumption].
Qed.

Lemma find_None_Forall {A : Type} (f : A → bool) (l : list A) :
  find f l = None → Forall (λ y, f y = false) l.
Proof.
  induction l as [|a l IH]; [constructor|].
  simpl. destruct (f a) eqn:Ha; [discriminate|]. intros Hf. by constructor; auto.
Qed.

(** The scan is a search for the first accepted entry. *)
Lemma scanShortcuts_find navigator now event entries m :
  scanShortcuts navigator now event entries m
  = match find (accepts navigator (currentScope m) event) entries with
    | Some (i, config) => trigger now event i config m
    | None => (m, [])
    end.
Proof.
  induction entries as [|[i config] rest IH]; [reflexivity|].
  cbn [scanShortcuts find]. unfold accepts at 1, scopeEligible. cbn [snd].
  destruct (isDisabled config); [exact IH|].
  destruct (scopeExcludes config (currentScope m)); [exact IH|].
  destruct (matchesKeyCombination navigator event (keys config));
    [reflexivity | exact IH].
Qed.

Lemma subscriberCalls_app t1 t2 :
  subscriberCalls (t1 ++ t2) = subscriberCalls t1 ++ subscriberCalls t2.
Proof. apply omap_app. Qed.

Lemma triggerCalls_app t1 t2 :
  triggerCalls (t1 ++ t2) = triggerCalls t1 ++ triggerCalls t2.
Proof. apply omap_app. Qed.

Lemma omap_map_None {A B C : Type} (f : B → option C) (g : A → B) (l : list A) :
  (∀ a, f (g a) = None) → omap f (map g l) = [].
Proof.
  intros H. induction l as [|a l IH]; [reflexivity|].
  simpl. rewrite H. exact IH.
Qed.

Lemma omap_map_Some {A B C : Type} (f : B → option C) (g : A → B) (h : A → C)
    (l : list A) :
  (∀ a, f (g a) = Some (h a)) → omap f (map g l) = map h l.
Proof.
  intros H. induction l as [|a l IH]; [reflexivity|].
  simpl. rewrite H. f_equal. exact IH.
Qed.

Lemma notifySubscribers_state i fired m : (notifySubscribers i fired m).1 = m.
Proof. unfold notifySubscribers. by destruct (subscribers m !! i). Qed.

Lemma notifySubscribers_trace i fired m :
  (notifySubscribers i fired m).2
  = map (λ cb, SubscriberCalled cb fired) (default [] (subscribers m !! i)).
Proof. unfold notifySubscribers. by destruct (subscribers m !! i). Qed.

Lemma when_perform_state b t m : (when b (perform t) m).1 = m.
Proof. by destruct b. Qed.

Lemma when_perform_trace b t m :
  (when b (perform t) m).2 = if b then t else [].
Proof. by destruct b. Qed.

(** The trace of [trigger], piece by piece. *)
Lemma trigger_trace now event i config m :
  let fired := mkShortcutEvent i now event in
  (trigger now event i config m).2
  = (if preventsDefault config
     then [PreventDefault event; StopPropagation event] else [])
    ++ map LastTriggeredListener
         (map (λ l, (l, Some fired)) (Store.listeners (lastTriggeredShortcut m)))
    ++ map TriggerListener
         (map (λ l, (l, fired)) (EventEmitter.listeners (triggerEmitter m)))
    ++ map (λ cb, SubscriberCalled cb fired) (default [] (subscribers m !! i))
    ++ (clearNonModifierKeys m).2
    ++ (if debug m then [ConsoleLog ("[Modkey] " +:+ "Shortcut triggered: " +:+ i)]
        else []).
Proof.
  intros fired. unfold trigger. fold fired.
  rewrite !andThen_trace, ?andThen_state.
  rewrite ?notifySubscribers_state, !notifySubscribers_trace.
  rewrite ?when_perform_state, !when_perform_trace.
  reflexivity.
Qed.

(** What [trigger] leaves behind and whom it calls. *)
Lemma trigger_effects now event i config m :
  let fired := mkShortcutEvent i now event in
  let r := trigger now event i config m in
  Store.get (lastTriggeredShortcut r.1) = Some fired
  ∧ subscriberCalls r.2
    = map (λ cb, (cb, fired)) (default [] (subscribers m !! i))
  ∧ triggerCalls r.2
    = map (λ l, (l, fired)) (EventEmitter.listeners (triggerEmitter m))
  ∧ pressedKeys r.1 = pressedKeys (clearNonModifierKeys m).1.
Proof.
  intros fired r. subst r. split_and!.
  - unfold trigger.
    by rewrite !andThen_state, !log_state, !notifySubscribers_state,
         !when_perform_state.
  - rewrite trigger_trace. fold fired.
    rewrite !subscriberCalls_app. unfold subscriberCalls.
    rewrite (omap_map_None _ LastTriggeredListener) by reflexivity.
    rewrite (omap_map_None _ TriggerListener) by reflexivity.
    rewrite (omap_map_Some _ _ (λ cb, (cb, fired))) by reflexivity.
    unfold clearNonModifierKeys, pressedKeys_update. cbn [snd Store.update].
    rewrite (omap_map_None _ PressedKeysListener) by reflexivity.
    destruct (preventsDefault config); destruct (debug m);
      cbn [omap app list_omap]; by rewrite ?app_nil_r.
  - rewrite trigger_trace. fold fired.
    rewrite !triggerCalls_app. unfold triggerCalls.
    rewrite (omap_map_None _ LastTriggeredListener) by reflexivity.
    rewrite (omap_map_Some _ TriggerListener (λ c, c)) by reflexivity.
    rewrite (omap_map_None _ (λ cb, SubscriberCalled cb fired)) by reflexivity.
    unfold clearNonModifierKeys, pressedKeys_update. cbn [snd Store.update].
    rewrite (omap_map_None _ PressedKeysListener) by reflexivity.
    rewrite map_id.
    destruct (preventsDefault config); destruct (debug m);
      cbn [omap app list_omap]; by rewrite ?app_nil_r.
  - unfold trigger.
    by rewrite !andThen_state, !log_state, !notifySubscribers_state,
         !when_perform_state.
Qed.

Lemma handleKeyDown_unfold navigator now event m :
  handleKeyDown navigator now event m
  = let m1 := (keyAdded event m).1 in
    let t1 := (keyAdded event m).2 in
    match find (accepts navigator (currentScope m) event)
            (Store.get (shortcuts m)) with
    | Some (i, config) =>
        ((trigger now event i config m1).1,
         t1 ++ (trigger now event i config m1).2)
    | None => (m1, t1 ++ [])
    end.
Proof.
  unfold handleKeyDown. fold (keyAdded event).
  apply injective_projections; cbn zeta.
  - rewrite andThen_state, scanShortcuts_find.
    change (currentScope (keyAdded event m).1) with (currentScope m).
    change (shortcuts (keyAdded event m).1) with (shortcuts m).
    by destruct (find _ _) as [[i config]|].
  - rewrite andThen_trace, scanShortcuts_find.
    change (currentScope (keyAdded event m).1) with (currentScope m).
    change (shortcuts (keyAdded event m).1) with (shortcuts m).
    by destruct (find _ _) as [[i config]|].
Qed.

(** C3.  A key-down fires the first entry of the table, in its order,
    that is enabled, scope-eligible and matched, and no other: the entries
    before it are not accepted, the trigger event carries its id, the
    per-id subscribers called are exactly those of that id, each once and
    with that event, and each trigger listener is called once with it.
    When no entry is accepted nothing fires. *)
Theorem handleKeyDown_first_match_wins navigator now event m :
  let table := Store.get (shortcuts m) in
  let result := handleKeyDown navigator now event m in
  match find (accepts navigator (currentScope m) event) table with
  | Some (i, config) =>
      let fired := mkShortcutEvent i now event in
      (∃ before after,
          table = before ++ (i, config) :: after
          ∧ Forall (λ e, accepts navigator (currentScope m) event e = false)
              before
          ∧ accepts navigator (currentScope m) event (i, config) = true)
      ∧ Store.get (lastTriggeredShortcut result.1) = Some fired
      ∧ subscriberCalls result.2
        = map (λ cb, (cb, fired)) (default [] (subscribers m !! i))
      ∧ triggerCalls result.2
        = map (λ l, (l, fired)) (EventEmitter.listeners (triggerEmitter m))
  | None =>
      Forall (λ e, accepts navigator (currentScope m) event e = false) table
      ∧ lastTriggeredShortcut result.1 = lastTriggeredShortcut m
      ∧ subscriberCalls result.2 = []
      ∧ triggerCalls result.2 = []
  end.
Proof.
  intros table result. subst result. rewrite handleKeyDown_unfold. cbn zeta.
  fold table.
  assert (Ht1s : subscriberCalls (keyAdded event m).2 = []).
  { unfold keyAdded, pressedKeys_update, subscriberCalls. cbn [snd Store.update].
    by rewrite (omap_map_None _ PressedKeysListener). }
  assert (Ht1t : triggerCalls (keyAdded event m).2 = []).
  { unfold keyAdded, pressedKeys_update, triggerCalls. cbn [snd Store.update].
    by rewrite (omap_map_None _ PressedKeysListener). }
  destruct (find _ table) as [[i config]|] eqn:Hfind.
  - pose proof (trigger_effects now event i config (keyAdded event m).1)
      as (Hlast & Hsubs & Htrig & _).
    cbn [fst snd]. rewrite subscriberCalls_app, triggerCalls_app.
    rewrite Ht1s, Ht1t, Hlast, Hsubs, Htrig.
    split_and!; try reflexivity.
    by apply find_Some_split.
  - cbn [fst snd]. rewrite subscriberCalls_app, triggerCalls_app, Ht1s, Ht1t.
    split_and!; try reflexivity.
    by apply find_None_Forall.
Qed.

(** Two enabled, unscoped definitions bound to the same combination: the
    key-down calls the subscriber of the first and not that of the second. *)
Example first_of_two_identical_combinations :
  let m := ((subscribe "first" 1 ;; subscribe "second" 2)
              (create None (mkOptions
                 (Some [shortcut "first" "mod+s"; shortcut "second" "mod+s"])
                 None None)).1).1 in
  let event := mkKeyboardEvent "s" true false false false in
  subscriberCalls (handleKeyDown None 1000 event m).2
  = [(1, mkShortcutEvent "first" 1000 event)].
Proof. vm_compute. reflexivity. Qed.

(** Scope gating at dispatch: a definition scoped to [editor] does not
    fire in scope [modal]; definitions without scope, with scope [global]
    and with the empty scope fire there. *)
Example scope_gating_at_dispatch :
  let scoped sc := mkShortcutConfig "x" "x" "" "ctrl+s" None None sc in
  let calls sc :=
    let m := (subscribe "x" 1
                (create None (mkOptions (Some [scoped sc]) (Some "modal") None)).1).1 in
    length (subscriberCalls
              (handleKeyDown None 5 (mkKeyboardEvent "s" true false false false) m).2) in
  calls (Some "editor") = 0
  ∧ calls None = 1 ∧ calls (Some "global") = 1 ∧ calls (Some "modal") = 1
  ∧ calls (Some "") = 1.
Proof. vm_compute. by split_and!. Qed.

(** ** Stuck keys *)

Lemma MODIFIER_KEYS_eq : MODIFIER_KEYS = ["meta"; "control"; "alt"; "shift"].
Proof. vm_compute. reflexivity. Qed.

Lemma elem_of_keep_modifiers (keys acc : list string) k :
  k ∈ foldl (λ newKeys key,
               if JsSet.has MODIFIER_KEYS key then JsSet.add key newKeys
               else newKeys) acc keys
  ↔ k ∈ acc ∨ (k ∈ keys ∧ k ∈ MODIFIER_KEYS).
Proof.
  revert acc. induction keys as [|a keys IH]; intros acc.
  - cbn [foldl]. split; [by left | intros [?|[H _]]; [assumption|]].
    by apply elem_of_nil in H.
  - cbn [foldl]. rewrite IH, elem_of_cons.
    destruct (JsSet.has MODIFIER_KEYS a) eqn:Ha.
    + apply JsSet_has_true in Ha. rewrite JsSet_elem_of_add.
      split; [|intros [?|[[->|?] ?]]; tauto].
      intros [[->|?]|[? ?]]; tauto.
    + split; [tauto|]. intros [?|[[->|?] Hk]]; [tauto| |tauto].
      apply JsSet_has_true in Hk. congruence.
Qed.

Lemma clearNonModifierKeys_elem_of m k :
  k ∈ Store.get (pressedKeys (clearNonModifierKeys m).1)
  ↔ k ∈ Store.get (pressedKeys m) ∧ k ∈ MODIFIER_KEYS.
Proof.
  unfold clearNonModifierKeys, pressedKeys_update.
  cbn [fst Store.update with_pressedKeys pressedKeys Store.get Store.value].
  rewrite elem_of_keep_modifiers. split; [|tauto].
  intros [H|?]; [by apply elem_of_nil in H | assumption].
Qed.

(** C4.  When a key-down fires a shortcut, the pressed-key set afterwards
    holds exactly the keys held at that moment (the keys held before,
    and the key of the event) whose name is [meta], [control], [alt] or
    [shift]: no other key remains and no held modifier is dropped.  The
    clearing operation itself keeps exactly the modifier names of any
    pressed-key set. *)
Theorem pressedKeys_after_trigger navigator now event m i config :
  find (accepts navigator (currentScope m) event) (Store.get (shortcuts m))
    = Some (i, config) →
  let held := JsSet.add (toLowerCase (key event)) (Store.get (pressedKeys m)) in
  let after := Store.get (pressedKeys (handleKeyDown navigator now event m).1) in
  (∀ k, k ∈ after ↔ k ∈ held ∧ k ∈ ["meta"; "control"; "alt"; "shift"])
  ∧ ∀ m' k, k ∈ Store.get (pressedKeys (clearNonModifierKeys m').1)
            ↔ k ∈ Store.get (pressedKeys m')
              ∧ k ∈ ["meta"; "control"; "alt"; "shift"].
Proof.
  intros Hfind held after. rewrite <- MODIFIER_KEYS_eq.
  split; [|apply clearNonModifierKeys_elem_of].
  intros k. subst after. rewrite handleKeyDown_unfold, Hfind. cbn zeta.
  cbn [fst].
  pose proof (trigger_effects now event i config (keyAdded event m).1)
    as (_ & _ & _ & Hpressed).
  cbn zeta in Hpressed. rewrite Hpressed.
  rewrite clearNonModifierKeys_elem_of. reflexivity.
Qed.

(** Holding ctrl and pressing s with [ctrl+s] registered: [control] stays,
    [s] is dropped. *)
Lemma pressedKeys_after_trigger_witness :
  let m := (handleKeyDown None 10 (mkKeyboardEvent "Control" true false false false)
              (create None (mkOptions (Some [shortcut "save" "ctrl+s"])
                              None None)).1).1 in
  let event := mkKeyboardEvent "s" true false false false in
  let after := Store.get (pressedKeys (handleKeyDown None 20 event m).1) in
  find (accepts None (currentScope m) event) (Store.get (shortcuts m))
    = Some ("save", shortcut "save" "ctrl+s")
  ∧ ("control" ∈ after ↔ "control" ∈ ["control"; "s"]
                         ∧ "control" ∈ ["meta"; "control"; "alt"; "shift"])
  ∧ ("s" ∈ after ↔ "s" ∈ ["control"; "s"]
                   ∧ "s" ∈ ["meta"; "control"; "alt"; "shift"]).
Proof.
  intros m event after.
  assert (Hfind : find (accepts None (currentScope m) event)
                    (Store.get (shortcuts m))
                  = Some ("save", shortcut "save" "ctrl+s"))
    by (vm_compute; reflexivity).
  pose proof (pressedKeys_after_trigger None 20 event m "save"
                (shortcut "save" "ctrl+s") Hfind) as [H _].
  split_and!; [exact Hfind | exact (H "control") | exact (H "s")].
Defined.

Example pressedKeys_after_ctrl_s :
  let m := (handleKeyDown None 10 (mkKeyboardEvent "Control" true false false false)
              (create None (mkOptions (Some [shortcut "save" "ctrl+s"])
                              None None)).1).1 in
  Store.get (pressedKeys m) = ["control"]
  ∧ Store.get (pressedKeys
       (handleKeyDown None 20 (mkKeyboardEvent "s" true false false false) m).1)
    = ["control"]
  ∧ Store.get (pressedKeys
       (handleKeyDown None 20 (mkKeyboardEvent "x" true false false false) m).1)
    = ["control"; "x"].
Proof. vm_compute. by split_and!. Qed.

(** ** The conflict detector *)

Lemma find_snoc {A : Type} (f : A → bool) (l : list A) (x : A) :
  find f (l ++ [x])
  = match find f l with
    | Some y => Some y
    | None => if f x then Some x else None
    end.
Proof. rewrite find_app. reflexivity. Qed.

(** On definitions with non-empty ids the loop of the code computes the
    first-seen conflicts. *)
Lemma detectLoop_firstSeen navigator shortcuts :
  ∀ earlier seenKeys conflicts,
    Forall (λ s, id s ≠ "") (earlier ++ shortcuts) →
    (∀ k, seenKeys !! k
          = id <$> find (λ e, String.eqb (normalizedKeys navigator e) k) earlier) →
    detectLoop navigator seenKeys conflicts shortcuts
    = conflicts ++ firstSeenConflicts navigator earlier shortcuts.
Proof.
  induction shortcuts as [|s rest IH]; intros earlier seenKeys conflicts Hids Hseen.
  - cbn. by rewrite app_nil_r.
  - cbn [detectLoop firstSeenConflicts]. rewrite Hseen.
    replace (earlier ++ s :: rest) with ((earlier ++ [s]) ++ rest) in Hids
      by (by rewrite <- app_assoc).
    destruct (find _ earlier) as [first|] eqn:Hfind; cbn [fmap option_fmap option_map isTruthy default].
    + assert (Hfirst : id first ≠ "").
      { apply find_Some_split in Hfind as (l1 & l2 & -> & _ & _).
        rewrite !Forall_app, Forall_cons in Hids. tauto. }
      destruct (id first) as [|a r] eqn:Hid; [done|]. cbn [truthy].
      rewrite (IH (earlier ++ [s])) ; [by rewrite <- app_assoc | assumption |].
      intros k. rewrite Hseen, find_snoc.
      destruct (String.eqb_spec (normalizedKeys navigator s) k) as [<-|?].
      * by rewrite Hfind.
      * by destruct (find (λ e, String.eqb (normalizedKeys navigator e) k)
                       earlier).
    + rewrite (IH (earlier ++ [s])); [reflexivity | assumption |].
      intros k. rewrite find_snoc.
      destruct (String.eqb_spec (normalizedKeys navigator s) k) as [<-|Hne].
      * rewrite lookup_insert_eq, Hfind. reflexivity.
      * rewrite lookup_insert_ne, Hseen by assumption.
        by destruct (find (λ e, String.eqb (normalizedKeys navigator e) k)
                       earlier).
Qed.

(** The claim of C2 on definitions with non-empty ids: the detector
    reports, for each definition whose normalized combination was seen
    before, one conflict against the first definition that had it. *)
Lemma detectConflicts_firstSeen navigator shortcuts :
  Forall (λ s, id s ≠ "") shortcuts →
  detectConflicts navigator shortcuts
  = firstSeenConflicts navigator [] shortcuts.
Proof.
  intros Hids. unfold detectConflicts.
  rewrite (detectLoop_firstSeen navigator shortcuts []); [reflexivity | assumption |].
  intros k. by rewrite lookup_empty.
Qed.

(** C2.  The detector tests the looked-up id for truthiness, so a
    definition whose id is the empty string is not remembered as seen: the
    second definition of a combination is then not reported, and the third
    is reported against the second instead of the first-seen one. *)
Theorem detectConflicts_empty_id :
  detectConflicts None [shortcut "" "mod+s"; shortcut "b" "mod+s"] = []
  ∧ firstSeenConflicts None [] [shortcut "" "mod+s"; shortcut "b" "mod+s"]
    = [mkConflict "" "b" "ctrl+s"]
  ∧ detectConflicts None
      [shortcut "" "mod+s"; shortcut "b" "mod+s"; shortcut "c" "mod+s"]
    = [mkConflict "b" "c" "ctrl+s"]
  ∧ firstSeenConflicts None []
      [shortcut "" "mod+s"; shortcut "b" "mod+s"; shortcut "c" "mod+s"]
    = [mkConflict "" "b" "ctrl+s"; mkConflict "" "c" "ctrl+s"].
Proof. vm_compute. by split_and!. Qed.

(** The specification's example, with non-empty ids. *)
Example detectConflicts_three_mod_s :
  detectConflicts None
    [shortcut "a" "mod+s"; shortcut "b" "mod+s"; shortcut "c" "mod+s"]
  = [mkConflict "a" "b" "ctrl+s"; mkConflict "a" "c" "ctrl+s"]
  ∧ detectConflicts (Some "MacIntel")
      [shortcut "a" "mod+s"; shortcut "b" "mod+s"; shortcut "c" "mod+s"]
    = [mkConflict "a" "b" "meta+s"; mkConflict "a" "c" "meta+s"].
Proof. vm_compute. by split_and!. Qed.

(** Every reported conflict pairs two definitions of the input whose
    normalized combinations are equal. *)
Lemma detectLoop_pairs navigator shortcuts :
  ∀ earlier seenKeys conflicts,
    let paired (all : list ShortcutConfig) (c : Conflict) :=
      ∃ e1 e2, e1 ∈ all ∧ e2 ∈ all ∧ id e1 = id1 c ∧ id e2 = id2 c
               ∧ normalizedKeys navigator e1 = conflict_keys c
               ∧ normalizedKeys navigator e2 = conflict_keys c in
    (∀ k v, seenKeys !! k = Some v →
            ∃ e, e ∈ earlier ∧ id e = v ∧ normalizedKeys navigator e = k) →
    Forall (paired (earlier ++ shortcuts)) conflicts →
    Forall (paired (earlier ++ shortcuts))
      (detectLoop navigator seenKeys conflicts shortcuts).
Proof.
  induction shortcuts as [|s rest IH];
    intros earlier seenKeys conflicts paired Hseen Hconf.
  - exact Hconf.
  - cbn [detectLoop].
    replace (earlier ++ s :: rest) with ((earlier ++ [s]) ++ rest) in *
      by (by rewrite <- app_assoc).
    assert (Hs : s ∈ (earlier ++ [s]) ++ rest).
    { rewrite !elem_of_app, list_elem_of_singleton. tauto. }
    destruct (seenKeys !! normalizedKeys navigator s) as [v|] eqn:Hlook;
      cbn [isTruthy default].
    + destruct (truthy v).
      * apply IH.
        -- intros k w Hk. destruct (Hseen k w Hk) as (e & He & Hid & Hnk).
           exists e. rewrite elem_of_app. tauto.
        -- apply Forall_app. split; [assumption|].
           apply Forall_singleton.
           destruct (Hseen _ _ Hlook) as (e & He & Hid & Hnk).
           exists e, s. cbn. split_and!; try done.
           rewrite !elem_of_app. tauto.
      * apply IH; [|assumption].
        intros k w Hk.
        destruct (decide (normalizedKeys navigator s = k)) as [<-|Hne].
        -- rewrite lookup_insert_eq in Hk. injection Hk as <-.
           exists s. rewrite elem_of_app, list_elem_of_singleton. tauto.
        -- rewrite lookup_insert_ne in Hk by assumption.
           destruct (Hseen k w Hk) as (e & He & Hid & Hnk).
           exists e. rewrite elem_of_app. tauto.
    + apply IH; [|assumption].
      intros k w Hk.
      destruct (decide (normalizedKeys navigator s = k)) as [<-|Hne].
      * rewrite lookup_insert_eq in Hk. injection Hk as <-.
        exists s. rewrite elem_of_app, list_elem_of_singleton. tauto.
      * rewrite lookup_insert_ne in Hk by assumption.
        destruct (Hseen k w Hk) as (e & He & Hid & Hnk).
        exists e. rewrite elem_of_app. tauto.
Qed.

Lemma detectConflicts_pairs navigator shortcuts c :
  c ∈ detectConflicts navigator shortcuts →
  ∃ e1 e2, e1 ∈ shortcuts ∧ e2 ∈ shortcuts ∧ id e1 = id1 c ∧ id e2 = id2 c
           ∧ normalizedKeys navigator e1 = conflict_keys c
           ∧ normalizedKeys navigator e2 = conflict_keys c.
Proof.
  intros Hc.
  pose proof (detectLoop_pairs navigator shortcuts [] ∅ []) as H.
  cbn zeta in H.
  assert (Hseen : ∀ (k v : string), (∅ : gmap string string) !! k = Some v →
            ∃ e, e ∈ @nil ShortcutConfig ∧ id e = v
                 ∧ normalizedKeys navigator e = k).
  { intros k v Hk. by rewrite lookup_empty in Hk. }
  specialize (H Hseen (Forall_nil_2 _)).
  exact (proj1 (Forall_forall _ _) H c Hc).
Qed.

Lemma unique_id_elem (l : list ShortcutConfig) e d :
  NoDup (map id l) → e ∈ l → d ∈ l → id e = id d → e = d.
Proof.
  induction l as [|a l IH]; intros Hnd He Hd Hid.
  - by apply elem_of_nil in He.
  - cbn [map] in Hnd. apply NoDup_cons in Hnd as [Ha Hnd].
    apply elem_of_cons in He as [->|He]; apply elem_of_cons in Hd as [->|Hd].
    + reflexivity.
    + exfalso. apply Ha. rewrite Hid. by apply list_elem_of_fmap_2.
    + exfalso. apply Ha. rewrite <- Hid. by apply list_elem_of_fmap_2.
    + by apply IH.
Qed.

Lemma spaced_combination_normalizes_apart navigator d1 d2 :
  keys d1 = "ctrl+s" → keys d2 = "ctrl + s" →
  normalizedKeys navigator d1 ≠ normalizedKeys navigator d2.
Proof.
  intros H1 H2. unfold normalizedKeys, resolvePlatformModifier, platformModifier.
  rewrite H1, H2. destruct (isMac navigator); vm_compute; discriminate.
Qed.

(** C9.  The combinations [ctrl+s] and [ctrl + s] parse to the same
    modifier set and key on every platform, hence match the same events;
    their normalized strings differ, so two definitions bound to them are
    never reported as a conflict: not when they are the whole input, in
    either order, and not within any input whose ids are pairwise distinct. *)
Theorem spaced_combination_escapes_detection navigator :
  parseKeyCombination navigator "ctrl+s" = parseKeyCombination navigator "ctrl + s"
  ∧ (∀ event, matchesKeyCombination navigator event "ctrl+s"
              = matchesKeyCombination navigator event "ctrl + s")
  ∧ ∀ d1 d2, keys d1 = "ctrl+s" → keys d2 = "ctrl + s" →
      detectConflicts navigator [d1; d2] = []
      ∧ detectConflicts navigator [d2; d1] = []
      ∧ ∀ shortcuts c,
          NoDup (map id shortcuts) → d1 ∈ shortcuts → d2 ∈ shortcuts →
          c ∈ detectConflicts navigator shortcuts →
          ¬ ((id1 c = id d1 ∧ id2 c = id d2) ∨ (id1 c = id d2 ∧ id2 c = id d1)).
Proof.
  assert (Hparse : parseKeyCombination navigator "ctrl+s"
                   = parseKeyCombination navigator "ctrl + s").
  { unfold parseKeyCombination, resolvePlatformModifier, platformModifier.
    destruct (isMac navigator); vm_compute; reflexivity. }
  split_and!.
  - exact Hparse.
  - intros event. unfold matchesKeyCombination. by rewrite Hparse.
  - intros d1 d2 H1 H2.
    pose proof (spaced_combination_normalizes_apart navigator d1 d2 H1 H2) as Hne.
    split_and!.
    + unfold detectConflicts. cbn [detectLoop].
      rewrite lookup_empty. cbn [isTruthy].
      rewrite lookup_insert_ne, lookup_empty by assumption. reflexivity.
    + unfold detectConflicts. cbn [detectLoop].
      rewrite lookup_empty. cbn [isTruthy].
      rewrite lookup_insert_ne, lookup_empty by congruence. reflexivity.
    + intros shortcuts c Hnd Hd1 Hd2 Hc Hpair.
      apply detectConflicts_pairs in Hc
        as (e1 & e2 & He1 & He2 & Hi1 & Hi2 & Hk1 & Hk2).
      destruct Hpair as [[Hp1 Hp2]|[Hp1 Hp2]].
      * assert (e1 = d1) by (apply (unique_id_elem shortcuts); congruence).
        assert (e2 = d2) by (apply (unique_id_elem shortcuts); congruence).
        subst. congruence.
      * assert (e1 = d2) by (apply (unique_id_elem shortcuts); congruence).
        assert (e2 = d1) by (apply (unique_id_elem shortcuts); congruence).
        subst. congruence.
Qed.

(** At the manager: registering both definitions prints no conflict
    warning, and a key-down of ctrl+s fires the first of them. *)
Example spaced_combination_registered :
  let m0 := (create None (mkOptions None None None)).1 in
  let r := (registerShortcut None (shortcut "a" "ctrl + s") ;;
            registerShortcut None (shortcut "b" "ctrl+s")) m0 in
  r.2 = []
  ∧ Store.get (lastTriggeredShortcut
       (handleKeyDown None 7 (mkKeyboardEvent "s" true false false false) r.1).1)
    = Some (mkShortcutEvent "a" 7 (mkKeyboardEvent "s" true false false false)).
Proof. vm_compute. by split. Qed.

Lemma spaced_combination_escapes_detection_witness :
  let d1 := shortcut "a" "ctrl+s" in
  let d2 := shortcut "b" "ctrl + s" in
  keys d1 = "ctrl+s" ∧ keys d2 = "ctrl + s"
  ∧ detectConflicts None [d1; d2] = []
  ∧ detectConflicts None [d2; d1] = [].
Proof.
  intros d1 d2.
  pose proof (spaced_combination_escapes_detection None) as (_ & _ & H).
  destruct (H d1 d2 eq_refl eq_refl) as (H12 & H21 & _).
  split_and!; [reflexivity | reflexivity | exact H12 | exact H21].
Defined.

(** ** Platform resolution *)

Section ReplaceMod.
Variable modifier : string.

Lemma string_app_nil (b : string) : EmptyString +:+ b = b.
Proof. reflexivity. Qed.

Lemma string_app_cons (x : ascii) (a b : string) :
  String x a +:+ b = String x (a +:+ b).
Proof. reflexivity. Qed.

Lemma string_app_assoc (a b c : string) : (a +:+ b) +:+ c = a +:+ (b +:+ c).
Proof.
  induction a as [|x a IH]; [reflexivity|]. by rewrite !string_app_cons, IH.
Qed.

Lemma replaceMod_eq prev c r :
  replaceMod modifier prev (String c r)
  = if modAt prev (String c r)
    then modifier +:+ replaceMod modifier true (afterMod (String c r))
    else String c (replaceMod modifier (isWordChar c) r).
Proof.
  unfold modAt. destruct r as [|c2 [|c3 r3]].
  - cbn. by rewrite !andb_false_r.
  - cbn. by rewrite !andb_false_r.
  - cbn [replaceMod startsWith afterMod].
    rewrite (Ascii.eqb_sym c), (Ascii.eqb_sym c2), (Ascii.eqb_sym c3).
    rewrite andb_true_r, <- !andb_assoc. reflexivity.
Qed.

Lemma modAt_true prev s :
  modAt prev s = true →
  prev = false
  ∧ ∃ r3, s = String "m" (String "o" (String "d" r3)) ∧ boundaryAfter r3 = true.
Proof.
  unfold modAt. destruct prev; cbn [negb andb]; [discriminate|].
  destruct s as [|c [|c2 [|c3 r3]]]; cbn [startsWith afterMod andb];
    rewrite ?andb_false_r; cbn [andb]; try discriminate.
  rewrite andb_true_r, !andb_true_iff, !Ascii.eqb_eq.
  intros [(<- & <- & <-) Hb]. eauto.
Qed.

(** Induction along the scan of [replaceMod]: a position is either copied
    or is the start of a match, after which the scan resumes three code
    units later. *)
Lemma replaceMod_scan_ind (P : bool → string → Prop) :
  (∀ prev, P prev EmptyString) →
  (∀ prev c r, modAt prev (String c r) = false →
               P (isWordChar c) r → P prev (String c r)) →
  (∀ r3, boundaryAfter r3 = true → P true r3 →
         P false (String "m" (String "o" (String "d" r3)))) →
  ∀ s prev, P prev s.
Proof.
  intros Hnil Hcopy Hmatch s.
  assert (H : ∀ n s, String.length s ≤ n → ∀ prev, P prev s).
  { induction n as [|n IH]; intros s' Hlen prev.
    - destruct s'; [apply Hnil | cbn in Hlen; lia].
    - destruct s' as [|c r]; [apply Hnil|].
      destruct (modAt prev (String c r)) eqn:Hm.
      + apply modAt_true in Hm as (-> & r3 & Heq & Hb). rewrite Heq.
        apply Hmatch; [assumption|]. apply IH.
        rewrite Heq in Hlen. cbn in Hlen. lia.
      + apply Hcopy; [assumption|]. apply IH. cbn in Hlen. lia. }
  intros prev. by apply (H (String.length s)).
Qed.

Lemma replaceMod_mod r3 :
  boundaryAfter r3 = true →
  replaceMod modifier false (String "m" (String "o" (String "d" r3)))
  = modifier +:+ replaceMod modifier true r3.
Proof. intros Hb. rewrite replaceMod_eq. unfold modAt. cbn. by rewrite Hb. Qed.

Lemma boundaryAfter_app_plus a b :
  boundaryAfter (a +:+ String "+" b) = boundaryAfter a.
Proof. by destruct a. Qed.

Lemma modAt_app_plus prev c r b :
  modAt prev (String c r +:+ String "+" b) = modAt prev (String c r).
Proof.
  unfold modAt. destruct r as [|c2 [|c3 r3]];
    rewrite ?string_app_cons, ?string_app_nil; cbn [startsWith afterMod].
  - change (Ascii.eqb "o" "+") with false.
    by rewrite !andb_false_r.
  - change (Ascii.eqb "d" "+") with false.
    by rewrite !andb_false_r.
  - by rewrite boundaryAfter_app_plus.
Qed.

(** A ['+'] cuts the scan in two independent scans. *)
Lemma replaceMod_app_plus a :
  ∀ prev b,
    replaceMod modifier prev (a +:+ String "+" b)
    = replaceMod modifier prev a +:+ String "+" (replaceMod modifier false b).
Proof.
  intros prev. revert a prev.
  apply (replaceMod_scan_ind
           (λ prev a, ∀ b, replaceMod modifier prev (a +:+ String "+" b)
                           = replaceMod modifier prev a
                             +:+ String "+" (replaceMod modifier false b))).
  - intros prev b. rewrite string_app_nil, replaceMod_eq.
    unfold modAt. cbn. by rewrite andb_false_r.
  - intros prev c r Hm IH b.
    rewrite string_app_cons, !replaceMod_eq, <- string_app_cons.
    rewrite modAt_app_plus, Hm. by rewrite IH, string_app_cons.
  - intros r3 Hb IH b.
    rewrite !string_app_cons.
    rewrite !replaceMod_mod by (by rewrite ?boundaryAfter_app_plus).
    by rewrite IH, string_app_assoc.
Qed.

Lemma includes_plus_cons c r :
  includes (String c r) "+" = Ascii.eqb "+" c || includes r "+".
Proof. cbn. by rewrite andb_true_r. Qed.

Lemma includes_plus_app a b :
  includes (a +:+ b) "+" = includes a "+" || includes b "+".
Proof.
  induction a as [|c a IH].
  - rewrite string_app_nil. destruct b; reflexivity.
  - rewrite string_app_cons, !includes_plus_cons, IH. by rewrite orb_assoc.
Qed.

Hypothesis modifier_plain : includes modifier "+" = false.

Lemma replaceMod_plain a :
  ∀ prev, includes a "+" = false →
          includes (replaceMod modifier prev a) "+" = false.
Proof.
  intros prev. revert a prev.
  apply (replaceMod_scan_ind
           (λ prev a, includes a "+" = false →
                      includes (replaceMod modifier prev a) "+" = false)).
  - intros prev _. reflexivity.
  - intros prev c r Hm IH. rewrite replaceMod_eq, Hm, !includes_plus_cons.
    intros [Hc Hr]%orb_false_elim. by rewrite Hc, IH.
  - intros r3 Hb IH. rewrite replaceMod_mod by assumption.
    rewrite includes_plus_app, modifier_plain, !includes_plus_cons.
    cbn [Ascii.eqb orb]. intros Hr. by apply IH.
Qed.

Lemma split_nonempty s : split "+" s ≠ [].
Proof.
  destruct s as [|c r]; cbn; [discriminate|].
  destruct (Ascii.eqb c "+"); [discriminate|]. by destruct (split "+" r).
Qed.

Lemma split_plain s : includes s "+" = false → split "+" s = [s].
Proof.
  induction s as [|c r IH]; [reflexivity|].
  rewrite includes_plus_cons. intros [Hc Hr]%orb_false_elim.
  cbn [split]. rewrite Ascii.eqb_sym, Hc, IH by assumption. reflexivity.
Qed.

Lemma split_app_plus a b :
  includes a "+" = false → split "+" (a +:+ String "+" b) = a :: split "+" b.
Proof.
  induction a as [|c r IH].
  - intros _. reflexivity.
  - rewrite includes_plus_cons. intros [Hc Hr]%orb_false_elim.
    rewrite string_app_cons. cbn [split].
    rewrite Ascii.eqb_sym, Hc, IH by assumption. reflexivity.
Qed.

(** The first token of a string and what follows it. *)
Lemma split_inv s :
  ∀ t ts, split "+" s = t :: ts →
    includes t "+" = false
    ∧ match ts with
      | [] => s = t
      | _ :: _ => ∃ b, s = t +:+ String "+" b ∧ split "+" b = ts
      end.
Proof.
  induction s as [|c r IH]; intros t ts.
  - intros [= <- <-]. by split.
  - cbn [split]. destruct (Ascii.eqb_spec c "+") as [->|Hc].
    + intros [= <- <-]. split; [reflexivity|].
      pose proof (split_nonempty r). destruct (split "+" r) eqn:Hr; [done|].
      exists r. by rewrite Hr.
    + destruct (split "+" r) as [|t0 ts0] eqn:Hr; [by apply split_nonempty in Hr|].
      intros [= <- <-]. destruct (IH t0 ts0 eq_refl) as [Ht0 Hts0].
      split.
      * rewrite includes_plus_cons, Ht0.
        destruct (Ascii.eqb_spec "+" c); [congruence | reflexivity].
      * destruct ts0 as [|t1 ts1]; [by rewrite Hts0|].
        destruct Hts0 as (b & -> & Hb). exists b. by split.
Qed.

(** Resolution acts on each ['+']-separated token on its own. *)
Lemma split_replaceMod ts :
  ∀ t s, split "+" s = t :: ts →
    split "+" (replaceMod modifier false s)
    = replaceMod modifier false t :: map (replaceMod modifier false) ts.
Proof.
  induction ts as [|t' ts' IH]; intros t s Hs;
    destruct (split_inv s t _ Hs) as [Ht Hrest].
  - subst s. apply split_plain. by apply replaceMod_plain.
  - destruct Hrest as (b & -> & Hb).
    rewrite replaceMod_app_plus, split_app_plus by (by apply replaceMod_plain).
    by rewrite (IH t' b Hb).
Qed.

Lemma replaceMod_without_word t :
  ∀ prev, hasModWord prev t = false → replaceMod modifier prev t = t.
Proof.
  intros prev. revert t prev.
  apply (replaceMod_scan_ind
           (λ prev t, hasModWord prev t = false → replaceMod modifier prev t = t)).
  - reflexivity.
  - intros prev c r Hm IH. cbn [hasModWord]. rewrite replaceMod_eq, Hm.
    cbn [orb]. intros Hr. by rewrite IH.
  - intros r3 Hb _. cbn [hasModWord]. unfold modAt. cbn. rewrite Hb. discriminate.
Qed.
Lemma string_app_nil_r (a : string) : a +:+ EmptyString = a.
Proof. induction a as [|c a IH]; [reflexivity|]. by rewrite string_app_cons, IH. Qed.

Lemma outside_word_not_mod c :
  isWordChar c = false →
  Ascii.eqb "m" c = false ∧ Ascii.eqb "o" c = false ∧ Ascii.eqb "d" c = false.
Proof.
  intros Hc. split_and!.
  - destruct (Ascii.eqb_spec "m" c) as [<-|]; [discriminate | reflexivity].
  - destruct (Ascii.eqb_spec "o" c) as [<-|]; [discriminate | reflexivity].
  - destruct (Ascii.eqb_spec "d" c) as [<-|]; [discriminate | reflexivity].
Qed.

Lemma replaceMod_copy_outside prev c r :
  isWordChar c = false →
  replaceMod modifier prev (String c r) = String c (replaceMod modifier false r).
Proof.
  intros Hc. rewrite replaceMod_eq, Hc.
  assert (Hno : modAt prev (String c r) = false).
  { unfold modAt. cbn [startsWith].
    rewrite (proj1 (outside_word_not_mod c Hc)). by rewrite andb_false_r. }
  by rewrite Hno.
Qed.

Lemma replaceMod_copy_inside c r :
  replaceMod modifier true (String c r)
  = String c (replaceMod modifier (isWordChar c) r).
Proof. by rewrite replaceMod_eq. Qed.

Lemma replaceMod_after_boundary b :
  boundaryAfter b = true → replaceMod modifier true b = replaceMod modifier false b.
Proof.
  destruct b as [|c r]; [reflexivity|]. cbn [boundaryAfter].
  intros Hc%negb_true_iff. by rewrite !replaceMod_copy_outside.
Qed.

(** Inside a word, after its first character, everything is copied. *)
Lemma replaceMod_copy_run w r :
  wordOnly w = true →
  replaceMod modifier true (w +:+ r) = w +:+ replaceMod modifier true r.
Proof.
  induction w as [|c w IH]; [reflexivity|].
  cbn [wordOnly]. intros [Hc Hw]%andb_true_iff.
  by rewrite string_app_cons, replaceMod_copy_inside, Hc, IH, string_app_cons.
Qed.

(** A whole word at the start of the scan is replaced if and only if it is
    [mod]. *)
Lemma replaceMod_word_run w r :
  wordOnly w = true → w ≠ EmptyString → boundaryAfter r = true →
  replaceMod modifier false (w +:+ r)
  = substituteWord modifier w +:+ replaceMod modifier true r.
Proof.
  intros Hw Hne Hr. destruct w as [|c w']; [done|]. clear Hne.
  cbn [wordOnly] in Hw. apply andb_true_iff in Hw as [Hc Hw'].
  rewrite string_app_cons, replaceMod_eq.
  destruct (modAt false (String c (w' +:+ r))) eqn:Hm.
  - apply modAt_true in Hm as (_ & r3 & Heq & Hb).
    injection Heq as -> Heq.
    destruct w' as [|c2 w2].
    { rewrite string_app_nil in Heq. subst r. discriminate Hr. }
    rewrite string_app_cons in Heq. injection Heq as -> Heq.
    destruct w2 as [|c3 w3].
    { rewrite string_app_nil in Heq. subst r. discriminate Hr. }
    rewrite string_app_cons in Heq. injection Heq as -> Heq.
    destruct w3 as [|c4 w4].
    + rewrite string_app_nil in Heq. subst r3. reflexivity.
    + rewrite string_app_cons in Heq. subst r3. cbn [boundaryAfter] in Hb.
      cbn [wordOnly] in Hw'. rewrite !andb_true_iff in Hw'.
      destruct Hw' as (_ & _ & Hc4 & _). rewrite Hc4 in Hb. discriminate.
  - rewrite Hc, replaceMod_copy_run by assumption.
    unfold substituteWord.
    destruct (String.eqb_spec (String c w') "mod") as [Heq|_];
      [|by rewrite string_app_cons].
    injection Heq as -> ->. unfold modAt in Hm.
    rewrite !string_app_cons, string_app_nil in Hm.
    cbn [negb andb startsWith afterMod] in Hm.
    rewrite !Ascii.eqb_refl, Hr in Hm. discriminate.
Qed.

Lemma wordOnly_snoc w c :
  wordOnly w = true → isWordChar c = true →
  wordOnly (w +:+ String c EmptyString) = true.
Proof.
  intros Hw Hc. induction w as [|x w IH].
  - rewrite string_app_nil. cbn [wordOnly]. by rewrite Hc.
  - cbn [wordOnly] in Hw. apply andb_true_iff in Hw as [Hx Hw].
    rewrite string_app_cons. cbn [wordOnly]. by rewrite Hx, IH.
Qed.

(** The scan of the code computes the word-wise substitution. *)
Lemma replaceMod_resolveWords s :
  ∀ word, wordOnly word = true →
          replaceMod modifier false (word +:+ s) = resolveWords modifier word s.
Proof.
  induction s as [|c r IH]; intros word Hword.
  - rewrite string_app_nil_r. cbn [resolveWords].
    destruct word as [|x word']; [reflexivity|].
    rewrite <- (string_app_nil_r (String x word')) at 1.
    rewrite replaceMod_word_run by done. apply string_app_nil_r.
  - cbn [resolveWords]. destruct (isWordChar c) eqn:Hc.
    + rewrite <- IH by (by apply wordOnly_snoc).
      by rewrite string_app_assoc, string_app_cons, string_app_nil.
    + rewrite <- (IH EmptyString) by reflexivity. rewrite string_app_nil.
      destruct word as [|x word'].
      * rewrite string_app_nil. by rewrite replaceMod_copy_outside.
      * rewrite replaceMod_word_run;
          [by rewrite replaceMod_copy_outside | assumption | done
          | by cbn [boundaryAfter]; rewrite Hc].
Qed.

Lemma endsInWord_cons c r :
  r ≠ EmptyString → endsInWord (String c r) = endsInWord r.
Proof. by destruct r. Qed.

Lemma modAt_app_outside prev c r x :
  endsInWord (String c r) = false →
  modAt prev (String c r +:+ x) = modAt prev (String c r).
Proof.
  intros Hend. unfold modAt.
  destruct r as [|c2 [|c3 [|c4 r4]]];
    rewrite ?string_app_cons, ?string_app_nil; cbn [startsWith afterMod];
    cbn [endsInWord] in Hend.
  - rewrite (proj1 (outside_word_not_mod c Hend)). by rewrite !andb_false_r.
  - rewrite (proj1 (proj2 (outside_word_not_mod c2 Hend))).
    by rewrite !andb_false_r.
  - rewrite (proj2 (proj2 (outside_word_not_mod c3 Hend))).
    by rewrite !andb_false_r.
  - reflexivity.
Qed.

(** The scan can be cut after any code unit that is not a word character. *)
Lemma replaceMod_cut a :
  ∀ prev, a ≠ EmptyString → endsInWord a = false →
          ∀ x, replaceMod modifier prev (a +:+ x)
               = replaceMod modifier prev a +:+ replaceMod modifier false x.
Proof.
  intros prev. revert a prev.
  apply (replaceMod_scan_ind
           (λ prev a, a ≠ EmptyString → endsInWord a = false →
                      ∀ x, replaceMod modifier prev (a +:+ x)
                           = replaceMod modifier prev a
                             +:+ replaceMod modifier false x)).
  - done.
  - intros prev c r Hm IH _ Hend x.
    assert (Hm' := modAt_app_outside prev c r x Hend). rewrite Hm in Hm'.
    rewrite string_app_cons in Hm' |- *. rewrite !replaceMod_eq, Hm, Hm'.
    destruct r as [|c2 r2].
    + cbn [endsInWord] in Hend. rewrite Hend, string_app_nil. reflexivity.
    + rewrite endsInWord_cons in Hend by done.
      by rewrite IH, string_app_cons.
  - intros r3 Hb IH _ Hend x.
    destruct r3 as [|c4 r4]; [discriminate Hend|].
    rewrite !endsInWord_cons in Hend by done.
    rewrite !string_app_cons.
    rewrite (replaceMod_mod (String c4 (r4 +:+ x))) by exact Hb.
    rewrite (replaceMod_mod (String c4 r4)) by exact Hb.
    rewrite <- string_app_cons, IH by done. by rewrite string_app_assoc.
Qed.

(** Every whole-word occurrence of [mod] is replaced. *)
Lemma replaceMod_occurrence a b :
  endsInWord a = false → boundaryAfter b = true →
  replaceMod modifier false (a +:+ "mod" +:+ b)
  = replaceMod modifier false a +:+ modifier +:+ replaceMod modifier false b.
Proof.
  intros Ha Hb.
  assert (Hmod : replaceMod modifier false ("mod" +:+ b)
                 = modifier +:+ replaceMod modifier false b).
  { rewrite !string_app_cons, string_app_nil, replaceMod_mod by assumption.
    by rewrite replaceMod_after_boundary. }
  destruct a as [|c r]; [by rewrite !string_app_nil|].
  by rewrite replaceMod_cut, Hmod.
Qed.
End ReplaceMod.

Lemma platformModifier_cases navigator :
  platformModifier navigator
  = match getPlatform navigator with
    | mac => "meta"
    | windows | linux => "ctrl"
    end.
Proof. unfold platformModifier, isMac. by destruct (getPlatform navigator). Qed.

Lemma platformModifier_plain navigator :
  includes (platformModifier navigator) "+" = false.
Proof. unfold platformModifier. by destruct (isMac navigator). Qed.

Lemma resolvePlatformModifier_split navigator s :
  split "+" (resolvePlatformModifier navigator s)
  = map (resolvePlatformModifier navigator) (split "+" s).
Proof.
  unfold resolvePlatformModifier.
  destruct (split "+" s) as [|t ts] eqn:Hs; [by apply split_nonempty in Hs|].
  apply split_replaceMod; [apply platformModifier_plain | assumption].
Qed.

Lemma resolvePlatformModifier_mod navigator :
  resolvePlatformModifier navigator "mod" = platformModifier navigator.
Proof.
  unfold resolvePlatformModifier, platformModifier.
  by destruct (isMac navigator).
Qed.

(** C6, as stated, fails: in [mod+mod-z] the second token is not [mod],
    yet resolution rewrites it, because the pattern [\bmod\b] matches [mod]
    before the hyphen. *)
Lemma platform_resolution_counterexample :
  ¬ (∀ navigator s,
       "mod" ∈ split "+" s →
       split "+" (resolvePlatformModifier navigator s)
       = substituteTokens
           (match getPlatform navigator with
            | mac => "meta"
            | windows | linux => "ctrl"
            end)
           (split "+" s)).
Proof.
  intros H. specialize (H None "mod+mod-z").
  assert (Hin : "mod" ∈ split "+" "mod+mod-z") by (vm_compute; left).
  specialize (H Hin). vm_compute in H. discriminate.
Qed.

(** The same with spaces around the separator: the token [mod ] is
    rewritten. *)
Example platform_resolution_spaced :
  split "+" (resolvePlatformModifier None "mod + s") = ["ctrl "; " s"]
  ∧ substituteTokens "ctrl" (split "+" "mod + s") = ["mod "; " s"].
Proof. vm_compute. by split. Qed.

(** Word characters are the ASCII ones: an accented letter after [mod]
    ends the word, so [mod] is replaced there, while a digit or an
    underscore continues it. *)
Example platform_resolution_ascii_words :
  resolvePlatformModifier None (String "m" (String "o" (String "d"
                                  (String (ascii_of_N 233) "+s"))))
  = String "c" (String "t" (String "r" (String "l"
      (String (ascii_of_N 233) "+s"))))
  ∧ resolvePlatformModifier None "mod1+mod_+xmod+mod" = "mod1+mod_+xmod+ctrl".
Proof. vm_compute. by split. Qed.

(** C6, amended.  Resolution replaces every occurrence of [mod] that
    stands as a whole word, delimited on each side by an end of the string
    or by a code unit outside [[A-Za-z0-9_]], by [meta] on a platform
    classified as Mac and by [ctrl] on any other, and changes nothing
    else: it is the word-wise substitution [resolveWords].  It works token
    by token; hence every ['+']-separated token equal to [mod] becomes the
    modifier, every token without a whole-word [mod] is left unchanged, and
    on a combination all of whose tokens are of these two kinds resolution
    is the token-wise substitution. *)
Theorem resolvePlatformModifier_tokens navigator s :
  let modifier := match getPlatform navigator with
                  | mac => "meta"
                  | windows | linux => "ctrl"
                  end in
  resolvePlatformModifier navigator s = resolveWords modifier EmptyString s
  ∧ (∀ a b, endsInWord a = false → boundaryAfter b = true →
       resolvePlatformModifier navigator (a +:+ "mod" +:+ b)
       = resolvePlatformModifier navigator a +:+ modifier
         +:+ resolvePlatformModifier navigator b)
  ∧ split "+" (resolvePlatformModifier navigator s)
    = map (resolvePlatformModifier navigator) (split "+" s)
  ∧ resolvePlatformModifier navigator "mod" = modifier
  ∧ (∀ t, hasModWord false t = false → resolvePlatformModifier navigator t = t)
  ∧ (Forall (λ t, t = "mod" ∨ hasModWord false t = false) (split "+" s) →
     split "+" (resolvePlatformModifier navigator s)
     = substituteTokens modifier (split "+" s)).
Proof.
  intros modifier.
  assert (Hcases : platformModifier navigator = modifier)
    by apply platformModifier_cases.
  assert (Hmod : resolvePlatformModifier navigator "mod" = modifier).
  { rewrite resolvePlatformModifier_mod. exact Hcases. }
  assert (Hkeep : ∀ t, hasModWord false t = false →
                       resolvePlatformModifier navigator t = t).
  { intros t Ht. by apply replaceMod_without_word. }
  split_and!;
    [| | apply resolvePlatformModifier_split | exact Hmod | exact Hkeep |].
  - unfold resolvePlatformModifier. rewrite Hcases.
    rewrite <- (replaceMod_resolveWords modifier s EmptyString) by reflexivity.
    by rewrite string_app_nil.
  - intros a b Ha Hb. unfold resolvePlatformModifier. rewrite Hcases.
    by apply replaceMod_occurrence.
  - intros Htokens. rewrite resolvePlatformModifier_split.
    unfold substituteTokens. apply map_ext_Forall.
    eapply Forall_impl; [exact Htokens|]. cbn beta.
    intros t [->|Ht].
    + by rewrite Hmod.
    + rewrite Hkeep by assumption.
      destruct (String.eqb_spec t "mod") as [->|?];
        [discriminate Ht | reflexivity].
Qed.

Lemma resolvePlatformModifier_tokens_witness :
  (endsInWord "shift+" = false ∧ boundaryAfter "-z" = true
   ∧ resolvePlatformModifier (Some "MacIntel") ("shift+" +:+ "mod" +:+ "-z")
     = resolvePlatformModifier (Some "MacIntel") "shift+" +:+ "meta"
       +:+ resolvePlatformModifier (Some "MacIntel") "-z")
  ∧ Forall (λ t, t = "mod" ∨ hasModWord false t = false)
      (split "+" "mod+shift+z")
  ∧ split "+" (resolvePlatformModifier (Some "MacIntel") "mod+shift+z")
    = substituteTokens "meta" (split "+" "mod+shift+z").
Proof.
  assert (Ha : endsInWord "shift+" = false) by reflexivity.
  assert (Hb : boundaryAfter "-z" = true) by reflexivity.
  assert (Htokens : Forall (λ t, t = "mod" ∨ hasModWord false t = false)
                      (split "+" "mod+shift+z")).
  { change (split "+" "mod+shift+z") with ["mod"; "shift"; "z"].
    constructor; [by left|]. constructor; [by right|].
    constructor; [by right|]. constructor. }
  split_and!; [exact Ha | exact Hb | | exact Htokens |].
  - exact (proj1 (proj2 (resolvePlatformModifier_tokens (Some "MacIntel") ""))
             "shift+" "-z" Ha Hb).
  - exact (proj2 (proj2 (proj2 (proj2 (proj2
      (resolvePlatformModifier_tokens (Some "MacIntel") "mod+shift+z")))))
      Htokens).
Defined.

(** * Further properties of the code *)

(** ** Entries of the table *)

Section JsMapEntries.
Context {V : Type}.
Implicit Types (m : list (string * V)) (k : string) (v : V).

Lemma JsMap_get_elem m k v : JsMap.get k m = Some v → (k, v) ∈ m.
Proof.
  induction m as [|[k0 v0] m IH]; [discriminate|].
  cbn [JsMap.get]. destruct (String.eqb_spec k0 k) as [->|Hk].
  - intros [= ->]. apply list_elem_of_here.
  - intros H. apply list_elem_of_further. by apply IH.
Qed.

Lemma JsMap_elem_get m k v :
  NoDup (JsMap.keys m) → (k, v) ∈ m → JsMap.get k m = Some v.
Proof.
  unfold JsMap.keys. induction m as [|[k0 v0] m IH]; intros Hnd Hin.
  - by apply elem_of_nil in Hin.
  - cbn [map fst] in Hnd. apply NoDup_cons in Hnd as [Hk0 Hnd].
    cbn [JsMap.get]. apply elem_of_cons in Hin as [[= -> ->]|Hin].
    + by rewrite String.eqb_refl.
    + destruct (String.eqb_spec k0 k) as [->|Hk]; [|by apply IH].
      exfalso. apply Hk0. by apply (list_elem_of_fmap_2 fst _ (k, v)).
Qed.

Lemma JsMap_get_delete_ne m k k' :
  k ≠ k' → JsMap.get k' (JsMap.delete k m) = JsMap.get k' m.
Proof.
  intros Hne. induction m as [|[k0 v0] m IH]; [reflexivity|].
  cbn [JsMap.delete JsMap.get].
  destruct (String.eqb_spec k0 k) as [->|Hk].
  - destruct (String.eqb_spec k k'); [contradiction | reflexivity].
  - cbn [JsMap.get]. by rewrite IH.
Qed.

Lemma filter_ne_id (l : list string) k :
  k ∉ l → filter (λ k', k' ≠ k) l = l.
Proof.
  induction l as [|a l IH]; [reflexivity|].
  intros [Ha Hl]%not_elem_of_cons.
  rewrite filter_cons_True by congruence. by rewrite IH.
Qed.

Lemma JsMap_keys_delete m k :
  NoDup (JsMap.keys m) →
  JsMap.keys (JsMap.delete k m) = filter (λ k', k' ≠ k) (JsMap.keys m).
Proof.
  unfold JsMap.keys. induction m as [|[k0 v0] m IH]; intros Hnd; [reflexivity|].
  cbn [map fst] in Hnd. apply NoDup_cons in Hnd as [Hk0 Hnd].
  cbn [JsMap.delete map fst]. destruct (String.eqb_spec k0 k) as [->|Hk].
  - rewrite filter_cons_False by (intros H; by apply H).
    by rewrite filter_ne_id.
  - rewrite filter_cons_True by assumption. cbn [map fst]. by rewrite IH.
Qed.

Lemma JsMap_delete_sublist m k : JsMap.delete k m `sublist_of` m.
Proof.
  induction m as [|[k0 v0] m IH]; [constructor|].
  cbn [JsMap.delete]. destruct (String.eqb k0 k).
  - by apply sublist_cons.
  - by apply sublist_skip.
Qed.

Lemma JsMap_set_fresh m k v :
  JsMap.get k m = None → JsMap.set k v m = m ++ [(k, v)].
Proof.
  induction m as [|[k0 v0] m IH]; [reflexivity|].
  cbn [JsMap.get JsMap.set]. destruct (String.eqb k0 k); [discriminate|].
  intros H. by rewrite IH.
Qed.

Lemma JsMap_delete_snoc m k v :
  JsMap.get k m = None → JsMap.delete k (m ++ [(k, v)]) = m.
Proof.
  induction m as [|[k0 v0] m IH].
  - intros _. cbn. by rewrite String.eqb_refl.
  - cbn [JsMap.get app JsMap.delete]. destruct (String.eqb k0 k); [discriminate|].
    intros H. by rewrite IH.
Qed.
End JsMapEntries.

(** ** Registration *)

Lemma registerShortcut_table navigator config m :
  Store.get (shortcuts (registerShortcut navigator config m).1)
  = JsMap.set (id config) config (Store.get (shortcuts m)).
Proof.
  unfold registerShortcut.
  by rewrite !andThen_state, log_state, checkConflicts_state,
       shortcuts_update_value.
Qed.

Lemma unregisterShortcut_table i m :
  Store.get (shortcuts (unregisterShortcut i m).1)
  = JsMap.delete i (Store.get (shortcuts m)).
Proof.
  unfold unregisterShortcut.
  by rewrite andThen_state, log_state, shortcuts_update_value.
Qed.

(** X1.  [registerShortcut] stores the definition under its id whatever
    the table held: a later query returns exactly the new definition, no
    other entry changes, an id already present keeps its place in the
    order and a new id goes to the end.  It is [registerShortcuts] on a
    one-element list. *)
Theorem registerShortcut_replaces navigator config m :
  let table := Store.get (shortcuts m) in
  let m' := (registerShortcut navigator config m).1 in
  getShortcut (id config) m' = Some config
  ∧ (∀ other, other ≠ id config → getShortcut other m' = getShortcut other m)
  ∧ JsMap.keys (Store.get (shortcuts m'))
    = (if decide (id config ∈ JsMap.keys table) then JsMap.keys table
       else JsMap.keys table ++ [id config])
  ∧ Store.get (shortcuts m')
    = Store.get (shortcuts (registerShortcuts navigator [config] m).1).
Proof.
  intros table m'. subst m'. unfold getShortcut.
  rewrite registerShortcut_table. fold table. split_and!.
  - apply JsMap_get_set_eq.
  - intros other Hne. apply JsMap_get_set_ne. congruence.
  - apply JsMap_keys_set.
  - unfold registerShortcuts.
    by rewrite !andThen_state, log_state, checkConflicts_state,
         shortcuts_update_value.
Qed.

(** X2.  Registration never rejects: the only trace of a conflict is one
    [console.warn], printed exactly when the detector reports conflicts
    on the definitions of the table after the insertion, and carrying that
    report. *)
Theorem registerShortcut_warns navigator config m :
  let m' := (registerShortcut navigator config m).1 in
  let trace := (registerShortcut navigator config m).2 in
  let report := detectConflicts navigator (getAllShortcuts m') in
  (∀ message conflicts,
     ConsoleWarn message conflicts ∈ trace →
     conflicts = report ∧ report ≠ []
     ∧ message = "[Modkey] Detected shortcut conflicts:")
  ∧ (report ≠ [] →
     ConsoleWarn "[Modkey] Detected shortcut conflicts:" report ∈ trace)
  ∧ getShortcut (id config) m' = Some config.
Proof.
  intros m' trace report.
  assert (Hm' : Store.get (shortcuts m')
                = JsMap.set (id config) config (Store.get (shortcuts m)))
    by apply registerShortcut_table.
  assert (Htrace : trace
    = map ShortcutsListener
        (Store.update (λ map, JsMap.set (id config) config map) (shortcuts m)).2
      ++ (if (0 <? length report)%nat
          then [ConsoleWarn "[Modkey] Detected shortcut conflicts:" report]
          else [])
      ++ (if debug m
          then [ConsoleLog ("[Modkey] " +:+ "Shortcut registered: " +:+ id config)]
          else [])).
  { subst trace report m'. unfold registerShortcut.
    rewrite !andThen_trace, !andThen_state. reflexivity. }
  split_and!.
  - intros message conflicts. rewrite Htrace, !elem_of_app.
    intros [Hin|[Hin|Hin]].
    + apply list_elem_of_fmap in Hin as (? & [=] & _).
    + destruct report as [|c0 report']; cbn in Hin.
      * by apply elem_of_nil in Hin.
      * apply list_elem_of_singleton in Hin as [= -> ->]. by split_and!.
    + destruct (debug m); [|by apply elem_of_nil in Hin].
      by apply list_elem_of_singleton in Hin.
  - intros Hreport. rewrite Htrace, !elem_of_app. right; left.
    destruct report as [|c0 report']; [done|]. cbn. apply list_elem_of_here.
  - unfold getShortcut. rewrite Hm'. apply JsMap_get_set_eq.
Qed.

Lemma registerShortcut_warns_witness :
  let m := (create None (mkOptions (Some [shortcut "a" "mod+s"]) None None)).1 in
  let config := shortcut "b" "ctrl+s" in
  let report :=
    detectConflicts None (getAllShortcuts (registerShortcut None config m).1) in
  report ≠ []
  ∧ ConsoleWarn "[Modkey] Detected shortcut conflicts:" report
      ∈ (registerShortcut None config m).2.
Proof.
  intros m config report.
  assert (Hreport : report ≠ []) by (vm_compute; discriminate).
  split; [exact Hreport|].
  exact (proj1 (proj2 (registerShortcut_warns None config m)) Hreport).
Defined.

(** X3.  On a table with one entry per id, [unregisterShortcut] removes
    the entry of that id and nothing else: the id is no longer found, every
    other id keeps its definition and the order of the remaining entries
    is unchanged. *)
Theorem unregisterShortcut_removes i m :
  NoDup (JsMap.keys (Store.get (shortcuts m))) →
  let m' := (unregisterShortcut i m).1 in
  getShortcut i m' = None
  ∧ (∀ other, other ≠ i → getShortcut other m' = getShortcut other m)
  ∧ JsMap.keys (Store.get (shortcuts m'))
    = filter (λ k, k ≠ i) (JsMap.keys (Store.get (shortcuts m))).
Proof.
  intros Hnd m'. subst m'. unfold getShortcut.
  rewrite unregisterShortcut_table.
  assert (Hkeys := JsMap_keys_delete (Store.get (shortcuts m)) i Hnd).
  split_and!.
  - apply JsMap_get_None. rewrite Hkeys, list_elem_of_filter. tauto.
  - intros other Hne. apply JsMap_get_delete_ne. congruence.
  - exact Hkeys.
Qed.

Lemma unregisterShortcut_removes_witness :
  let m := (create None (mkOptions
              (Some [shortcut "a" "mod+s"; shortcut "b" "mod+z"]) None None)).1 in
  NoDup (JsMap.keys (Store.get (shortcuts m)))
  ∧ getShortcut "a" (unregisterShortcut "a" m).1 = None
  ∧ getShortcut "b" (unregisterShortcut "a" m).1 = Some (shortcut "b" "mod+z").
Proof.
  intros m.
  assert (Hm : NoDup (JsMap.keys (Store.get (shortcuts m)))).
  { apply (bool_decide_unpack _). vm_compute. exact I. }
  pose proof (unregisterShortcut_removes "a" m Hm) as (Ha & Hb & _).
  split_and!; [exact Hm | exact Ha |].
  exact (Hb "b" ltac:(discriminate)).
Defined.

(** X4.  Registering a definition whose id is not in the table and then
    unregistering that id gives back the table, entry for entry. *)
Theorem register_unregister_roundtrip navigator config m :
  getShortcut (id config) m = None →
  Store.get (shortcuts
    ((registerShortcut navigator config ;; unregisterShortcut (id config)) m).1)
  = Store.get (shortcuts m).
Proof.
  unfold getShortcut. intros Hnone.
  rewrite andThen_state, unregisterShortcut_table, registerShortcut_table.
  rewrite JsMap_set_fresh by assumption. by apply JsMap_delete_snoc.
Qed.

Lemma register_unregister_roundtrip_witness :
  let m := (create None (mkOptions (Some [shortcut "a" "mod+s"]) None None)).1 in
  getShortcut "b" m = None
  ∧ Store.get (shortcuts
      ((registerShortcut None (shortcut "b" "mod+z") ;; unregisterShortcut "b") m).1)
    = Store.get (shortcuts m).
Proof.
  intros m.
  assert (Hb : getShortcut "b" m = None) by reflexivity.
  split; [exact Hb|].
  exact (register_unregister_roundtrip None (shortcut "b" "mod+z") m Hb).
Defined.

(** ** What input handling leaves alone *)

Lemma trigger_frame now event i config m :
  let r := (trigger now event i config m).1 in
  shortcuts r = shortcuts m ∧ subscribers r = subscribers m
  ∧ triggerEmitter r = triggerEmitter m ∧ currentScope r = currentScope m
  ∧ isInitialized r = isInitialized m ∧ debug r = debug m.
Proof.
  cbn zeta. unfold trigger.
  rewrite !andThen_state, log_state, notifySubscribers_state,
    when_perform_state.
  by split_and!.
Qed.

Lemma handleKeyDown_frame navigator now event m :
  let r := (handleKeyDown navigator now event m).1 in
  shortcuts r = shortcuts m ∧ subscribers r = subscribers m
  ∧ triggerEmitter r = triggerEmitter m ∧ currentScope r = currentScope m
  ∧ isInitialized r = isInitialized m ∧ debug r = debug m.
Proof.
  cbn zeta. rewrite handleKeyDown_unfold. cbn zeta.
  destruct (find _ _) as [[i config]|]; cbn [fst]; [|by split_and!].
  apply (trigger_frame now event i config (keyAdded event m).1).
Qed.

Lemma handleKeyDown_pressedKeys navigator now event m :
  Store.get (pressedKeys (handleKeyDown navigator now event m).1)
  = match find (accepts navigator (currentScope m) event)
            (Store.get (shortcuts m)) with
    | Some _ => Store.get (pressedKeys
                  (clearNonModifierKeys (keyAdded event m).1).1)
    | None => JsSet.add (toLowerCase (key event)) (Store.get (pressedKeys m))
    end.
Proof.
  rewrite handleKeyDown_unfold. cbn zeta.
  destruct (find _ _) as [[i config]|]; cbn [fst]; [|reflexivity].
  pose proof (trigger_effects now event i config (keyAdded event m).1)
    as (_ & _ & _ & Hpressed).
  cbn zeta in Hpressed. by rewrite Hpressed.
Qed.

(** X5.  Keyboard input never touches the registrations: after a
    key-down, a key-up or a blur the shortcut table, the subscribers, the
    trigger listeners, the current scope and the listening flag are what
    they were; a key-up and a blur also leave the last triggered shortcut. *)
Theorem input_leaves_registrations navigator now event m :
  let unchanged r :=
    shortcuts r = shortcuts m ∧ subscribers r = subscribers m
    ∧ triggerEmitter r = triggerEmitter m ∧ currentScope r = currentScope m
    ∧ isInitialized r = isInitialized m ∧ debug r = debug m in
  unchanged (handleKeyDown navigator now event m).1
  ∧ unchanged (handleKeyUp event m).1
  ∧ unchanged (handleBlur m).1
  ∧ lastTriggeredShortcut (handleKeyUp event m).1 = lastTriggeredShortcut m
  ∧ lastTriggeredShortcut (handleBlur m).1 = lastTriggeredShortcut m.
Proof.
  intros unchanged. subst unchanged. cbn beta.
  split; [apply handleKeyDown_frame | by split_and!].
Qed.

(** ** Collections stay sets *)

Lemma keep_modifiers_NoDup (keys acc : list string) :
  NoDup acc →
  NoDup (foldl (λ newKeys key,
                  if JsSet.has MODIFIER_KEYS key then JsSet.add key newKeys
                  else newKeys) acc keys).
Proof.
  revert acc. induction keys as [|a keys IH]; intros acc Hacc; [assumption|].
  cbn [foldl]. apply IH. destruct (JsSet.has MODIFIER_KEYS a); [|assumption].
  by apply JsSet_add_NoDup.
Qed.

Lemma JsMap_set_keyed (table : Table) config :
  Forall (λ e : string * ShortcutConfig, id e.2 = e.1) table →
  Forall (λ e : string * ShortcutConfig, id e.2 = e.1)
    (JsMap.set (id config) config table).
Proof.
  induction table as [|[k v] table IH]; intros Ht.
  - by repeat constructor.
  - apply Forall_cons in Ht as [Hkv Ht]. cbn [JsMap.set].
    destruct (String.eqb_spec k (id config)) as [->|Hk];
      constructor; auto.
Qed.

Lemma JsMap_delete_keyed (table : Table) i :
  Forall (λ e : string * ShortcutConfig, id e.2 = e.1) table →
  Forall (λ e : string * ShortcutConfig, id e.2 = e.1) (JsMap.delete i table).
Proof.
  induction table as [|[k v] table IH]; intros Ht; [constructor|].
  apply Forall_cons in Ht as [Hkv Ht]. cbn [JsMap.delete].
  destruct (String.eqb k i); [assumption | constructor; auto].
Qed.

Lemma foldl_set_keyed (configs : list ShortcutConfig) (table : Table) :
  Forall (λ e : string * ShortcutConfig, id e.2 = e.1) table →
  Forall (λ e : string * ShortcutConfig, id e.2 = e.1)
    (foldl (λ newMap config, JsMap.set (id config) config newMap) table configs).
Proof.
  revert table. induction configs as [|c configs IH]; intros table Ht;
    [assumption|].
  cbn [foldl]. apply IH. by apply JsMap_set_keyed.
Qed.

Lemma set_enabled_keyed (table : Table) i b :
  Forall (λ e : string * ShortcutConfig, id e.2 = e.1) table →
  Forall (λ e : string * ShortcutConfig, id e.2 = e.1)
    (match JsMap.get i table with
     | Some shortcut => JsMap.set i (with_enabled b shortcut) table
     | None => table
     end).
Proof.
  intros Ht. destruct (JsMap.get i table) as [c|] eqn:Hget; [|assumption].
  assert (Hid : id c = i).
  { apply JsMap_get_elem in Hget.
    by apply (proj1 (Forall_forall _ _) Ht) in Hget. }
  replace i with (id (with_enabled b c)) at 1 by exact Hid.
  by apply JsMap_set_keyed.
Qed.

Lemma set_enabled_NoDup (table : Table) i b :
  NoDup (JsMap.keys table) →
  NoDup (JsMap.keys (match JsMap.get i table with
                     | Some shortcut => JsMap.set i (with_enabled b shortcut) table
                     | None => table
                     end)).
Proof.
  intros Ht. destruct (JsMap.get i table); [|assumption]. by apply JsMap_set_NoDup.
Qed.

Lemma consistent_frame m r :
  shortcuts r = shortcuts m → pressedKeys r = pressedKeys m →
  triggerEmitter r = triggerEmitter m → subscribers r = subscribers m →
  consistent m → consistent r.
Proof. unfold consistent. by intros -> -> -> ->. Qed.

Lemma subscribe_subscribers i callback m :
  subscribers (subscribe i callback m).1
  = <[i := JsSet.add callback (default [] (subscribers m !! i))]> (subscribers m).
Proof.
  unfold subscribe, modify. cbn [fst with_subscribers subscribers].
  apply map_eq. intros k. case_bool_decide as Hsome.
  - destruct Hsome as [cbs Hcbs].
    destruct (decide (i = k)) as [<-|Hne].
    + by rewrite lookup_alter_eq, lookup_insert_eq, Hcbs.
    + by rewrite lookup_alter_ne, lookup_insert_ne.
  - assert (Hnone : subscribers m !! i = None).
    { destruct (subscribers m !! i) eqn:E; [|reflexivity].
      exfalso. apply Hsome. by eexists. }
    destruct (decide (i = k)) as [<-|Hne].
    + by rewrite lookup_alter_eq, !lookup_insert_eq, Hnone.
    + by rewrite lookup_alter_ne, !lookup_insert_ne.
Qed.

Lemma unsubscribe_lookup i callback m k :
  subscribers (unsubscribe i callback m).1 !! k
  = if decide (k = i)
    then match JsSet.delete callback (default [] (subscribers m !! i)) with
         | [] => None
         | callbacks => Some callbacks
         end
    else subscribers m !! k.
Proof.
  unfold unsubscribe, modify. cbn [fst].
  destruct (subscribers m !! i) as [cbs|] eqn:Hcbs.
  - change (default [] (Some cbs)) with cbs.
    destruct (JsSet.delete callback cbs) as [|c0 rest] eqn:Hdel;
      cbn [length Nat.eqb with_subscribers subscribers];
      destruct (decide (k = i)) as [->|Hne];
      rewrite ?lookup_delete_eq, ?lookup_insert_eq; try reflexivity;
      by rewrite ?lookup_delete_ne, ?lookup_insert_ne by congruence.
  - destruct (decide (k = i)) as [->|Hne]; [|reflexivity].
    by rewrite Hcbs.
Qed.

Lemma run_consistent navigator hasWindow call m :
  consistent m → consistent (run navigator hasWindow call m).1.
Proof.
  intros Hm. pose proof Hm as (Hkeys & Hkeyed & Hpressed & Hemit & Hsubs).
  destruct call; cbn [run].
  - unfold init. destruct (isInitialized m); [assumption|].
    destruct hasWindow; [|assumption]. by apply (consistent_frame m).
  - unfold destroy. destruct (isInitialized m); [|assumption].
    destruct hasWindow; [|assumption]. by apply (consistent_frame m).
  - unfold keydown. destruct (isInitialized m); [|assumption].
    pose proof (handleKeyDown_frame navigator now event m)
      as (Hs & Hsub & He & _).
    cbn zeta in *. unfold consistent. rewrite Hs, Hsub, He.
    split_and!; try assumption.
    rewrite handleKeyDown_pressedKeys.
    destruct (find _ _).
    + unfold clearNonModifierKeys, pressedKeys_update. cbn.
      apply keep_modifiers_NoDup. constructor.
    + by apply JsSet_add_NoDup.
  - unfold keyup. destruct (isInitialized m); [|assumption].
    unfold consistent, handleKeyUp, pressedKeys_update. cbn.
    split_and!; try assumption. by apply NoDup_filter.
  - unfold blur. destruct (isInitialized m); [|assumption].
    unfold consistent, handleBlur, pressedKeys_set. cbn.
    split_and!; try assumption. constructor.
  - unfold consistent. rewrite subscribe_subscribers.
    cbn [subscribe modify fst with_subscribers shortcuts pressedKeys
         triggerEmitter].
    split_and!; try assumption.
    intros k cbs. destruct (decide (i = k)) as [<-|Hne].
    + rewrite lookup_insert_eq. intros [= <-]. split.
      * intros Hnil.
        assert (Hin : callback ∈ JsSet.add callback
                        (default [] (subscribers m !! i)))
          by (apply JsSet_elem_of_add; by left).
        rewrite Hnil in Hin. by apply elem_of_nil in Hin.
      * apply JsSet_add_NoDup.
        destruct (subscribers m !! i) as [old|] eqn:Hold; cbn [default];
          [by apply (Hsubs i) | constructor].
    + rewrite lookup_insert_ne by assumption. apply Hsubs.
  - unfold consistent.
    assert (Hframe : shortcuts (unsubscribe i callback m).1 = shortcuts m
                     ∧ pressedKeys (unsubscribe i callback m).1 = pressedKeys m
                     ∧ triggerEmitter (unsubscribe i callback m).1
                       = triggerEmitter m).
    { unfold unsubscribe, modify. cbn [fst].
      destruct (subscribers m !! i); [|by split_and!].
      by destruct (length _ =? 0)%nat. }
    destruct Hframe as (-> & -> & ->).
    split_and!; try assumption.
    intros k cbs. rewrite unsubscribe_lookup.
    destruct (decide (k = i)) as [->|Hne]; [|apply Hsubs].
    destruct (JsSet.delete callback (default [] (subscribers m !! i)))
      as [|c0 rest] eqn:Hdel; [discriminate|].
    intros [= <-]. split; [discriminate|].
    rewrite <- Hdel. unfold JsSet.delete. apply NoDup_filter.
    destruct (subscribers m !! i) as [old|] eqn:Hold; cbn [default];
      [by apply (Hsubs i) | constructor].
  - unfold consistent, onTrigger, modify. cbn.
    split_and!; try assumption. by apply JsSet_add_NoDup.
  - unfold consistent, offTrigger, modify. cbn.
    split_and!; try assumption. by apply NoDup_filter.
  - unfold consistent. rewrite registerShortcut_table.
    assert (Hframe : pressedKeys (registerShortcut navigator config m).1
                     = pressedKeys m
                     ∧ triggerEmitter (registerShortcut navigator config m).1
                       = triggerEmitter m
                     ∧ subscribers (registerShortcut navigator config m).1
                       = subscribers m) by (by split_and!).
    destruct Hframe as (-> & -> & ->).
    split_and!; try assumption;
      [by apply JsMap_set_NoDup | by apply JsMap_set_keyed].
  - unfold consistent.
    assert (Htable : Store.get (shortcuts
                       (registerShortcuts navigator configs m).1)
      = foldl (λ newMap config, JsMap.set (id config) config newMap)
          (Store.get (shortcuts m)) configs) by reflexivity.
    rewrite Htable.
    assert (Hframe : pressedKeys (registerShortcuts navigator configs m).1
                     = pressedKeys m
                     ∧ triggerEmitter (registerShortcuts navigator configs m).1
                       = triggerEmitter m
                     ∧ subscribers (registerShortcuts navigator configs m).1
                       = subscribers m) by (by split_and!).
    destruct Hframe as (-> & -> & ->).
    split_and!; try assumption;
      [by apply foldl_set_NoDup | by apply foldl_set_keyed].
  - unfold consistent. rewrite unregisterShortcut_table.
    assert (Hframe : pressedKeys (unregisterShortcut i m).1 = pressedKeys m
                     ∧ triggerEmitter (unregisterShortcut i m).1
                       = triggerEmitter m
                     ∧ subscribers (unregisterShortcut i m).1 = subscribers m)
      by (by split_and!).
    destruct Hframe as (-> & -> & ->).
    split_and!; try assumption.
    + rewrite JsMap_keys_delete by assumption. by apply NoDup_filter.
    + by apply JsMap_delete_keyed.
  - unfold consistent, enableShortcut. rewrite shortcuts_update_value.
    cbn [shortcuts_update Store.update fst with_shortcuts pressedKeys
         triggerEmitter subscribers].
    split_and!; try assumption;
      [by apply set_enabled_NoDup | by apply set_enabled_keyed].
  - unfold consistent, disableShortcut. rewrite shortcuts_update_value.
    cbn [shortcuts_update Store.update fst with_shortcuts pressedKeys
         triggerEmitter subscribers].
    split_and!; try assumption;
      [by apply set_enabled_NoDup | by apply set_enabled_keyed].
  - by apply (consistent_frame m).
Qed.

Lemma create_consistent navigator options : consistent (create navigator options).1.
Proof.
  assert (Hempty : ∀ sc dbg,
    consistent {| shortcuts := Store.createStore [];
                  lastTriggeredShortcut := Store.createStore None;
                  pressedKeys := Store.createStore [];
                  triggerEmitter := EventEmitter.create;
                  subscribers := ∅;
                  isInitialized := false;
                  currentScope := sc;
                  debug := dbg |}).
  { intros sc dbg. unfold consistent. cbn.
    split_and!; [constructor | constructor | constructor | constructor |].
    intros i cbs. by rewrite lookup_empty. }
  destruct options as [[configs|] sc dbg]; [|apply Hempty].
  unfold create. cbn [opt_shortcuts opt_scope opt_debug].
  destruct configs as [|c configs]; [apply Hempty|].
  change (default [] (Some (c :: configs))) with (c :: configs).
  cbn [length Nat.ltb Nat.leb].
  set (m0 := mkManager _ _ _ _ _ _ _ _).
  assert (Htable : Store.get (shortcuts (loadShortcuts navigator (c :: configs) m0).1)
    = foldl (λ newMap config, JsMap.set (id config) config newMap) []
        (c :: configs)).
  { unfold loadShortcuts.
    by rewrite andThen_state, checkConflicts_state, shortcuts_set_value,
         JsMap_from_configs. }
  unfold consistent. rewrite Htable.
  split_and!.
  - apply foldl_set_NoDup. constructor.
  - apply foldl_set_keyed. constructor.
  - constructor.
  - constructor.
  - intros i cbs. cbn. by rewrite lookup_empty.
Qed.

Lemma runAll_state navigator hasWindow calls m :
  (runAll navigator hasWindow calls m).1
  = foldl (λ m c, (run navigator hasWindow c m).1) m calls.
Proof.
  revert m. induction calls as [|c calls IH]; intros m; [reflexivity|].
  cbn [runAll foldr foldl]. rewrite andThen_state. apply IH.
Qed.

Lemma keys_values_keyed (table : Table) :
  Forall (λ e : string * ShortcutConfig, id e.2 = e.1) table →
  map id (JsMap.values table) = JsMap.keys table.
Proof.
  unfold JsMap.values, JsMap.keys.
  induction 1 as [|[k v] table Hkv _ IH]; [reflexivity|].
  cbn [map fst snd] in *. by rewrite Hkv, IH.
Qed.

(** X6.  From construction on, whatever methods are called and whatever
    window events arrive, in any order, the manager's collections stay
    well formed: the table holds one entry per id, each stored under the
    id of its definition; the pressed keys, the trigger listeners and every
    set of subscribers hold no element twice; and no empty subscriber set
    is kept.  So [getAllShortcuts] never lists an id twice and
    [getShortcut] finds every listed definition under its id. *)
Theorem manager_stays_consistent navigator hasWindow options calls :
  let m := (runAll navigator hasWindow calls (create navigator options).1).1 in
  consistent m
  ∧ NoDup (map id (getAllShortcuts m))
  ∧ ∀ config, config ∈ getAllShortcuts m → getShortcut (id config) m = Some config.
Proof.
  intros m.
  assert (Hm : consistent m).
  { subst m. rewrite runAll_state.
    generalize (create_consistent navigator options).
    generalize (create navigator options).1.
    induction calls as [|c calls IH]; intros m0 Hm0; [assumption|].
    cbn [foldl]. apply IH. by apply run_consistent. }
  split; [exact Hm|].
  destruct Hm as (Hkeys & Hkeyed & _).
  unfold getAllShortcuts, getShortcut. split.
  - by rewrite keys_values_keyed.
  - intros config Hin. unfold JsMap.values in Hin.
    apply list_elem_of_fmap in Hin as ([k v] & -> & Hin). cbn [snd].
    assert (Hid : id v = k)
      by exact (proj1 (Forall_forall _ _) Hkeyed (k, v) Hin).
    rewrite Hid. by apply JsMap_elem_get.
Qed.

(** ** Enabling and disabling *)

Lemma handleKeyDown_calls navigator now event m :
  let trace := (handleKeyDown navigator now event m).2 in
  match find (accepts navigator (currentScope m) event)
          (Store.get (shortcuts m)) with
  | Some (i, config) =>
      subscriberCalls trace
      = map (λ cb, (cb, mkShortcutEvent i now event))
          (default [] (subscribers m !! i))
      ∧ triggerCalls trace
        = map (λ l, (l, mkShortcutEvent i now event))
            (EventEmitter.listeners (triggerEmitter m))
  | None => subscriberCalls trace = [] ∧ triggerCalls trace = []
  end.
Proof.
  cbn zeta. rewrite handleKeyDown_unfold. cbn zeta.
  assert (Ht1s : subscriberCalls (keyAdded event m).2 = []).
  { unfold keyAdded, pressedKeys_update, subscriberCalls. cbn [snd Store.update].
    by rewrite (omap_map_None _ PressedKeysListener). }
  assert (Ht1t : triggerCalls (keyAdded event m).2 = []).
  { unfold keyAdded, pressedKeys_update, triggerCalls. cbn [snd Store.update].
    by rewrite (omap_map_None _ PressedKeysListener). }
  destruct (find _ _) as [[i config]|]; cbn [snd];
    rewrite subscriberCalls_app, triggerCalls_app, Ht1s, Ht1t; [|by split].
  pose proof (trigger_effects now event i config (keyAdded event m).1)
    as (_ & Hsubs & Htrig & _).
  cbn zeta in Hsubs, Htrig. by rewrite Hsubs, Htrig.
Qed.

Lemma isDisabled_with_enabled b config :
  isDisabled (with_enabled b config) = negb b.
Proof. by destruct b. Qed.

(** X7.  A disabled shortcut is out of the dispatch: on a table with one
    entry per id, after [disableShortcut(id)] no key-down selects the entry
    of that id, whatever the event and the scope, so its subscribers and
    the trigger listeners get no event carrying that id; and
    [getActiveShortcuts] lists no definition stored under that id. *)
Theorem disabled_shortcut_never_fires navigator now event i m :
  consistent m →
  let m' := (disableShortcut i m).1 in
  let trace := (handleKeyDown navigator now event m').2 in
  (∀ config, find (accepts navigator (currentScope m') event)
               (Store.get (shortcuts m')) ≠ Some (i, config))
  ∧ (∀ cb fired, (cb, fired) ∈ subscriberCalls trace → ev_id fired ≠ i)
  ∧ (∀ l fired, (l, fired) ∈ triggerCalls trace → ev_id fired ≠ i)
  ∧ (∀ config, config ∈ getActiveShortcuts m' → id config ≠ i).
Proof.
  intros (Hkeys & Hkeyed & _) m' trace.
  set (table := Store.get (shortcuts m)) in *.
  assert (Htable' : Store.get (shortcuts m')
    = match JsMap.get i table with
      | Some shortcut => JsMap.set i (with_enabled false shortcut) table
      | None => table
      end) by reflexivity.
  assert (Hkeys' : NoDup (JsMap.keys (Store.get (shortcuts m')))).
  { rewrite Htable'. by apply set_enabled_NoDup. }
  assert (Hkeyed' : Forall (λ e : string * ShortcutConfig, id e.2 = e.1)
                      (Store.get (shortcuts m'))).
  { rewrite Htable'. by apply set_enabled_keyed. }
  assert (Hstored : ∀ config, (i, config) ∈ Store.get (shortcuts m') →
                              isDisabled config = true).
  { intros config Hin. apply JsMap_elem_get in Hin; [|assumption].
    rewrite Htable' in Hin.
    destruct (JsMap.get i table) as [c|] eqn:Hget.
    - rewrite JsMap_get_set_eq in Hin. injection Hin as <-.
      apply isDisabled_with_enabled.
    - congruence. }
  assert (Hfind : ∀ config, find (accepts navigator (currentScope m') event)
                              (Store.get (shortcuts m')) ≠ Some (i, config)).
  { intros config Hf.
    apply find_Some_split in Hf as (l1 & l2 & Heq & _ & Hacc).
    assert (Hin : (i, config) ∈ Store.get (shortcuts m')).
    { rewrite Heq, elem_of_app, elem_of_cons. tauto. }
    apply Hstored in Hin. unfold accepts in Hacc. cbn [snd] in Hacc.
    rewrite Hin in Hacc. discriminate. }
  pose proof (handleKeyDown_calls navigator now event m') as Hcalls.
  cbn zeta in Hcalls. fold trace in Hcalls.
  split_and!.
  - exact Hfind.
  - intros cb fired Hin.
    destruct (find _ _) as [[j config]|] eqn:Hf.
    + destruct Hcalls as [Hs _]. rewrite Hs in Hin.
      apply list_elem_of_fmap in Hin as (? & [= _ ->] & _). cbn [ev_id].
      intros ->. by apply (Hfind config).
    + destruct Hcalls as [Hs _]. rewrite Hs in Hin. by apply elem_of_nil in Hin.
  - intros l fired Hin.
    destruct (find _ _) as [[j config]|] eqn:Hf.
    + destruct Hcalls as [_ Ht]. rewrite Ht in Hin.
      apply list_elem_of_fmap in Hin as (? & [= _ ->] & _). cbn [ev_id].
      intros ->. by apply (Hfind config).
    + destruct Hcalls as [_ Ht]. rewrite Ht in Hin. by apply elem_of_nil in Hin.
  - intros config Hin Hid. unfold getActiveShortcuts, getAllShortcuts in Hin.
    apply list_elem_of_filter in Hin as [Hactive Hin].
    unfold JsMap.values in Hin.
    apply list_elem_of_fmap in Hin as ([k v] & -> & Hin). cbn [snd] in *.
    assert (Hk : id v = k)
      by exact (proj1 (Forall_forall _ _) Hkeyed' (k, v) Hin).
    rewrite Hid in Hk. subst k. apply Hstored in Hin. congruence.
Qed.

Lemma disabled_shortcut_never_fires_witness :
  let m := (subscribe "save" 1
              (create None (mkOptions (Some [shortcut "save" "ctrl+s"])
                              None None)).1).1 in
  let event := mkKeyboardEvent "s" true false false false in
  consistent m
  ∧ subscriberCalls (handleKeyDown None 9 event m).2
    = [(1, mkShortcutEvent "save" 9 event)]
  ∧ ∀ cb fired,
      (cb, fired) ∈ subscriberCalls
                      (handleKeyDown None 9 event (disableShortcut "save" m).1).2 →
      ev_id fired ≠ "save".
Proof.
  intros m event.
  assert (Hm : consistent m).
  { apply (run_consistent None true (CallSubscribe "save" 1)).
    apply create_consistent. }
  split_and!; [exact Hm | vm_compute; reflexivity |].
  exact (proj1 (proj2 (disabled_shortcut_never_fires None 9 event "save" m Hm))).
Defined.



(** ** Subscriptions *)

Lemma default_Some {A : Type} (d x : A) : default d (Some x) = x.
Proof. reflexivity. Qed.

Lemma JsSet_delete_add_fresh {A : Type} `{EqDecision A} (s : list A) x :
  x ∉ s → JsSet.delete x (JsSet.add x s) = s.
Proof.
  intros Hx. unfold JsSet.add, JsSet.has, JsSet.delete.
  rewrite bool_decide_eq_false_2 by assumption.
  rewrite filter_app, filter_cons_False, filter_nil, app_nil_r
    by (intros H'; by apply H').
  induction s as [|a s IH]; [reflexivity|].
  apply not_elem_of_cons in Hx as [Hxa Hxs].
  rewrite filter_cons_True by congruence. by rewrite IH.
Qed.

Lemma unsubscribe_callbacks i callback m :
  default [] (subscribers (unsubscribe i callback m).1 !! i)
  = JsSet.delete callback (default [] (subscribers m !! i)).
Proof.
  rewrite unsubscribe_lookup, decide_True by reflexivity.
  by destruct (JsSet.delete callback _).
Qed.

Lemma unsubscribe_frame i callback m :
  let r := (unsubscribe i callback m).1 in
  shortcuts r = shortcuts m ∧ currentScope r = currentScope m
  ∧ triggerEmitter r = triggerEmitter m ∧ pressedKeys r = pressedKeys m.
Proof.
  cbn zeta. unfold unsubscribe, modify. cbn [fst].
  destruct (subscribers m !! i); [|by split_and!].
  by destruct (length _ =? 0)%nat.
Qed.

(** X9.  Unsubscribing a callback from an id removes, from every later
    key-down, exactly the calls of that callback for that id: the other
    subscribers of the id are still called, in the same order, and the
    callback is still called for other ids it is subscribed to. *)
Theorem unsubscribe_stops_calls navigator now event i callback m :
  subscriberCalls
    (handleKeyDown navigator now event (unsubscribe i callback m).1).2
  = filter (λ call, ¬ (call.1 = callback ∧ ev_id call.2 = i))
      (subscriberCalls (handleKeyDown navigator now event m).2).
Proof.
  pose proof (handleKeyDown_calls navigator now event m) as H.
  pose proof (handleKeyDown_calls navigator now event
                (unsubscribe i callback m).1) as H'.
  pose proof (unsubscribe_frame i callback m) as (Hs & Hc & _).
  cbn zeta in *. rewrite Hs, Hc in H'.
  destruct (find _ _) as [[j config]|].
  - destruct H as [-> _], H' as [-> _].
    destruct (decide (j = i)) as [->|Hne].
    + rewrite unsubscribe_callbacks. unfold JsSet.delete.
      induction (default [] (subscribers m !! i)) as [|cb cbs IH];
        [reflexivity|].
      cbn [map]. destruct (decide (cb = callback)) as [->|Hcb].
      * rewrite filter_cons_False by (intros H; by apply H).
        rewrite (filter_cons_False _ (callback, _)) by (cbn; tauto).
        exact IH.
      * rewrite filter_cons_True by assumption.
        rewrite (filter_cons_True _ (cb, _)) by (cbn; tauto).
        cbn [map]. by rewrite IH.
    + rewrite unsubscribe_lookup, decide_False by assumption.
      induction (default [] (subscribers m !! j)) as [|cb cbs IH];
        [reflexivity|].
      cbn [map]. rewrite filter_cons_True by (cbn; tauto). by rewrite <- IH.
  - destruct H as [-> _], H' as [-> _]. reflexivity.
Qed.

(** X10.  Subscribing adds the callback to the calls made when that id
    fires, after the callbacks subscribed before; a callback already
    subscribed to the id is not added again, so it is called once per
    trigger; calls for other ids do not change.  The id need not be in the
    table. *)
Theorem subscribe_adds_call navigator now event i callback m :
  let before := subscriberCalls (handleKeyDown navigator now event m).2 in
  let after :=
    subscriberCalls
      (handleKeyDown navigator now event (subscribe i callback m).1).2 in
  match find (accepts navigator (currentScope m) event)
          (Store.get (shortcuts m)) with
  | Some (j, _) =>
      if decide (j = i)
      then after
           = before
             ++ (if decide (callback ∈ default [] (subscribers m !! i))
                 then []
                 else [(callback, mkShortcutEvent i now event)])
      else after = before
  | None => after = [] ∧ before = []
  end.
Proof.
  intros before after.
  pose proof (handleKeyDown_calls navigator now event m) as H.
  pose proof (handleKeyDown_calls navigator now event
                (subscribe i callback m).1) as H'.
  cbn zeta in *.
  change (currentScope (subscribe i callback m).1) with (currentScope m) in H'.
  change (shortcuts (subscribe i callback m).1) with (shortcuts m) in H'.
  rewrite subscribe_subscribers in H'.
  destruct (find _ _) as [[j config]|].
  - destruct H as [Hb _], H' as [Ha _]. fold before in Hb. fold after in Ha.
    rewrite Ha, Hb. destruct (decide (j = i)) as [->|Hne].
    + rewrite lookup_insert_eq, default_Some. unfold JsSet.add, JsSet.has.
      destruct (decide (callback ∈ default [] (subscribers m !! i))) as [Hin|Hin].
      * rewrite bool_decide_eq_true_2 by assumption. lazy iota.
        by rewrite app_nil_r.
      * rewrite bool_decide_eq_false_2 by assumption. lazy iota.
        by rewrite map_app.
    + by rewrite lookup_insert_ne by congruence.
  - destruct H as [Hb _], H' as [Ha _]. by split.
Qed.

(** X11.  Subscribing a callback that is new for the id and unsubscribing
    it again restores the subscriber registry of a well-formed manager,
    key for key: an id that had no subscribers has no entry afterwards. *)
Theorem subscribe_unsubscribe_roundtrip i callback m :
  consistent m →
  callback ∉ default [] (subscribers m !! i) →
  subscribers ((subscribe i callback ;; unsubscribe i callback) m).1
  = subscribers m.
Proof.
  intros (_ & _ & _ & _ & Hsubs) Hfresh.
  rewrite andThen_state. apply map_eq. intros k.
  rewrite unsubscribe_lookup, subscribe_subscribers.
  destruct (decide (k = i)) as [->|Hne].
  - rewrite lookup_insert_eq, default_Some.
    rewrite JsSet_delete_add_fresh by assumption.
    destruct (subscribers m !! i) as [old|] eqn:Hold; [|reflexivity].
    rewrite default_Some.
    destruct old as [|c0 rest]; [|reflexivity].
    by destruct (Hsubs i [] Hold).
  - by rewrite lookup_insert_ne by congruence.
Qed.

Lemma subscribe_unsubscribe_roundtrip_witness :
  let m := (subscribe "save" 1 (create None (mkOptions None None None)).1).1 in
  consistent m
  ∧ (2 ∉ default [] (subscribers m !! "save"))
  ∧ subscribers ((subscribe "save" 2 ;; unsubscribe "save" 2) m).1
    = subscribers m.
Proof.
  intros m.
  assert (Hm : consistent m).
  { apply (run_consistent None true (CallSubscribe "save" 1)).
    apply create_consistent. }
  assert (Hfresh : 2 ∉ default [] (subscribers m !! "save")).
  { apply (bool_decide_unpack _). vm_compute. exact I. }
  split_and!; [exact Hm | exact Hfresh |].
  exact (subscribe_unsubscribe_roundtrip "save" 2 m Hm Hfresh).
Defined.

(** ** Pressed keys *)

(** X12.  A key-up removes the lower-cased key of its event and nothing
    else; a blur empties the pressed keys.  A key-down that fires nothing,
    of a key that was not held, followed by the key-up of the same key in
    any letter case gives back the pressed keys. *)
Theorem keyup_releases navigator now down up m :
  let pressed m := Store.get (pressedKeys m) in
  (∀ k, k ∈ pressed (handleKeyUp up m).1
        ↔ k ∈ pressed m ∧ k ≠ toLowerCase (key up))
  ∧ pressed (handleBlur m).1 = []
  ∧ (find (accepts navigator (currentScope m) down) (Store.get (shortcuts m))
       = None →
     toLowerCase (key down) ∉ pressed m →
     toLowerCase (key up) = toLowerCase (key down) →
     pressed ((handleKeyDown navigator now down ;; handleKeyUp up) m).1
     = pressed m).
Proof.
  intros pressed. subst pressed. cbn beta. split_and!.
  - intros k. unfold handleKeyUp, pressedKeys_update. cbn.
    rewrite JsSet_elem_of_delete. tauto.
  - reflexivity.
  - intros Hfind Hfresh Hkey. rewrite andThen_state.
    unfold handleKeyUp at 1, pressedKeys_update.
    cbn [fst Store.update with_pressedKeys pressedKeys Store.get Store.value].
    change (Store.value (pressedKeys ?x)) with (Store.get (pressedKeys x)).
    rewrite handleKeyDown_pressedKeys, Hfind, Hkey.
    by apply JsSet_delete_add_fresh.
Qed.

Lemma keyup_releases_witness :
  let m := (create None (mkOptions (Some [shortcut "save" "ctrl+s"]) None None)).1 in
  let down := mkKeyboardEvent "S" false true false false in
  let up := mkKeyboardEvent "s" false false false false in
  find (accepts None (currentScope m) down) (Store.get (shortcuts m)) = None
  ∧ (toLowerCase (key down) ∉ Store.get (pressedKeys m))
  ∧ toLowerCase (key up) = toLowerCase (key down)
  ∧ Store.get (pressedKeys ((handleKeyDown None 1 down ;; handleKeyUp up) m).1)
    = Store.get (pressedKeys m).
Proof.
  intros m down up.
  assert (H1 : find (accepts None (currentScope m) down)
                 (Store.get (shortcuts m)) = None) by (vm_compute; reflexivity).
  assert (H2 : toLowerCase (key down) ∉ Store.get (pressedKeys m))
    by apply not_elem_of_nil.
  assert (H3 : toLowerCase (key up) = toLowerCase (key down)) by reflexivity.
  split_and!; [exact H1 | exact H2 | exact H3 |].
  exact (proj2 (proj2 (keyup_releases None 1 down up m)) H1 H2 H3).
Defined.

(** ** Activation *)

(** X13.  [init] and [destroy] are idempotent: a second call changes
    nothing and prints nothing.  Without a [window] neither does anything.
    With one, [init] on a manager that is not listening makes it listen and
    [destroy] then restores the manager.  While the manager is not
    listening, window events reach no handler. *)
Theorem init_destroy_lifecycle navigator hasWindow now event m :
  init hasWindow (init hasWindow m).1 = ((init hasWindow m).1, [])
  ∧ destroy hasWindow (destroy hasWindow m).1 = ((destroy hasWindow m).1, [])
  ∧ init false m = (m, []) ∧ destroy false m = (m, [])
  ∧ (isInitialized m = false →
     isInitialized (init true m).1 = true
     ∧ (destroy true (init true m).1).1 = m
     ∧ keydown navigator now event m = (m, [])
     ∧ keyup event m = (m, [])
     ∧ blur m = (m, [])).
Proof.
  split_and!.
  - unfold init. destruct (isInitialized m) eqn:Hi; cbn [fst];
      [by rewrite Hi|].
    destruct hasWindow; cbn; [reflexivity | by rewrite Hi].
  - unfold destroy. destruct (isInitialized m) eqn:Hi; cbn [fst negb];
      [|by rewrite Hi].
    destruct hasWindow; cbn; [reflexivity | by rewrite Hi].
  - unfold init. by destruct (isInitialized m).
  - unfold destroy. by destruct (isInitialized m).
  - intros Hi. unfold init, destroy, keydown, keyup, blur. rewrite Hi.
    split_and!; try reflexivity.
    destruct m. cbn in Hi. subst. reflexivity.
Qed.

Lemma init_destroy_lifecycle_witness :
  let m := (create None (mkOptions None None None)).1 in
  isInitialized m = false ∧ (destroy true (init true m).1).1 = m.
Proof.
  intros m.
  assert (Hi : isInitialized m = false) by reflexivity.
  split; [exact Hi|].
  pose proof (init_destroy_lifecycle None true 0
                (mkKeyboardEvent "a" false false false false) m)
    as (_ & _ & _ & _ & H).
  exact (proj1 (proj2 (H Hi))).
Defined.

(** ** The effects of a key-down, in order *)

Lemma handleKeyDown_trace navigator now event m :
  (handleKeyDown navigator now event m).2
  = map PressedKeysListener
      (map (λ l, (l, JsSet.add (toLowerCase (key event))
                       (Store.get (pressedKeys m))))
         (Store.listeners (pressedKeys m)))
    ++ match find (accepts navigator (currentScope m) event)
               (Store.get (shortcuts m)) with
       | Some (i, config) =>
           let fired := mkShortcutEvent i now event in
           (if preventsDefault config
            then [PreventDefault event; StopPropagation event] else [])
           ++ map LastTriggeredListener
                (map (λ l, (l, Some fired))
                   (Store.listeners (lastTriggeredShortcut m)))
           ++ map TriggerListener
                (map (λ l, (l, fired)) (EventEmitter.listeners (triggerEmitter m)))
           ++ map (λ cb, SubscriberCalled cb fired)
                (default [] (subscribers m !! i))
           ++ map PressedKeysListener
                (map (λ l, (l, Store.get (pressedKeys
                                 (handleKeyDown navigator now event m).1)))
                   (Store.listeners (pressedKeys m)))
           ++ (if debug m
               then [ConsoleLog ("[Modkey] " +:+ "Shortcut triggered: " +:+ i)]
               else [])
       | None => []
       end.
Proof.
  assert (Hp := handleKeyDown_pressedKeys navigator now event m).
  rewrite handleKeyDown_unfold in *. cbn zeta in *.
  destruct (find _ _) as [[i config]|]; cbn [fst snd] in *; [|reflexivity].
  rewrite trigger_trace. cbn zeta. rewrite Hp. reflexivity.
Qed.

(** X14.  The effects of a key-down that fires come in a fixed order:
    the pressed-key listeners see the set with the new key; then the event
    is prevented and stopped, if the definition asks for it; the
    last-triggered listeners, the trigger listeners and the subscribers of
    the id are called, each group in subscription order and all with the
    same trigger event; the pressed-key listeners see the cleared set; the
    debug line is printed last.  A key-down that fires nothing only
    notifies the pressed-key listeners. *)
Theorem handleKeyDown_effect_order navigator now event m :
  let held := JsSet.add (toLowerCase (key event)) (Store.get (pressedKeys m)) in
  let kept := Store.get (pressedKeys (handleKeyDown navigator now event m).1) in
  let pressedCalls v :=
    map (λ l, PressedKeysListener (l, v)) (Store.listeners (pressedKeys m)) in
  (handleKeyDown navigator now event m).2
  = pressedCalls held
    ++ match find (accepts navigator (currentScope m) event)
               (Store.get (shortcuts m)) with
       | Some (i, config) =>
           let fired := mkShortcutEvent i now event in
           (if preventsDefault config
            then [PreventDefault event; StopPropagation event] else [])
           ++ map (λ l, LastTriggeredListener (l, Some fired))
                (Store.listeners (lastTriggeredShortcut m))
           ++ map (λ l, TriggerListener (l, fired))
                (EventEmitter.listeners (triggerEmitter m))
           ++ map (λ cb, SubscriberCalled cb fired)
                (default [] (subscribers m !! i))
           ++ pressedCalls kept
           ++ (if debug m
               then [ConsoleLog ("[Modkey] Shortcut triggered: " +:+ i)]
               else [])
       | None => []
       end.
Proof.
  cbn zeta. rewrite handleKeyDown_trace at 1. rewrite !map_map.
  destruct (find _ _) as [[i config]|]; [|reflexivity].
  cbn zeta. by rewrite !map_map.
Qed.

(** X15.  The event's default action is prevented, and its propagation
    stopped, exactly when the key-down fires a definition whose
    [preventDefault] is not [false]; an event that fires nothing is never
    prevented or stopped. *)
Theorem preventDefault_only_when_fired navigator now event m :
  let trace := (handleKeyDown navigator now event m).2 in
  let asked :=
    ∃ i config,
      find (accepts navigator (currentScope m) event) (Store.get (shortcuts m))
        = Some (i, config)
      ∧ preventDefault config ≠ Some false in
  (∀ e, PreventDefault e ∈ trace ↔ e = event ∧ asked)
  ∧ (∀ e, StopPropagation e ∈ trace ↔ e = event ∧ asked).
Proof.
  cbn zeta. rewrite handleKeyDown_trace.
  assert (Hprevents : ∀ config,
            preventsDefault config = true ↔ preventDefault config ≠ Some false).
  { intros config. unfold preventsDefault.
    destruct (preventDefault config) as [[|]|]; split; congruence. }
  assert (Hno : ∀ e l,
            (PreventDefault e ∉ map PressedKeysListener l)
            ∧ (StopPropagation e ∉ map PressedKeysListener l)).
  { intros e l. split; intros Hin;
      apply list_elem_of_fmap in Hin as (? & [=] & _). }
  destruct (find _ _) as [[i config]|].
  - cbn zeta. split; intros e; rewrite !elem_of_app; split.
    + intros [Hin|[Hin|[Hin|[Hin|[Hin|[Hin|Hin]]]]]].
      * by apply Hno in Hin.
      * destruct (preventsDefault config) eqn:Hpd; [|by apply elem_of_nil in Hin].
        apply elem_of_cons in Hin as [[= ->]|Hin];
          [|by apply list_elem_of_singleton in Hin].
        split; [reflexivity|]. exists i, config. split; [reflexivity|].
        by apply Hprevents.
      * apply list_elem_of_fmap in Hin as (? & [=] & _).
      * apply list_elem_of_fmap in Hin as (? & [=] & _).
      * apply list_elem_of_fmap in Hin as (? & [=] & _).
      * by apply Hno in Hin.
      * destruct (debug m); [|by apply elem_of_nil in Hin].
        by apply list_elem_of_singleton in Hin.
    + intros [-> (i' & config' & [= <- <-] & Hpd)]. right; left.
      apply Hprevents in Hpd. rewrite Hpd. apply list_elem_of_here.
    + intros [Hin|[Hin|[Hin|[Hin|[Hin|[Hin|Hin]]]]]].
      * by apply Hno in Hin.
      * destruct (preventsDefault config) eqn:Hpd; [|by apply elem_of_nil in Hin].
        apply elem_of_cons in Hin as [[=]|Hin].
        apply list_elem_of_singleton in Hin as [= ->].
        split; [reflexivity|]. exists i, config. split; [reflexivity|].
        by apply Hprevents.
      * apply list_elem_of_fmap in Hin as (? & [=] & _).
      * apply list_elem_of_fmap in Hin as (? & [=] & _).
      * apply list_elem_of_fmap in Hin as (? & [=] & _).
      * by apply Hno in Hin.
      * destruct (debug m); [|by apply elem_of_nil in Hin].
        by apply list_elem_of_singleton in Hin.
    + intros [-> (i' & config' & [= <- <-] & Hpd)]. right; left.
      apply Hprevents in Hpd. rewrite Hpd.
      apply list_elem_of_further, list_elem_of_here.
  - split; intros e; rewrite elem_of_app; split.
    + intros [Hin|Hin]; [by apply Hno in Hin | by apply elem_of_nil in Hin].
    + by intros [_ (? & ? & [=] & _)].
    + intros [Hin|Hin]; [by apply Hno in Hin | by apply elem_of_nil in Hin].
    + by intros [_ (? & ? & [=] & _)].
Qed.

(** ** Listeners of the store and of the emitter *)

Lemma filter_map_fst_ne {A B : Type} `{EqDecision A} (l : list A) (x : A) (v : B) :
  filter (λ c : A * B, c.1 ≠ x) (map (λ a, (a, v)) l)
  = map (λ a, (a, v)) (JsSet.delete x l).
Proof.
  unfold JsSet.delete. induction l as [|a l IH]; [reflexivity|].
  cbn [map]. destruct (decide (a = x)) as [->|Hne].
  - rewrite (filter_cons_False _ (x, v)) by (cbn; intros H'; by apply H').
    rewrite filter_cons_False by (intros H'; by apply H'). exact IH.
  - rewrite (filter_cons_True _ (a, v)) by (cbn; assumption).
    rewrite filter_cons_True by assumption. cbn [map]. by rewrite IH.
Qed.

Lemma JsSet_add_idemp {A : Type} `{EqDecision A} (s : list A) x :
  JsSet.add x (JsSet.add x s) = JsSet.add x s.
Proof.
  unfold JsSet.add at 1. unfold JsSet.has.
  rewrite bool_decide_eq_true_2; [reflexivity|].
  apply JsSet_elem_of_add. by left.
Qed.

Lemma count_in_NoDup {A : Type} `{EqDecision A} (s : list A) x :
  NoDup s → x ∈ s → length (filter (λ y, y = x) s) = 1.
Proof.
  induction 1 as [|a s Ha Hs IH]; intros Hin; [by apply elem_of_nil in Hin|].
  destruct (decide (a = x)) as [->|Hne].
  - rewrite filter_cons_True by reflexivity. cbn [length]. f_equal.
    clear IH Hin Hs. induction s as [|b s IH]; [reflexivity|].
    apply not_elem_of_cons in Ha as [Hb Hs].
    rewrite filter_cons_False by congruence. by apply IH.
  - rewrite filter_cons_False by assumption. apply IH.
    apply elem_of_cons in Hin as [->|Hin]; [contradiction | assumption].
Qed.

(** X16.  After the unsubscribe closure of a listener has run, [set]
    and [update] on the store call every other listener, in subscription
    order, with the new value (the value given to [set], the updater's
    result for [update]), and do not call that listener: the calls are
    those made without the closure, minus its own.  The closure leaves the
    stored value alone. *)
Theorem Store_unsubscribed_listener_silent {T : Type} (s : Store.t T)
    (listener : Listener) (v : T) (f : T → T) :
  let s' := Store.unsubscribe listener s in
  let others := filter (λ l, l ≠ listener) (Store.listeners s) in
  (Store.set v s').2 = map (λ l, (l, v)) others
  ∧ (Store.update f s').2 = map (λ l, (l, f (Store.get s))) others
  ∧ (Store.set v s).2 = map (λ l, (l, v)) (Store.listeners s)
  ∧ (Store.update f s).2 = map (λ l, (l, f (Store.get s))) (Store.listeners s)
  ∧ (Store.set v s').2 = filter (λ call, call.1 ≠ listener) (Store.set v s).2
  ∧ (Store.update f s').2
    = filter (λ call, call.1 ≠ listener) (Store.update f s).2
  ∧ Store.get s' = Store.get s
  ∧ Store.get (Store.set v s').1 = v
  ∧ Store.get (Store.update f s').1 = f (Store.get s).
Proof.
  cbn zeta. unfold Store.set, Store.update, Store.notify, Store.unsubscribe.
  cbn [fst snd Store.value Store.listeners Store.get].
  rewrite !filter_map_fst_ne. unfold JsSet.delete. by split_and!.
Qed.

(** X17.  The listeners of a store form a set: subscribing a listener
    that is already subscribed changes nothing, so however often it
    subscribed, one [set] calls it exactly once, and one unsubscribe removes
    it; subscribing a new listener and unsubscribing it restores the
    listeners; without [immediate], [subscribe] calls nobody. *)
Theorem Store_listeners_form_a_set {T : Type} (s : Store.t T)
    (listener : Listener) (immediate : bool) (v : T) :
  let once := (Store.subscribe listener immediate s).1.1 in
  let twice := (Store.subscribe listener immediate once).1.1 in
  twice = once
  ∧ (Store.subscribe listener false s).1.2 = []
  ∧ (NoDup (Store.listeners s) →
     NoDup (Store.listeners once)
     ∧ length (filter (λ call, call.1 = listener) (Store.set v twice).2) = 1
     ∧ listener ∉ map fst (Store.set v (Store.unsubscribe listener twice)).2)
  ∧ (listener ∉ Store.listeners s →
     Store.listeners (Store.unsubscribe listener once) = Store.listeners s).
Proof.
  cbn zeta. unfold Store.subscribe, Store.unsubscribe, Store.set, Store.notify.
  cbn [fst snd Store.value Store.listeners].
  rewrite JsSet_add_idemp. split_and!; try reflexivity.
  - intros Hnd.
    assert (Hnd' : NoDup (JsSet.add listener (Store.listeners s)))
      by (by apply JsSet_add_NoDup).
    split_and!; [exact Hnd' | |].
    + rewrite <- (count_in_NoDup (JsSet.add listener (Store.listeners s)) listener)
        by (try assumption; apply JsSet_elem_of_add; by left).
      generalize (JsSet.add listener (Store.listeners s)).
      induction l as [|a l IH]; [reflexivity|].
      cbn [map]. destruct (decide (a = listener)) as [->|Hne].
      * rewrite (filter_cons_True _ (listener, v)) by reflexivity.
        rewrite filter_cons_True by reflexivity. cbn [length]. by rewrite IH.
      * rewrite (filter_cons_False _ (a, v)) by (cbn; assumption).
        by rewrite filter_cons_False by assumption.
    + rewrite map_map. cbn [fst]. rewrite map_id.
      rewrite JsSet_elem_of_delete. tauto.
  - intros Hfresh. by apply JsSet_delete_add_fresh.
Qed.

Lemma Store_listeners_form_a_set_witness :
  let s := (Store.subscribe 4 true (Store.createStore 0%nat)).1.1 in
  NoDup (Store.listeners s)
  ∧ length (filter (λ call, call.1 = 4)
              (Store.set 7%nat
                 (Store.subscribe 4 true (Store.subscribe 4 true s).1.1).1.1).2)
    = 1.
Proof.
  intros s.
  assert (Hs : NoDup (Store.listeners s)).
  { apply (bool_decide_unpack _). vm_compute. exact I. }
  split; [exact Hs|].
  pose proof (Store_listeners_form_a_set s 4 true 7%nat) as (_ & _ & H & _).
  exact (proj1 (proj2 (H Hs))).
Defined.

(** X18.  The emitter calls, on [emit], every subscribed listener once in
    subscription order with the emitted value; a listener that subscribes
    again is not added a second time; after its unsubscribe closure it is
    no longer called while the others are, in the same order; after
    [clear] nobody is called and [size] is zero. *)
Theorem EventEmitter_emit_reaches_subscribers {T : Type}
    (e : EventEmitter.t) (listener : Listener) (v : T) :
  let once := (EventEmitter.subscribe listener e).1 in
  EventEmitter.emit v once
  = EventEmitter.emit v e
    ++ (if decide (listener ∈ EventEmitter.listeners e) then []
        else [(listener, v)])
  ∧ (EventEmitter.subscribe listener once).1 = once
  ∧ EventEmitter.emit v ((EventEmitter.subscribe listener e).2 once)
    = filter (λ call, call.1 ≠ listener) (EventEmitter.emit v once)
  ∧ EventEmitter.emit v (EventEmitter.unsubscribe listener e)
    = filter (λ call, call.1 ≠ listener) (EventEmitter.emit v e)
  ∧ EventEmitter.emit v (EventEmitter.clear e) = []
  ∧ EventEmitter.size (EventEmitter.clear e) = 0
  ∧ EventEmitter.size once
    = (if decide (listener ∈ EventEmitter.listeners e)
       then EventEmitter.size e else S (EventEmitter.size e)).
Proof.
  cbn zeta. unfold EventEmitter.subscribe, EventEmitter.unsubscribe,
    EventEmitter.emit, EventEmitter.clear, EventEmitter.size.
  cbn [fst snd EventEmitter.listeners].
  rewrite JsSet_add_idemp, !filter_map_fst_ne.
  unfold JsSet.add, JsSet.has.
  destruct (decide (listener ∈ EventEmitter.listeners e)) as [Hin|Hin].
  - rewrite bool_decide_eq_true_2 by assumption. rewrite app_nil_r.
    by split_and!.
  - rewrite bool_decide_eq_false_2 by assumption.
    rewrite map_app, length_app. cbn [length map]. split_and!; try reflexivity.
    lia.
Qed.

(** X19.  A listener given to [onTrigger] is called for every key-down
    that fires, whatever the id, once and after the listeners registered
    before it, with the trigger event; it is not called when nothing
    fires.  After the closure that [onTrigger] returned, it is no longer
    called and the other trigger listeners are, in the same order. *)
Theorem onTrigger_receives_every_trigger navigator now event listener m :
  let calls m := triggerCalls (handleKeyDown navigator now event m).2 in
  match find (accepts navigator (currentScope m) event)
          (Store.get (shortcuts m)) with
  | Some (i, _) =>
      calls (onTrigger listener m).1
      = calls m
        ++ (if decide (listener ∈ EventEmitter.listeners (triggerEmitter m))
            then [] else [(listener, mkShortcutEvent i now event)])
  | None => calls (onTrigger listener m).1 = []
  end
  ∧ calls (offTrigger listener m).1
    = filter (λ call, call.1 ≠ listener) (calls m).
Proof.
  cbn zeta.
  pose proof (handleKeyDown_calls navigator now event m) as H.
  pose proof (handleKeyDown_calls navigator now event (onTrigger listener m).1)
    as Hon.
  pose proof (handleKeyDown_calls navigator now event (offTrigger listener m).1)
    as Hoff.
  cbn zeta in *.
  change (currentScope (onTrigger listener m).1) with (currentScope m) in Hon.
  change (shortcuts (onTrigger listener m).1) with (shortcuts m) in Hon.
  change (currentScope (offTrigger listener m).1) with (currentScope m) in Hoff.
  change (shortcuts (offTrigger listener m).1) with (shortcuts m) in Hoff.
  change (EventEmitter.listeners (triggerEmitter (onTrigger listener m).1))
    with (JsSet.add listener (EventEmitter.listeners (triggerEmitter m))) in Hon.
  change (EventEmitter.listeners (triggerEmitter (offTrigger listener m).1))
    with (JsSet.delete listener (EventEmitter.listeners (triggerEmitter m)))
    in Hoff.
  destruct (find _ _) as [[i config]|].
  - destruct H as [_ ->], Hon as [_ ->], Hoff as [_ ->].
    rewrite filter_map_fst_ne. split; [|reflexivity].
    unfold JsSet.add, JsSet.has.
    destruct (decide (listener ∈ EventEmitter.listeners (triggerEmitter m))).
    + rewrite bool_decide_eq_true_2 by assumption. by rewrite app_nil_r.
    + rewrite bool_decide_eq_false_2 by assumption. by rewrite map_app.
  - destruct H as [_ ->], Hon as [_ ->], Hoff as [_ ->]. by split.
Qed.

(** ** Strings: lower-casing and trimming *)

Lemma lowerChar_facts c :
  lowerChar (lowerChar c) = lowerChar c
  ∧ Ascii.eqb (lowerChar c) "+" = Ascii.eqb c "+"
  ∧ isWhiteSpace (lowerChar c) = isWhiteSpace c
  ∧ (isWhiteSpace c = true → isWordChar c = false ∧ Ascii.eqb c "m" = false).
Proof.
  destruct c as [[] [] [] [] [] [] [] []]; vm_compute;
    (split_and!; [reflexivity | reflexivity | reflexivity |]);
    first [by intros _ | discriminate].
Qed.

Lemma toLowerCase_app a b : toLowerCase (a +:+ b) = toLowerCase a +:+ toLowerCase b.
Proof.
  induction a as [|c a IH]; [reflexivity|].
  rewrite string_app_cons. cbn [toLowerCase]. by rewrite IH, string_app_cons.
Qed.

Lemma toLowerCase_idemp s : toLowerCase (toLowerCase s) = toLowerCase s.
Proof.
  induction s as [|c s IH]; [reflexivity|].
  cbn [toLowerCase]. rewrite IH. f_equal. apply lowerChar_facts.
Qed.

Lemma toLowerCase_empty s : toLowerCase s = EmptyString → s = EmptyString.
Proof. by destruct s. Qed.

Lemma split_toLowerCase s :
  split "+" (toLowerCase s) = map toLowerCase (split "+" s).
Proof.
  induction s as [|c s IH]; [reflexivity|].
  cbn [toLowerCase split].
  rewrite (proj1 (proj2 (lowerChar_facts c))), IH.
  destruct (Ascii.eqb c "+"); [reflexivity|].
  destruct (split "+" s) as [|t ts] eqn:Hs; [by apply split_nonempty in Hs|].
  reflexivity.
Qed.

Lemma trimEnd_cons c r :
  trimEnd (String c r)
  = match trimEnd r with
    | EmptyString => if isWhiteSpace c then EmptyString else String c EmptyString
    | r' => String c r'
    end.
Proof. reflexivity. Qed.

Lemma trimEnd_cons_solid c r :
  isWhiteSpace c = false → trimEnd (String c r) = String c (trimEnd r).
Proof. intros Hc. rewrite trimEnd_cons, Hc. by destruct (trimEnd r). Qed.

Lemma trimStart_trimmed s :
  match trimStart s with
  | EmptyString => True
  | String c _ => isWhiteSpace c = false
  end.
Proof.
  induction s as [|c s IH]; [exact I|].
  cbn [trimStart]. by destruct (isWhiteSpace c) eqn:Hc.
Qed.

Lemma trimEnd_head s :
  match trimEnd s with
  | EmptyString => match s with
                   | EmptyString => True
                   | String c _ => isWhiteSpace c = true
                   end
  | String c' _ => ∃ r, s = String c' r
  end.
Proof.
  destruct s as [|c s]; [exact I|].
  rewrite trimEnd_cons. destruct (trimEnd s); [|by eexists].
  destruct (isWhiteSpace c) eqn:Hc; [reflexivity | by eexists].
Qed.

Lemma trimEnd_idemp s : trimEnd (trimEnd s) = trimEnd s.
Proof.
  induction s as [|c s IH]; [reflexivity|].
  rewrite trimEnd_cons. destruct (trimEnd s) as [|c' s'] eqn:Hs.
  - destruct (isWhiteSpace c) eqn:Hc; [reflexivity|].
    by rewrite trimEnd_cons_solid.
  - rewrite trimEnd_cons, IH. reflexivity.
Qed.

Lemma trimStart_trimEnd s :
  match s with
  | EmptyString => True
  | String c _ => isWhiteSpace c = false
  end →
  trimStart (trimEnd s) = trimEnd s.
Proof.
  destruct s as [|c s]; [reflexivity|]. intros Hc.
  rewrite trimEnd_cons_solid by assumption. cbn [trimStart]. by rewrite Hc.
Qed.

Lemma trim_idemp s : trim (trim s) = trim s.
Proof.
  unfold trim.
  rewrite (trimStart_trimEnd (trimStart s)) by apply trimStart_trimmed.
  apply trimEnd_idemp.
Qed.

Lemma last_map {A B : Type} (f : A → B) (l : list A) (d : A) :
  List.last (map f l) (f d) = f (List.last l d).
Proof.
  induction l as [|a l IH]; [reflexivity|].
  destruct l as [|b l]; [reflexivity|]. exact IH.
Qed.

Lemma parsed_key_trimmed navigator ks :
  trim (parsed_key (parseKeyCombination navigator ks))
  = parsed_key (parseKeyCombination navigator ks).
Proof.
  unfold parseKeyCombination. cbn [parsed_key].
  change EmptyString with (trim EmptyString) at 1 2.
  rewrite last_map. apply trim_idemp.
Qed.

(** X20.  The literal key of a parsed combination carries no white space
    at its ends, because every token is trimmed; an event whose lower-cased
    key does (the space bar's key is one space) therefore matches no
    combination at all, on any platform. *)
Theorem padded_event_key_never_matches navigator event ks :
  trim (normalizeKey (key event)) ≠ normalizeKey (key event) →
  matchesKeyCombination navigator event ks = false.
Proof.
  intros Hpad. apply not_true_is_false. intros Hm.
  apply matchesKeyCombination_iff in Hm as [Hk _].
  apply Hpad. rewrite Hk. apply parsed_key_trimmed.
Qed.

Lemma padded_event_key_never_matches_witness :
  let space := mkKeyboardEvent " " true false false false in
  trim (normalizeKey (key space)) ≠ normalizeKey (key space)
  ∧ matchesKeyCombination None space "ctrl+ " = false.
Proof.
  intros space.
  assert (Hpad : trim (normalizeKey (key space)) ≠ normalizeKey (key space))
    by (vm_compute; discriminate).
  split; [exact Hpad|].
  exact (padded_event_key_never_matches None space "ctrl+ " Hpad).
Defined.

Lemma split_app_plus_any a b :
  split "+" (a +:+ String "+" b) = split "+" a ++ split "+" b.
Proof.
  induction a as [|c a IH].
  - reflexivity.
  - rewrite string_app_cons. cbn [split]. rewrite IH.
    destruct (Ascii.eqb c "+"); [reflexivity|].
    destruct (split "+" a) as [|t ts] eqn:Ha; [by apply split_nonempty in Ha|].
    reflexivity.
Qed.

Lemma last_app_nonempty {A : Type} (l1 l2 : list A) (d : A) :
  l2 ≠ [] → List.last (l1 ++ l2) d = List.last l2 d.
Proof.
  intros Hl2. induction l1 as [|a l1 IH]; [reflexivity|].
  cbn [app]. destruct (l1 ++ l2) eqn:E; [|exact IH].
  apply app_eq_nil in E as [_ ?]. contradiction.
Qed.

Lemma parsed_key_trailing_plus navigator s :
  parsed_key (parseKeyCombination navigator (s +:+ "+")) = EmptyString.
Proof.
  unfold parseKeyCombination, resolvePlatformModifier. cbn [parsed_key].
  rewrite replaceMod_app_plus, toLowerCase_app.
  change (toLowerCase (String "+" (replaceMod _ false EmptyString)))
    with (String "+" EmptyString).
  rewrite split_app_plus_any, map_app.
  rewrite last_app_nonempty by discriminate. reflexivity.
Qed.

(** X21.  A combination that ends in ['+'] has the empty string as its
    literal key, so it matches no event whose key is not empty: the plus
    key cannot be bound by writing it after the separator. *)
Theorem trailing_plus_never_matches navigator event s :
  key event ≠ EmptyString →
  matchesKeyCombination navigator event (s +:+ "+") = false.
Proof.
  intros Hkey. apply not_true_is_false. intros Hm.
  apply matchesKeyCombination_iff in Hm as [Hk _].
  rewrite parsed_key_trailing_plus in Hk.
  by apply toLowerCase_empty in Hk.
Qed.

Lemma trailing_plus_never_matches_witness :
  let plus := mkKeyboardEvent "+" true false false false in
  key plus ≠ EmptyString
  ∧ matchesKeyCombination None plus ("ctrl+" +:+ "+") = false.
Proof.
  intros plus.
  assert (Hkey : key plus ≠ EmptyString) by discriminate.
  split; [exact Hkey|].
  exact (trailing_plus_never_matches None plus "ctrl+" Hkey).
Defined.

(** ** Modifier tokens *)

Lemma JsSet_elem_of_from {A : Type} `{EqDecision A} (xs : list A) x :
  x ∈ JsSet.from xs ↔ x ∈ xs.
Proof.
  unfold JsSet.from.
  assert (H' : ∀ acc, x ∈ foldl (λ s y, JsSet.add y s) acc xs ↔ x ∈ acc ∨ x ∈ xs).
  { induction xs as [|a xs IH]; intros acc; cbn [foldl].
    - split; [by left | intros [?|Hn]; [assumption | by apply elem_of_nil in Hn]].
    - rewrite IH, JsSet_elem_of_add, elem_of_cons. tauto. }
  rewrite H'. split; [|by right].
  intros [Hn|?]; [by apply elem_of_nil in Hn | assumption].
Qed.

Lemma parseKeyCombination_tokens navigator ks :
  parseKeyCombination navigator ks
  = {| parsed_key := List.last (tokens navigator ks) EmptyString;
       modifiers := JsSet.from (removelast (tokens navigator ks)) |}.
Proof. reflexivity. Qed.

(** X22.  Matching depends on a combination only through its last token
    and through which of [ctrl], [shift], [alt] and [meta] occur among the
    tokens before it: their order, their repetition and any other token in
    modifier position make no difference. *)
Theorem modifier_order_is_irrelevant navigator ks1 ks2 :
  List.last (tokens navigator ks1) EmptyString
    = List.last (tokens navigator ks2) EmptyString →
  (∀ x, x ∈ ["ctrl"; "shift"; "alt"; "meta"] →
        (x ∈ removelast (tokens navigator ks1)
         ↔ x ∈ removelast (tokens navigator ks2))) →
  ∀ event,
    matchesKeyCombination navigator event ks1
    = matchesKeyCombination navigator event ks2.
Proof.
  intros Hkey Hmods event. unfold matchesKeyCombination.
  rewrite !parseKeyCombination_tokens. cbn [parsed_key modifiers]. rewrite Hkey.
  assert (Hhas : ∀ x, x ∈ ["ctrl"; "shift"; "alt"; "meta"] →
            JsSet.has (JsSet.from (removelast (tokens navigator ks1))) x
            = JsSet.has (JsSet.from (removelast (tokens navigator ks2))) x).
  { intros x Hx. unfold JsSet.has. apply bool_decide_ext.
    rewrite !JsSet_elem_of_from. by apply Hmods. }
  rewrite (Hhas "ctrl"), (Hhas "shift"), (Hhas "alt"), (Hhas "meta");
    [reflexivity | | | |]; rewrite !elem_of_cons; tauto.
Qed.

Lemma modifier_order_is_irrelevant_witness :
  let ks1 := "ctrl+shift+s" in
  let ks2 := "hyper+shift+ctrl+shift+s" in
  List.last (tokens None ks1) EmptyString = List.last (tokens None ks2) EmptyString
  ∧ ∀ event, matchesKeyCombination None event ks1
             = matchesKeyCombination None event ks2.
Proof.
  intros ks1 ks2.
  assert (Hkey : List.last (tokens None ks1) EmptyString
                 = List.last (tokens None ks2) EmptyString) by reflexivity.
  assert (Hmods : ∀ x, x ∈ ["ctrl"; "shift"; "alt"; "meta"] →
            (x ∈ removelast (tokens None ks1)
             ↔ x ∈ removelast (tokens None ks2))).
  { intros x Hx.
    change (removelast (tokens None ks1)) with ["ctrl"; "shift"].
    change (removelast (tokens None ks2)) with ["hyper"; "shift"; "ctrl"; "shift"].
    rewrite !elem_of_cons in *. rewrite !elem_of_nil in *.
    destruct Hx as [->|[->|[->|[->|[]]]]]; split; intros H';
      repeat (destruct H' as [H'|H']; try discriminate H'); tauto. }
  split; [exact Hkey|].
  exact (modifier_order_is_irrelevant None ks1 ks2 Hkey Hmods).
Defined.

(** ** Resolution commutes with trimming *)

Section ResolveTrim.
Variable modifier : string.
Hypothesis modifier_known : modifier = "meta" ∨ modifier = "ctrl".

Lemma replaceMod_head_true c r :
  replaceMod modifier true (String c r)
  = String c (replaceMod modifier (isWordChar c) r).
Proof. by rewrite replaceMod_eq. Qed.

Lemma replaceMod_white c r prev :
  isWhiteSpace c = true →
  replaceMod modifier prev (String c r) = String c (replaceMod modifier false r).
Proof.
  intros Hc. destruct (lowerChar_facts c) as (_ & _ & _ & Hw).
  destruct (Hw Hc) as [Hword Hm].
  rewrite replaceMod_eq, Hword.
  assert (Hno : modAt prev (String c r) = false).
  { unfold modAt. cbn [startsWith]. rewrite Ascii.eqb_sym, Hm.
    by rewrite andb_false_r. }
  by rewrite Hno.
Qed.

Lemma replaceMod_nonempty prev s :
  s ≠ EmptyString → replaceMod modifier prev s ≠ EmptyString.
Proof.
  destruct s as [|c r]; [done|]. intros _. rewrite replaceMod_eq.
  destruct (modAt prev (String c r)); [|discriminate].
  by destruct modifier_known as [-> | ->].
Qed.

Lemma trimStart_modifier x :
  trimStart (toLowerCase (modifier +:+ x)) = toLowerCase (modifier +:+ x).
Proof. by destruct modifier_known as [-> | ->]. Qed.

Lemma trimEnd_modifier x :
  trimEnd (toLowerCase (modifier +:+ x))
  = toLowerCase modifier +:+ trimEnd (toLowerCase x).
Proof.
  destruct modifier_known as [-> | ->];
    rewrite !string_app_cons, string_app_nil; cbn [toLowerCase];
    rewrite !trimEnd_cons_solid by reflexivity; reflexivity.
Qed.

Lemma trimStart_resolve a :
  trimStart (toLowerCase (replaceMod modifier false a))
  = toLowerCase (replaceMod modifier false (trimStart a)).
Proof.
  induction a as [|c r IH]; [reflexivity|].
  cbn [trimStart]. destruct (isWhiteSpace c) eqn:Hc.
  - rewrite replaceMod_white by assumption. cbn [toLowerCase trimStart].
    by rewrite (proj1 (proj2 (proj2 (lowerChar_facts c)))), Hc.
  - rewrite replaceMod_eq. destruct (modAt false (String c r)).
    + apply trimStart_modifier.
    + cbn [toLowerCase trimStart].
      by rewrite (proj1 (proj2 (proj2 (lowerChar_facts c)))), Hc.
Qed.

Lemma boundaryAfter_trimEnd r : boundaryAfter (trimEnd r) = boundaryAfter r.
Proof.
  pose proof (trimEnd_head r) as H. destruct (trimEnd r) as [|c' r'].
  - destruct r as [|c r]; [reflexivity|]. cbn [boundaryAfter].
    destruct (lowerChar_facts c) as (_ & _ & _ & Hw).
    destruct (Hw H) as [-> _]. reflexivity.
  - destruct H as [r0 ->]. reflexivity.
Qed.

Lemma trimEnd_mod r3 :
  trimEnd (String "m" (String "o" (String "d" r3)))
  = String "m" (String "o" (String "d" (trimEnd r3))).
Proof. by rewrite !trimEnd_cons_solid by reflexivity. Qed.

Lemma modAt_trimEnd prev s : modAt prev (trimEnd s) = modAt prev s.
Proof.
  destruct (modAt prev s) eqn:Hm.
  - apply modAt_true in Hm as (-> & r3 & -> & Hb).
    rewrite trimEnd_mod. unfold modAt. cbn [negb startsWith afterMod].
    rewrite boundaryAfter_trimEnd, Hb. reflexivity.
  - destruct (modAt prev (trimEnd s)) eqn:Hm'; [|reflexivity].
    apply modAt_true in Hm' as (-> & r3 & Heq & Hb).
    assert (Hs : ∃ r, s = String "m" (String "o" (String "d" r))
                      ∧ trimEnd r = r3).
    { destruct s as [|c1 s1]; [discriminate|].
      pose proof (trimEnd_head (String c1 s1)) as H1. rewrite Heq in H1.
      destruct H1 as [? [= -> <-]].
      rewrite trimEnd_cons_solid in Heq by reflexivity. injection Heq as Heq.
      destruct s1 as [|c2 s2]; [discriminate|].
      pose proof (trimEnd_head (String c2 s2)) as H2. rewrite Heq in H2.
      destruct H2 as [? [= -> <-]].
      rewrite trimEnd_cons_solid in Heq by reflexivity. injection Heq as Heq.
      destruct s2 as [|c3 s3]; [discriminate|].
      pose proof (trimEnd_head (String c3 s3)) as H3. rewrite Heq in H3.
      destruct H3 as [? [= -> <-]].
      rewrite trimEnd_cons_solid in Heq by reflexivity. injection Heq as Heq.
      by exists s3. }
    destruct Hs as (r & -> & <-).
    unfold modAt in Hm. cbn [negb startsWith afterMod] in Hm.
    rewrite boundaryAfter_trimEnd in Hb. rewrite Hb in Hm. discriminate.
Qed.

Lemma trimEnd_resolve a :
  ∀ prev,
    trimEnd (toLowerCase (replaceMod modifier prev a))
    = toLowerCase (replaceMod modifier prev (trimEnd a)).
Proof.
  intros prev. revert a prev.
  apply (replaceMod_scan_ind
           (λ prev a, trimEnd (toLowerCase (replaceMod modifier prev a))
                      = toLowerCase (replaceMod modifier prev (trimEnd a)))).
  - reflexivity.
  - intros prev c r Hm IH.
    assert (Hm' := modAt_trimEnd prev (String c r)). rewrite Hm in Hm'.
    rewrite replaceMod_eq, Hm. cbn [toLowerCase]. rewrite trimEnd_cons, IH.
    rewrite trimEnd_cons in Hm' |- *.
    destruct (trimEnd r) as [|x r'] eqn:Hr.
    + cbn [replaceMod toLowerCase].
      rewrite (proj1 (proj2 (proj2 (lowerChar_facts c)))).
      by destruct (isWhiteSpace c).
    + rewrite (replaceMod_eq _ prev c), Hm'. cbn [toLowerCase].
      destruct (toLowerCase (replaceMod modifier (isWordChar c) (String x r')))
        eqn:Hy; [|reflexivity].
      apply toLowerCase_empty in Hy. by apply replaceMod_nonempty in Hy.
  - intros r3 Hb IH.
    rewrite trimEnd_mod, !replaceMod_mod
      by (by rewrite ?boundaryAfter_trimEnd).
    rewrite trimEnd_modifier, IH. by rewrite toLowerCase_app.
Qed.

Lemma trim_resolve a :
  trim (toLowerCase (replaceMod modifier false a))
  = toLowerCase (replaceMod modifier false (trim a)).
Proof. unfold trim. by rewrite trimStart_resolve, trimEnd_resolve. Qed.

Lemma modAt_after_copy prev c r :
  modAt prev (String c (replaceMod modifier (isWordChar c) r))
  = modAt prev (String c r).
Proof.
  unfold modAt. destruct prev; [reflexivity|]. cbn [negb andb startsWith].
  destruct (Ascii.eqb_spec "m" c) as [<-|]; [|reflexivity].
  change (isWordChar "m") with true. cbn [andb].
  destruct r as [|c2 r2]; [reflexivity|].
  rewrite replaceMod_head_true. cbn [startsWith afterMod].
  destruct (Ascii.eqb_spec "o" c2) as [<-|]; [|reflexivity].
  change (isWordChar "o") with true. cbn [andb].
  destruct r2 as [|c3 r3]; [reflexivity|].
  rewrite replaceMod_head_true. cbn [startsWith afterMod].
  destruct (Ascii.eqb_spec "d" c3) as [<-|]; [|reflexivity].
  change (isWordChar "d") with true. cbn [andb].
  destruct r3 as [|c4 r4]; [reflexivity|].
  by rewrite replaceMod_head_true.
Qed.

Lemma replaceMod_leaves_no_word s :
  ∀ prev, hasModWord prev (replaceMod modifier prev s) = false.
Proof.
  intros prev. revert s prev.
  apply (replaceMod_scan_ind
           (λ prev s, hasModWord prev (replaceMod modifier prev s) = false)).
  - reflexivity.
  - intros prev c r Hm IH. rewrite replaceMod_eq, Hm. cbn [hasModWord].
    by rewrite modAt_after_copy, Hm, IH.
  - intros r3 Hb IH. rewrite replaceMod_mod by assumption.
    destruct modifier_known as [-> | ->];
      rewrite !string_app_cons, string_app_nil; cbn [hasModWord];
      unfold modAt; cbn [negb andb startsWith];
      repeat match goal with
             | |- context [Ascii.eqb ?a ?b] =>
                 let v := eval vm_compute in (Ascii.eqb a b) in
                 change (Ascii.eqb a b) with v
             | |- context [isWordChar ?a] =>
                 let v := eval vm_compute in (isWordChar a) in
                 change (isWordChar a) with v
             end; cbn [andb orb]; exact IH.
Qed.
End ResolveTrim.

Lemma platformModifier_known navigator :
  platformModifier navigator = "meta" ∨ platformModifier navigator = "ctrl".
Proof. unfold platformModifier. destruct (isMac navigator); tauto. Qed.

Lemma tokens_normal_form navigator ks :
  tokens navigator ks
  = map (λ t, toLowerCase (resolvePlatformModifier navigator (trim t)))
      (split "+" ks).
Proof.
  unfold tokens. rewrite split_toLowerCase, resolvePlatformModifier_split.
  rewrite !map_map. apply map_ext. intros t.
  apply trim_resolve, platformModifier_known.
Qed.

(** X23.  White space around the tokens of a combination never matters:
    parsing splits at ['+'], trims each token, and only then resolves [mod]
    and lower-cases, with the same result as the code's order.  So two
    combinations whose tokens agree after trimming parse to the same
    modifier set and key and match the same events. *)
Theorem whitespace_around_tokens_is_irrelevant navigator ks1 ks2 :
  tokens navigator ks1
    = map (λ t, toLowerCase (resolvePlatformModifier navigator (trim t)))
        (split "+" ks1)
  ∧ (map trim (split "+" ks1) = map trim (split "+" ks2) →
     parseKeyCombination navigator ks1 = parseKeyCombination navigator ks2
     ∧ ∀ event, matchesKeyCombination navigator event ks1
                = matchesKeyCombination navigator event ks2).
Proof.
  split; [apply tokens_normal_form|].
  intros Htrim.
  assert (Htokens : tokens navigator ks1 = tokens navigator ks2).
  { rewrite !tokens_normal_form.
    rewrite <- (map_map trim
                  (λ t, toLowerCase (resolvePlatformModifier navigator t))
                  (split "+" ks1)).
    rewrite <- (map_map trim
                  (λ t, toLowerCase (resolvePlatformModifier navigator t))
                  (split "+" ks2)).
    by rewrite Htrim. }
  assert (Hparse : parseKeyCombination navigator ks1
                   = parseKeyCombination navigator ks2).
  { by rewrite !parseKeyCombination_tokens, Htokens. }
  split; [exact Hparse|].
  intros event. unfold matchesKeyCombination. by rewrite Hparse.
Qed.

Lemma whitespace_around_tokens_is_irrelevant_witness :
  map trim (split "+" " Mod +  Shift+z ") = map trim (split "+" "Mod+Shift+z")
  ∧ parseKeyCombination (Some "MacIntel") " Mod +  Shift+z "
    = parseKeyCombination (Some "MacIntel") "Mod+Shift+z".
Proof.
  assert (Htrim : map trim (split "+" " Mod +  Shift+z ")
                  = map trim (split "+" "Mod+Shift+z")) by reflexivity.
  split; [exact Htrim|].
  exact (proj1 (proj2 (whitespace_around_tokens_is_irrelevant
                         (Some "MacIntel") " Mod +  Shift+z " "Mod+Shift+z")
                 Htrim)).
Defined.

(** X24.  Platform resolution is idempotent: its result contains no
    whole-word [mod], so resolving it again changes nothing. *)
Theorem resolvePlatformModifier_idempotent navigator s :
  hasModWord false (resolvePlatformModifier navigator s) = false
  ∧ resolvePlatformModifier navigator (resolvePlatformModifier navigator s)
    = resolvePlatformModifier navigator s.
Proof.
  assert (Hno : hasModWord false (resolvePlatformModifier navigator s) = false).
  { apply replaceMod_leaves_no_word, platformModifier_known. }
  split; [exact Hno|]. by apply replaceMod_without_word.
Qed.

(** ** More on the conflict detector *)

Lemma detectLoop_distinct navigator shortcuts :
  ∀ seenKeys conflicts,
    (∀ k, is_Some (seenKeys !! k) →
          k ∉ map (normalizedKeys navigator) shortcuts) →
    NoDup (map (normalizedKeys navigator) shortcuts) →
    detectLoop navigator seenKeys conflicts shortcuts = conflicts.
Proof.
  induction shortcuts as [|s rest IH]; intros seenKeys conflicts Hseen Hnd;
    [reflexivity|].
  cbn [map] in Hseen, Hnd. apply NoDup_cons in Hnd as [Hs Hnd].
  cbn [detectLoop].
  destruct (seenKeys !! normalizedKeys navigator s) as [v|] eqn:Hlook.
  - exfalso. apply (Hseen (normalizedKeys navigator s)); [by eexists|].
    apply list_elem_of_here.
  - cbn [isTruthy]. apply IH; [|assumption].
    intros k [v Hk].
    destruct (decide (normalizedKeys navigator s = k)) as [<-|Hne];
      [assumption|].
    rewrite lookup_insert_ne in Hk by assumption.
    assert (Hin := Hseen k (ex_intro _ v Hk)).
    apply not_elem_of_cons in Hin. tauto.
Qed.

Lemma firstSeenConflicts_nil navigator shortcuts :
  ∀ earlier,
    firstSeenConflicts navigator earlier shortcuts = [] →
    (∀ s, s ∈ shortcuts →
          normalizedKeys navigator s ∉ map (normalizedKeys navigator) earlier)
    ∧ NoDup (map (normalizedKeys navigator) shortcuts).
Proof.
  induction shortcuts as [|s rest IH]; intros earlier Hnil.
  - split; [intros s Hs; by apply elem_of_nil in Hs | constructor].
  - cbn [firstSeenConflicts] in Hnil.
    apply app_eq_nil in Hnil as [Hfirst Hrest].
    destruct (find _ earlier) as [first|] eqn:Hfind; [discriminate|].
    assert (Hs : normalizedKeys navigator s
                 ∉ map (normalizedKeys navigator) earlier).
    { intros Hin. apply list_elem_of_fmap in Hin as (e & He & Hin).
      apply find_None_Forall in Hfind.
      apply (proj1 (Forall_forall _ _) Hfind) in Hin.
      rewrite <- He, String.eqb_refl in Hin. discriminate. }
    destruct (IH _ Hrest) as [Hearlier Hnd].
    split.
    + intros s' [->|Hs']%elem_of_cons; [exact Hs|].
      intros Hin. apply (Hearlier s' Hs').
      rewrite map_app, elem_of_app. by left.
    + cbn [map]. apply NoDup_cons. split; [|exact Hnd].
      intros Hin. apply list_elem_of_fmap in Hin as (s' & He & Hs').
      apply (Hearlier s' Hs'). rewrite map_app, elem_of_app. right.
      cbn [map]. rewrite He. apply list_elem_of_here.
Qed.

(** X25.  No conflict is reported when the normalized combinations of the
    input are pairwise different; and when every id is a non-empty string
    the converse holds: an empty report means that no two definitions share
    a normalized combination. *)
Theorem detectConflicts_empty_iff_distinct navigator shortcuts :
  (NoDup (map (normalizedKeys navigator) shortcuts) →
   detectConflicts navigator shortcuts = [])
  ∧ (Forall (λ s, id s ≠ "") shortcuts →
     detectConflicts navigator shortcuts = [] →
     NoDup (map (normalizedKeys navigator) shortcuts)).
Proof.
  split.
  - intros Hnd. unfold detectConflicts. apply detectLoop_distinct; [|assumption].
    intros k [v Hk]. by rewrite lookup_empty in Hk.
  - intros Hids Hnil. rewrite detectConflicts_firstSeen in Hnil by assumption.
    by apply firstSeenConflicts_nil in Hnil as [_ ?].
Qed.

Lemma detectConflicts_empty_iff_distinct_witness :
  let shortcuts := [shortcut "a" "mod+s"; shortcut "b" "Ctrl+S"] in
  Forall (λ s, id s ≠ "") shortcuts
  ∧ detectConflicts (Some "MacIntel") shortcuts = []
  ∧ NoDup (map (normalizedKeys (Some "MacIntel")) shortcuts).
Proof.
  intros shortcuts.
  assert (Hids : Forall (λ s, id s ≠ "") shortcuts)
    by (repeat constructor; discriminate).
  assert (Hnil : detectConflicts (Some "MacIntel") shortcuts = [])
    by (vm_compute; reflexivity).
  split_and!; [exact Hids | exact Hnil |].
  exact (proj2 (detectConflicts_empty_iff_distinct (Some "MacIntel") shortcuts)
           Hids Hnil).
Defined.

Lemma detectLoop_reads_id_and_keys navigator l1 :
  ∀ l2 seenKeys conflicts,
    map (λ c, (id c, keys c)) l1 = map (λ c, (id c, keys c)) l2 →
    detectLoop navigator seenKeys conflicts l1
    = detectLoop navigator seenKeys conflicts l2.
Proof.
  induction l1 as [|s1 l1 IH]; intros [|s2 l2] seenKeys conflicts Heq;
    try discriminate; [reflexivity|].
  cbn [map] in Heq. injection Heq as Hid Hkeys Heq.
  cbn [detectLoop]. unfold normalizedKeys. rewrite Hid, Hkeys.
  destruct (isTruthy _); by apply IH.
Qed.

(** X26.  The detector reads nothing but the id and the keys of a
    definition: scope, enabled flag, name, description and preventDefault
    have no influence, so two definitions with the same combination are
    reported also when they are disabled or live in different scopes. *)
Theorem detectConflicts_ignores_scope navigator l1 l2 :
  map (λ c, (id c, keys c)) l1 = map (λ c, (id c, keys c)) l2 →
  detectConflicts navigator l1 = detectConflicts navigator l2.
Proof. intros Heq. by apply detectLoop_reads_id_and_keys. Qed.

Lemma detectConflicts_ignores_scope_witness :
  let scoped i sc on := mkShortcutConfig i i "" "mod+s" None on sc in
  let l1 := [scoped "a" (Some "editor") None; scoped "b" (Some "modal") (Some false)] in
  let l2 := [shortcut "a" "mod+s"; shortcut "b" "mod+s"] in
  map (λ c, (id c, keys c)) l1 = map (λ c, (id c, keys c)) l2
  ∧ detectConflicts None l1 = [mkConflict "a" "b" "ctrl+s"].
Proof.
  intros scoped l1 l2.
  assert (Heq : map (λ c, (id c, keys c)) l1 = map (λ c, (id c, keys c)) l2)
    by reflexivity.
  split; [exact Heq|].
  rewrite (detectConflicts_ignores_scope None l1 l2 Heq).
  vm_compute. reflexivity.
Defined.

(** ** Platform detection *)

Lemma startsWith_app p b : startsWith p (p +:+ b) = true.
Proof.
  induction p as [|c p IH]; [by destruct b|].
  rewrite string_app_cons. cbn [startsWith]. by rewrite Ascii.eqb_refl, IH.
Qed.

Lemma includes_app a needle b : includes (a +:+ needle +:+ b) needle = true.
Proof.
  induction a as [|c a IH].
  - rewrite string_app_nil.
    destruct (needle +:+ b) eqn:E; cbn [includes];
      rewrite <- E, startsWith_app; reflexivity.
  - rewrite string_app_cons. cbn [includes]. rewrite IH. apply orb_true_r.
Qed.

(** X27.  Platform detection is a substring test on the lower-cased
    platform string: a string that contains [mac] in any letter case is
    classified as Mac, whatever else it contains, and [mod] then stands for
    [meta]; without a [navigator] the platform is Linux and [mod] stands
    for [ctrl]. *)
Theorem getPlatform_by_substring a x b :
  toLowerCase x = "mac" →
  getPlatform (Some (a +:+ x +:+ b)) = mac
  ∧ isMac (Some (a +:+ x +:+ b)) = true
  ∧ resolvePlatformModifier (Some (a +:+ x +:+ b)) "mod" = "meta"
  ∧ getPlatform None = linux
  ∧ resolvePlatformModifier None "mod" = "ctrl".
Proof.
  intros Hx.
  assert (Hmac : getPlatform (Some (a +:+ x +:+ b)) = mac).
  { unfold getPlatform. cbn zeta.
    by rewrite !toLowerCase_app, Hx, includes_app. }
  split_and!; try reflexivity.
  - exact Hmac.
  - unfold isMac. by rewrite Hmac.
  - rewrite resolvePlatformModifier_mod. unfold platformModifier, isMac.
    by rewrite Hmac.
Qed.

Lemma getPlatform_by_substring_witness :
  toLowerCase "Mac" = "mac"
  ∧ getPlatform (Some ("Win32 on " +:+ "Mac" +:+ "Intel")) = mac.
Proof.
  assert (Hx : toLowerCase "Mac" = "mac") by reflexivity.
  split; [exact Hx|].
  exact (proj1 (getPlatform_by_substring "Win32 on " "Mac" "Intel" Hx)).
Defined.

(** ** Diagnostic output *)

Lemma silent_andThen (a b : Action) : silent a → silent b → silent (a ;; b).
Proof.
  intros Ha Hb m Hm. destruct (Ha m Hm) as [Hda Hta].
  destruct (Hb (a m).1 Hda) as [Hdb Htb].
  rewrite andThen_state, andThen_trace. split; [exact Hdb|].
  intros message [Hin|Hin]%elem_of_app; [by apply (Hta message) | by apply (Htb message)].
Qed.

Lemma silent_map {A : Type} (f : A → Effect) (l : ShortcutManager → list A)
    (g : ShortcutManager → ShortcutManager) :
  (∀ x message, f x ≠ ConsoleLog message) →
  (∀ m, debug (g m) = debug m) →
  silent (λ m, (g m, map f (l m))).
Proof.
  intros Hf Hg m Hm. cbn [fst snd]. split; [by rewrite Hg|].
  intros message Hin. apply list_elem_of_fmap in Hin as (x & Hx & _).
  by apply (Hf x message).
Qed.

Lemma silent_log message : silent (log message).
Proof.
  intros m Hm. unfold log. rewrite Hm. cbn [fst snd].
  split; [assumption|]. intros ?. apply not_elem_of_nil.
Qed.

Lemma silent_modify f : (∀ m, debug (f m) = debug m) → silent (modify f).
Proof.
  intros Hf m Hm. unfold modify. cbn [fst snd].
  split; [by rewrite Hf|]. intros ?. apply not_elem_of_nil.
Qed.

Lemma silent_skip : silent skip.
Proof. intros m Hm. split; [assumption|]. intros ?. apply not_elem_of_nil. Qed.

Lemma silent_shortcuts_update f : silent (shortcuts_update f).
Proof.
  apply (silent_map ShortcutsListener
           (λ m, (Store.update f (shortcuts m)).2)
           (λ m, with_shortcuts (Store.update f (shortcuts m)).1 m));
    [discriminate | reflexivity].
Qed.

Lemma silent_pressedKeys_update f : silent (pressedKeys_update f).
Proof.
  apply (silent_map PressedKeysListener
           (λ m, (Store.update f (pressedKeys m)).2)
           (λ m, with_pressedKeys (Store.update f (pressedKeys m)).1 m));
    [discriminate | reflexivity].
Qed.

Lemma silent_checkConflicts navigator : silent (checkConflicts navigator).
Proof.
  intros m Hm. unfold checkConflicts. cbn [fst snd].
  split; [assumption|]. intros message Hin.
  destruct (0 <? length _)%nat; [|by apply elem_of_nil in Hin].
  by apply list_elem_of_singleton in Hin.
Qed.

Lemma silent_trigger now event i config : silent (trigger now event i config).
Proof.
  unfold trigger. repeat apply silent_andThen.
  - intros m Hm. rewrite when_perform_state, when_perform_trace.
    split; [assumption|]. intros message Hin.
    destruct (preventsDefault config); [|by apply elem_of_nil in Hin].
    apply elem_of_cons in Hin as [[=]|Hin].
    by apply list_elem_of_singleton in Hin.
  - apply (silent_map LastTriggeredListener
             (λ m, (Store.set _ (lastTriggeredShortcut m)).2)
             (λ m, with_lastTriggeredShortcut
                     (Store.set _ (lastTriggeredShortcut m)).1 m));
      [discriminate | reflexivity].
  - apply (silent_map TriggerListener
             (λ m, EventEmitter.emit _ (triggerEmitter m)) (λ m, m));
      [discriminate | reflexivity].
  - intros m Hm. rewrite notifySubscribers_state, notifySubscribers_trace.
    split; [assumption|]. intros message Hin.
    by apply list_elem_of_fmap in Hin as (? & [=] & _).
  - apply silent_pressedKeys_update.
  - apply silent_log.
Qed.

Lemma silent_scanShortcuts navigator now event entries :
  silent (scanShortcuts navigator now event entries).
Proof.
  induction entries as [|[i config] rest IH]; [apply silent_skip|].
  intros m Hm. cbn [scanShortcuts].
  destruct (isDisabled config); [by apply IH|].
  destruct (scopeExcludes config (currentScope m)); [by apply IH|].
  destruct (matchesKeyCombination navigator event (keys config));
    [by apply silent_trigger | by apply IH].
Qed.

Lemma silent_run navigator hasWindow call : silent (run navigator hasWindow call).
Proof.
  destruct call; cbn [run].
  - intros m Hm. unfold init. destruct (isInitialized m); [by apply silent_skip|].
    destruct hasWindow; [|by apply silent_skip].
    revert m Hm.
    apply silent_andThen; [by apply silent_modify | apply silent_log].
  - intros m Hm. unfold destroy.
    destruct (isInitialized m); [|by apply silent_skip].
    destruct hasWindow; [|by apply silent_skip].
    revert m Hm.
    apply silent_andThen; [by apply silent_modify | apply silent_log].
  - intros m Hm. unfold keydown.
    destruct (isInitialized m); [|by apply silent_skip].
    revert m Hm. unfold handleKeyDown.
    apply silent_andThen; [apply silent_pressedKeys_update|].
    intros m Hm. by apply silent_scanShortcuts.
  - intros m Hm. unfold keyup.
    destruct (isInitialized m); [|by apply silent_skip].
    by apply silent_pressedKeys_update.
  - intros m Hm. unfold blur.
    destruct (isInitialized m); [|by apply silent_skip].
    revert m Hm.
    apply (silent_map PressedKeysListener
             (λ m, (Store.set [] (pressedKeys m)).2)
             (λ m, with_pressedKeys (Store.set [] (pressedKeys m)).1 m));
      [discriminate | reflexivity].
  - by apply silent_modify.
  - apply silent_modify. intros m.
    destruct (subscribers m !! i) as [cbs|]; [|reflexivity].
    cbn zeta. by destruct (length (JsSet.delete callback cbs) =? 0)%nat.
  - by apply silent_modify.
  - by apply silent_modify.
  - unfold registerShortcut. repeat apply silent_andThen;
      [apply silent_shortcuts_update | apply silent_checkConflicts
      | apply silent_log].
  - unfold registerShortcuts. repeat apply silent_andThen;
      [apply silent_shortcuts_update | apply silent_checkConflicts
      | apply silent_log].
  - unfold unregisterShortcut. apply silent_andThen;
      [apply silent_shortcuts_update | apply silent_log].
  - apply silent_shortcuts_update.
  - apply silent_shortcuts_update.
  - unfold setScope. apply silent_andThen;
      [by apply silent_modify | apply silent_log].
Qed.

Lemma silent_loadShortcuts navigator configs :
  silent (loadShortcuts navigator configs).
Proof.
  unfold loadShortcuts. apply silent_andThen; [|apply silent_checkConflicts].
  apply (silent_map ShortcutsListener
           (λ m, (Store.set _ (shortcuts m)).2)
           (λ m, with_shortcuts (Store.set _ (shortcuts m)).1 m));
    [discriminate | reflexivity].
Qed.

(** X28.  With the [debug] option off, which is the default, no method
    and no window event ever prints a [console.log] line, in any sequence
    of calls; and no call turns the option on. *)
Theorem no_log_without_debug navigator hasWindow calls shortcuts scope :
  let m0 := (create navigator (mkOptions shortcuts scope None)).1 in
  debug m0 = false
  ∧ debug (runAll navigator hasWindow calls m0).1 = false
  ∧ ∀ message,
      ConsoleLog message ∉ (create navigator (mkOptions shortcuts scope None)).2
                           ++ (runAll navigator hasWindow calls m0).2.
Proof.
  intros m0.
  assert (Hcreate : debug m0 = false
            ∧ ∀ message,
                ConsoleLog message
                  ∉ (create navigator (mkOptions shortcuts scope None)).2).
  { subst m0. unfold create. cbn [opt_shortcuts opt_debug opt_scope].
    destruct (0 <? _)%nat;
      [|split; [reflexivity | intros ?; apply not_elem_of_nil]].
    apply silent_loadShortcuts. reflexivity. }
  destruct Hcreate as [Hm0 Hcreate].
  assert (Hall : silent (runAll navigator hasWindow calls)).
  { induction calls as [|c calls IH]; [apply silent_skip|].
    cbn [runAll foldr]. apply silent_andThen; [apply silent_run | exact IH]. }
  destruct (Hall m0 Hm0) as [Hd Ht].
  split_and!; [exact Hm0 | exact Hd |].
  intros message [Hin|Hin]%elem_of_app;
    [by apply (Hcreate message) | by apply (Ht message)].
Qed.
